(** * Data cube indexer: a shallow embedding of
    [packages/core/src/DataCubeIndexer.js] and of the part of
    [packages/sql/src/Query.js] it drives.

    Layout: JavaScript values and numbers, the SQL builder's objects in a
    store (queries are mutable and shared, so they live in a heap and are
    named by object ids), the bin synthesizer, the active-clause analyzer,
    the cube planner with its subquery push-down, and the indexer itself.
    The theorems follow the definitions. *)

From Stdlib Require Import ZArith String Ascii List Bool Lia.
From Stdlib Require Import PrimFloat FloatOps SpecFloat.
From stdpp Require Import base option list gmap strings.

Open Scope string_scope.

(* ===================================================================== *)
(** * Errors and results *)
(* ===================================================================== *)

(** What a JavaScript call can do besides returning: throw. [TypeError] is a
    property read or a call on [undefined]; [RangeError] is the exhausted
    call stack of a recursion that does not end. *)
Inductive Error := TypeError | RangeError.

Inductive Res (A : Type) : Type :=
| Ok (a : A)
| Throw (e : Error).
Arguments Ok {A} a.
Arguments Throw {A} e.

Definition res_bind {A B} (m : Res A) (k : A -> Res B) : Res B :=
  match m with
  | Ok a => k a
  | Throw e => Throw e
  end.

Definition res_map {A B} (f : A -> B) (m : Res A) : Res B :=
  res_bind m (fun a => Ok (f a)).

(** [xs.map(f)] where [f] may throw: the first throw ends the loop. *)
Fixpoint res_mapM {A B} (f : A -> Res B) (l : list A) : Res (list B) :=
  match l with
  | [] => Ok []
  | x :: l' =>
      res_bind (f x) (fun y => res_bind (res_mapM f l') (fun ys => Ok (y :: ys)))
  end.

(* ===================================================================== *)
(** * JavaScript values, truthiness, strict equality *)
(* ===================================================================== *)

Module Js.

(** The values a clause source or the enabled flag can hold. Numbers are
    IEEE 754 doubles, as in JavaScript. An object is named by its
    identity. *)
Inductive JsVal :=
| JUndefined
| JNull
| JBool (b : bool)
| JNum (x : float)
| JStr (s : string)
| JObj (o : nat).

(** [!!v]. Falsy: undefined, null, false, +0, -0, NaN and the empty
    string. *)
Definition truthy (v : JsVal) : bool :=
  match v with
  | JUndefined | JNull => false
  | JBool b => b
  | JNum x => negb (is_zero x || is_nan x)
  | JStr s => negb (String.eqb s "")
  | JObj _ => true
  end.

(** [a === b]. On numbers this is IEEE equality: NaN differs from itself
    and the two zeros are equal. *)
Definition strict_eq (a b : JsVal) : bool :=
  match a, b with
  | JUndefined, JUndefined => true
  | JNull, JNull => true
  | JBool x, JBool y => Bool.eqb x y
  | JNum x, JNum y => PrimFloat.eqb x y
  | JStr x, JStr y => String.eqb x y
  | JObj x, JObj y => Nat.eqb x y
  | _, _ => false
  end.

(** ** Strings *)

Definition dquote : string := String "034"%char EmptyString.

Fixpoint join (sep : string) (l : list string) : string :=
  match l with
  | [] => ""
  | [x] => x
  | x :: l' => x +:+ sep +:+ join sep l'
  end.

Definition lower_ascii (c : ascii) : ascii :=
  let n := nat_of_ascii c in
  if (65 <=? n)%nat && (n <=? 90)%nat then ascii_of_nat (n + 32) else c.

(** [s.toLowerCase()] on the ASCII range. No character outside it lowers
    to one of the letters of ceil, round or floor, so the lookup in
    [BIN] below is decided by this range. *)
Fixpoint toLowerCase (s : string) : string :=
  match s with
  | EmptyString => EmptyString
  | String c s' => String (lower_ascii c) (toLowerCase s')
  end.

(** [s.slice(1, -1)]. *)
Fixpoint drop_last (s : string) : string :=
  match s with
  | EmptyString => EmptyString
  | String c EmptyString => EmptyString
  | String c s' => String c (drop_last s')
  end.

Fixpoint last_char (s : string) : option ascii :=
  match s with
  | EmptyString => None
  | String c EmptyString => Some c
  | String _ s' => last_char s'
  end.

(** ** Property lookup on an object literal

    [o[k]] reads an own property first and then the prototype chain: an
    object literal inherits the members of [Object.prototype]. *)
Definition object_prototype_members : list string :=
  [ "constructor"; "__proto__"; "hasOwnProperty"; "isPrototypeOf";
    "propertyIsEnumerable"; "toLocaleString"; "toString"; "valueOf";
    "__defineGetter__"; "__defineSetter__"; "__lookupGetter__";
    "__lookupSetter__" ].

Definition inherited (k : string) : bool :=
  existsb (String.eqb k) object_prototype_members.

(** ** Numbers *)

Definition digit_char (d : Z) : ascii :=
  if (d <? 10)%Z then ascii_of_nat (48 + Z.to_nat d)
  else ascii_of_nat (87 + Z.to_nat d).

Fixpoint digits_go (fuel : nat) (radix n : Z) (acc : string) : string :=
  match fuel with
  | O => acc
  | S fuel' =>
      let acc' := String (digit_char (n mod radix)) acc in
      if (n / radix =? 0)%Z then acc' else digits_go fuel' radix (n / radix) acc'
  end.

(** [n.toString(radix)] for an integer [n]: lowercase digits, no
    padding. *)
Definition integer_toString (radix n : Z) : string :=
  if (n <? 0)%Z
  then "-" +:+ digits_go (S (Z.to_nat (Z.log2 (- n)))) radix (- n) ""
  else digits_go (S (Z.to_nat (Z.log2 n))) radix n "".

(** [x >>> 0]: ToUint32 of an integer. *)
Definition to_uint32 (n : Z) : Z := (n mod 2 ^ 32)%Z.

(** The integer a double holds, when it holds one. *)
Definition float_integer (x : float) : option Z :=
  match Prim2SF x with
  | S754_zero _ => Some 0%Z
  | S754_finite s m e =>
      let mag :=
        if (0 <=? e)%Z then Some (Z.pos m * 2 ^ e)%Z
        else if (Z.pos m mod 2 ^ (- e) =? 0)%Z then Some (Z.pos m / 2 ^ (- e))%Z
        else None in
      (fun v : Z => if s then (- v)%Z else v) <$> mag
  | S754_infinity _ | S754_nan => None
  end.

(** [`${x}`] for a number. Integers up to 2^53 in magnitude print as their
    decimal digits, the two zeros as 0. Every other finite double prints
    as the shortest decimal that reads back as the same double: that
    printer belongs to the runtime and is taken as [other]. *)
Definition number_toString (other : float -> string) (x : float) : string :=
  if is_nan x then "NaN"
  else if is_infinity x then (if get_sign x then "-Infinity" else "Infinity")
  else match float_integer x with
       | Some n =>
           if (Z.abs n <=? 2 ^ 53)%Z then integer_toString 10 n else other x
       | None => other x
       end.

(** [Math.min(...xs)] and [Math.max(...xs)]: NaN wins, and -0 is below +0. *)
Definition min2 (a b : float) : float :=
  if is_nan a || is_nan b then nan
  else if PrimFloat.ltb b a then b
  else if PrimFloat.ltb a b then a
  else if get_sign a then a else b.

Definition max2 (a b : float) : float :=
  if is_nan a || is_nan b then nan
  else if PrimFloat.ltb a b then b
  else if PrimFloat.ltb b a then a
  else if get_sign a then b else a.

Definition math_min (xs : list float) : float := fold_left min2 xs infinity.
Definition math_max (xs : list float) : float := fold_left max2 xs neg_infinity.

(** ** Digits *)

(** Reading digits back: the value of a digit and of a string of digits.
    No part of the program reads an identifier back; these two are what
    the statements about [toString(radix)] are made with. *)
Definition digit_value (c : ascii) : Z :=
  let n := Z.of_nat (nat_of_ascii c) in
  if (n <? 58)%Z then (n - 48)%Z else (n - 87)%Z.

Fixpoint digits_value (radix : Z) (s : string) : Z :=
  match s with
  | EmptyString => 0%Z
  | String c s' =>
      (digit_value c * radix ^ Z.of_nat (String.length s') + digits_value radix s')%Z
  end.

End Js.
Export Js.


(* ===================================================================== *)
(** * SQL expressions *)
(* ===================================================================== *)

Module Sql.

(** Expressions of the SQL builder. A [Ref] is a column or relation
    reference ([ref.js]); an [SqlExpr] is any other expression, carried as
    its rendered text and the base columns it refers to (what the
    expression's [.columns] exposes). *)
Inductive Expr :=
| Ref (table column : option string)
| SqlExpr (text : string) (columns : list string).

(** The values handed to the builder: expressions, and the raw strings and
    numbers the builder coerces. *)
Inductive Val :=
| VUndefined
| VNum (x : float)
| VStr (s : string)
| VExpr (e : Expr).

Definition val_truthy (v : Val) : bool :=
  match v with
  | VUndefined => false
  | VNum x => negb (is_zero x || is_nan x)
  | VStr s => negb (String.eqb s "")
  | VExpr _ => true
  end.

(** Modelled from the spec: [asColumn] and [asRelation] of [ref.js] (not
    under src/): a string becomes a column, respectively relation,
    reference and any other value is passed through. *)
Definition asColumn (v : Val) : Val :=
  match v with
  | VStr s => VExpr (Ref None (Some s))
  | _ => v
  end.

Definition asRelation (v : Val) : Val :=
  match v with
  | VStr s => VExpr (Ref (Some s) None)
  | _ => v
  end.

(** [e.columns]. *)
Definition expr_columns (e : Expr) : list string :=
  match e with
  | Ref _ (Some c) => [c]
  | Ref _ None => []
  | SqlExpr _ cs => cs
  end.

(** [x.table] as a property key: a missing table reads as [undefined]. *)
Definition table_key (e : Expr) : string :=
  match e with
  | Ref (Some t) _ => t
  | _ => "undefined"
  end.

(** What this development takes from the SQL builder and the runtime
    without their source: printing of references, of non-integer numbers
    and of the members of [Object.prototype], the test [isColumnRefFor],
    and the builders [isBetween], [and] and [create]. *)
Class SqlLib := {
  number_other : float -> string;
  ref_toString : option string -> option string -> string;
  isColumnRefFor : Val -> option string -> bool;
  member_text : string -> string;
  isBetween : string -> list Expr -> Expr;
  sql_and : list Expr -> Expr;
  create : string -> string -> string
}.

Section Printing.
Context `{!SqlLib}.

Definition expr_toString (e : Expr) : string :=
  match e with
  | Ref t c => ref_toString t c
  | SqlExpr s _ => s
  end.

(** [`${v}`]. *)
Definition val_toString (v : Val) : string :=
  match v with
  | VUndefined => "undefined"
  | VNum x => number_toString number_other x
  | VStr s => s
  | VExpr e => expr_toString e
  end.

(** Modelled from the spec: the [sql] template tag of [expression.js]
    (not under src/). The expression it builds renders as the template
    with every interpolated value printed in place, and refers to the
    columns of the interpolated expressions, each once, in order. *)
Definition sql_tag (parts : list Val) : Expr :=
  SqlExpr (String.concat "" (map val_toString parts))
          (remove_dups (flat_map (fun v => match v with
                                           | VExpr e => expr_columns e
                                           | _ => []
                                           end) parts)).
End Printing.

End Sql.
Export Sql.


(* ===================================================================== *)
(** * The query builder ([Query.js]) *)
(* ===================================================================== *)

Module Query.

(** Queries are mutable objects that the planner updates in place and
    that several owners may share, so they live in a store and are named
    by object ids. The builder never updates an array in place (it always
    assigns a fresh [concat] or [filter]), so the lists below are plain
    values. *)
Definition oid := nat.

Record SelItem := { sel_as : option string; sel_expr : Val }.

Inductive FromSrc :=
| FromQuery (o : oid)
| FromExpr (e : Expr).

Record FromItem := { from_as : option string; from_src : FromSrc }.

Record Sample := {
  s_rows : option float;
  s_perc : option float;
  s_method : option string;
  s_seed : option float
}.

(** The [query] field of a [Query]. *)
Record QueryData := {
  q_with : list (string * oid);
  q_select : list SelItem;
  q_distinct : bool;
  q_from : list FromItem;
  q_sample : option Sample;
  q_where : list Val;
  q_groupby : list Val;
  q_having : list Val;
  q_window : list (string * Val);
  q_qualify : list Val;
  q_orderby : list Val;
  q_limit : option float;
  q_offset : option float
}.

(** The fields of a [SetOperation]. *)
Record SetOpData := {
  so_op : string;
  so_queries : list oid;
  so_orderby : list Val;
  so_limit : option float;
  so_offset : option float
}.

Inductive Obj :=
| OQuery (q : QueryData) (cteFor : option oid)
| OSetOp (s : SetOpData) (cteFor : option oid).

Abbreviation Heap := (gmap oid Obj).

(** What the constructor of [Query] builds. *)
Definition empty_query : QueryData :=
  {| q_with := []; q_select := []; q_distinct := false; q_from := [];
     q_sample := None; q_where := []; q_groupby := []; q_having := [];
     q_window := []; q_qualify := []; q_orderby := []; q_limit := None;
     q_offset := None |}.

Definition with_with (l : list (string * oid)) (q : QueryData) : QueryData :=
  {| q_with := l; q_select := q_select q; q_distinct := q_distinct q;
     q_from := q_from q; q_sample := q_sample q; q_where := q_where q;
     q_groupby := q_groupby q; q_having := q_having q; q_window := q_window q;
     q_qualify := q_qualify q; q_orderby := q_orderby q; q_limit := q_limit q;
     q_offset := q_offset q |}.

Definition with_select (l : list SelItem) (q : QueryData) : QueryData :=
  {| q_with := q_with q; q_select := l; q_distinct := q_distinct q;
     q_from := q_from q; q_sample := q_sample q; q_where := q_where q;
     q_groupby := q_groupby q; q_having := q_having q; q_window := q_window q;
     q_qualify := q_qualify q; q_orderby := q_orderby q; q_limit := q_limit q;
     q_offset := q_offset q |}.

Definition with_from (l : list FromItem) (q : QueryData) : QueryData :=
  {| q_with := q_with q; q_select := q_select q; q_distinct := q_distinct q;
     q_from := l; q_sample := q_sample q; q_where := q_where q;
     q_groupby := q_groupby q; q_having := q_having q; q_window := q_window q;
     q_qualify := q_qualify q; q_orderby := q_orderby q; q_limit := q_limit q;
     q_offset := q_offset q |}.

Definition with_where (l : list Val) (q : QueryData) : QueryData :=
  {| q_with := q_with q; q_select := q_select q; q_distinct := q_distinct q;
     q_from := q_from q; q_sample := q_sample q; q_where := l;
     q_groupby := q_groupby q; q_having := q_having q; q_window := q_window q;
     q_qualify := q_qualify q; q_orderby := q_orderby q; q_limit := q_limit q;
     q_offset := q_offset q |}.

Definition with_groupby (l : list Val) (q : QueryData) : QueryData :=
  {| q_with := q_with q; q_select := q_select q; q_distinct := q_distinct q;
     q_from := q_from q; q_sample := q_sample q; q_where := q_where q;
     q_groupby := l; q_having := q_having q; q_window := q_window q;
     q_qualify := q_qualify q; q_orderby := q_orderby q; q_limit := q_limit q;
     q_offset := q_offset q |}.

Definition with_orderby (l : list Val) (q : QueryData) : QueryData :=
  {| q_with := q_with q; q_select := q_select q; q_distinct := q_distinct q;
     q_from := q_from q; q_sample := q_sample q; q_where := q_where q;
     q_groupby := q_groupby q; q_having := q_having q; q_window := q_window q;
     q_qualify := q_qualify q; q_orderby := l; q_limit := q_limit q;
     q_offset := q_offset q |}.

Definition so_with_orderby (l : list Val) (s : SetOpData) : SetOpData :=
  {| so_op := so_op s; so_queries := so_queries s; so_orderby := l;
     so_limit := so_limit s; so_offset := so_offset s |}.

Definition obj_cteFor (x : Obj) : option oid :=
  match x with
  | OQuery _ c | OSetOp _ c => c
  end.

Definition set_cteFor (c : option oid) (x : Obj) : Obj :=
  match x with
  | OQuery q _ => OQuery q c
  | OSetOp s _ => OSetOp s c
  end.

(** ** Computations on the store *)

Definition HM (A : Type) : Type := Heap -> Res A * Heap.

Definition ret {A} (a : A) : HM A := fun h => (Ok a, h).
Definition throw {A} (e : Error) : HM A := fun h => (Throw e, h).
Definition lift {A} (r : Res A) : HM A := fun h => (r, h).

Definition bind {A B} (m : HM A) (k : A -> HM B) : HM B :=
  fun h =>
    match m h with
    | (Ok a, h') => k a h'
    | (Throw e, h') => (Throw e, h')
    end.

Notation "'let*' x ':=' m 'in' k" := (bind m (fun x => k))
  (at level 10, x pattern, m at level 100, k at level 200).

(** [xs.forEach(x => ...)] threading an accumulator. *)
Fixpoint hm_foldM {A B} (f : B -> A -> HM B) (acc : B) (l : list A) : HM B :=
  match l with
  | [] => ret acc
  | x :: l' => let* acc' := f acc x in hm_foldM f acc' l'
  end.

Fixpoint hm_mapM {A B} (f : A -> HM B) (l : list A) : HM (list B) :=
  match l with
  | [] => ret []
  | x :: l' => let* y := f x in let* ys := hm_mapM f l' in ret (y :: ys)
  end.

Definition get_obj (o : oid) : HM Obj :=
  fun h => match h !! o with
           | Some x => (Ok x, h)
           | None => (Throw TypeError, h)
           end.

(** [new ...]: the object gets an identity no live object has. *)
Definition alloc (x : Obj) : HM oid :=
  fun h => let o := fresh (dom h) in (Ok o, <[o := x]> h).

(** The receiver of a method that only [Query] has: on anything else the
    method is [undefined] and the call throws. *)
Definition get_query (o : oid) : HM QueryData :=
  fun h => match h !! o with
           | Some (OQuery q _) => (Ok q, h)
           | _ => (Throw TypeError, h)
           end.

Definition update_query (o : oid) (f : QueryData -> QueryData) : HM unit :=
  fun h => match h !! o with
           | Some (OQuery q c) => (Ok tt, <[o := OQuery (f q) c]> h)
           | _ => (Throw TypeError, h)
           end.

(** ** Arguments *)

(** [unquote]. *)
Definition isDoubleQuoted (s : string) : bool :=
  match s with
  | String c _ =>
      Ascii.eqb c "034"%char &&
      match last_char s with
      | Some d => Ascii.eqb d "034"%char
      | None => false
      end
  | EmptyString => false
  end.

Definition unquote (s : string) : string :=
  if isDoubleQuoted s
  then match s with
       | String _ s' => drop_last s'
       | EmptyString => EmptyString
       end
  else s.

(** One element of [expr.flat()] in [select]: null, a string, a [Ref], a
    pair [[as, expr]], or an object from aliases to expressions (in key
    order). *)
Inductive SelArg :=
| ANull
| AStr (s : string)
| ARef (table column : option string)
| APair (alias : option string) (e : Val)
| AObj (entries : list (string * Val)).

(** An argument as passed: one value, or an array of values that
    [flat()] splices in. *)
Inductive Arg (A : Type) :=
| One (a : A)
| Arr (l : list A).
Arguments One {A} a.
Arguments Arr {A} l.

Definition flat {A} (args : list (Arg A)) : list A :=
  flat_map (fun a => match a with One x => [x] | Arr l => l end) args.

Definition select_items (a : SelArg) : list SelItem :=
  match a with
  | ANull => []
  | AStr s => [ {| sel_as := Some s; sel_expr := asColumn (VStr s) |} ]
  | ARef t c => [ {| sel_as := c; sel_expr := VExpr (Ref t c) |} ]
  | APair al e => [ {| sel_as := al; sel_expr := e |} ]
  | AObj entries =>
      map (fun '(al, e) =>
             {| sel_as := Some (unquote al); sel_expr := asColumn e |}) entries
  end.

#[global] Instance option_string_eq_dec : EqDecision (option string) := _.

(** The body of the setter branch of [select]: new items replace the
    items that carry one of their aliases, and items without an
    expression are dropped (after they have displaced their alias). *)
Definition select_list (old : list SelItem) (args : list (Arg SelArg))
  : list SelItem :=
  let new := flat_map select_items (flat args) in
  let keys := map sel_as new in
  filter (fun x => sel_as x ∉ keys) old
    ++ filter (fun x => val_truthy (sel_expr x) = true) new.

(** One element of [expr.flat()] in [from]. *)
Inductive FromVal :=
| FVStr (s : string)
| FVExpr (e : Expr)
| FVQuery (o : oid).

Inductive FromArg :=
| FNull
| FVal (v : FromVal)
| FPair (alias : string) (v : FromVal)
| FObj (entries : list (string * FromVal)).

(** [asRelation] on what [from] can hold. *)
Definition from_relation (v : FromVal) : FromSrc :=
  match v with
  | FVStr s => FromExpr (Ref (Some s) None)
  | FVExpr e => FromExpr e
  | FVQuery o => FromQuery o
  end.

Definition from_items (a : FromArg) : list FromItem :=
  match a with
  | FNull => []
  | FVal (FVStr s) =>
      [ {| from_as := Some s; from_src := from_relation (FVStr s) |} ]
  | FVal (FVExpr (Ref t c)) =>
      [ {| from_as := t; from_src := FromExpr (Ref t c) |} ]
  | FVal (FVExpr e) => [ {| from_as := None; from_src := FromExpr e |} ]
  | FVal (FVQuery o) => [ {| from_as := None; from_src := FromQuery o |} ]
  | FPair al v =>
      [ {| from_as := Some (unquote al); from_src := from_relation v |} ]
  | FObj entries =>
      map (fun '(al, v) =>
             {| from_as := Some (unquote al); from_src := from_relation v |})
          entries
  end.

(** ** Methods of [Query]

    Each setter is the branch taken when the method is called with at
    least one argument; the getter is the call with none. Setters return
    [this]. *)

Definition select (o : oid) (args : list (Arg SelArg)) : HM oid :=
  let* _ := update_query o (fun q => with_select (select_list (q_select q) args) q) in
  ret o.

Definition select_get (o : oid) : HM (list SelItem) :=
  let* q := get_query o in ret (q_select q).

Definition from (o : oid) (args : list (Arg FromArg)) : HM oid :=
  let* _ := update_query o (fun q =>
              with_from (q_from q ++ flat_map from_items (flat args)) q) in
  ret o.

Definition from_get (o : oid) : HM (list FromItem) :=
  let* q := get_query o in ret (q_from q).

Definition where_ (o : oid) (args : list (Arg Val)) : HM oid :=
  let* _ := update_query o (fun q =>
              with_where (q_where q ++ filter (fun x => val_truthy x = true) (flat args)) q) in
  ret o.

Definition groupby (o : oid) (args : list (Arg Val)) : HM oid :=
  let* _ := update_query o (fun q =>
              with_groupby
                (q_groupby q
                   ++ map asColumn (filter (fun x => val_truthy x = true) (flat args))) q) in
  ret o.

(** [orderby] exists on both classes. *)
Definition orderby_add (old : list Val) (args : list (Arg Val)) : list Val :=
  old ++ map asColumn (filter (fun x => val_truthy x = true) (flat args)).

Definition orderby (o : oid) (args : list (Arg Val)) : HM oid :=
  fun h =>
    match h !! o with
    | Some (OQuery q c) =>
        (Ok o, <[o := OQuery (with_orderby (orderby_add (q_orderby q) args) q) c]> h)
    | Some (OSetOp s c) =>
        (Ok o, <[o := OSetOp (so_with_orderby (orderby_add (so_orderby s) args) s) c]> h)
    | None => (Throw TypeError, h)
    end.

Definition orderby_get (o : oid) : HM (list Val) :=
  let* x := get_obj o in
  ret (match x with
       | OQuery q _ => q_orderby q
       | OSetOp s _ => so_orderby s
       end).

(** [q.query.orderby = l]. *)
Definition orderby_assign (o : oid) (l : list Val) : HM unit :=
  fun h =>
    match h !! o with
    | Some (OQuery q c) => (Ok tt, <[o := OQuery (with_orderby l q) c]> h)
    | Some (OSetOp s c) => (Ok tt, <[o := OSetOp (so_with_orderby l s) c]> h)
    | None => (Throw TypeError, h)
    end.

(** [clone]. A query is copied field by field into a new object, which
    has no [cteFor]. The constructor of [SetOperation] clones every
    member, so cloning a set operation recurs through its members; the
    recursion is bounded by the call stack. *)
Fixpoint clone_fuel (fuel : nat) (o : oid) : HM oid :=
  match fuel with
  | O => throw RangeError
  | S fuel' =>
      let* x := get_obj o in
      match x with
      | OQuery q _ => alloc (OQuery q None)
      | OSetOp s _ =>
          let* members := hm_mapM (clone_fuel fuel') (so_queries s) in
          alloc (OSetOp {| so_op := so_op s; so_queries := members;
                           so_orderby := so_orderby s; so_limit := so_limit s;
                           so_offset := so_offset s |} None)
      end
  end.

Definition clone (o : oid) : HM oid :=
  fun h => clone_fuel (S (size h)) o h.


(** [with], called with arguments. A value of a property of an argument:
    a query, or a string (the [as] of an entry of a WITH list). *)
Inductive WithVal :=
| WQuery (q : oid)
| WStr (s : string).

(** One element of [expr.flat()] in [with]: null, or an object, given by
    its own properties in the order [for ... in] yields them. *)
Inductive WithArg :=
| WNull
| WObj (props : list (string * WithVal)).

(** [e.as] and [e.query]: a property read. *)
Definition with_prop (k : string) (props : list (string * WithVal)) : option WithVal :=
  snd <$> find (fun p => String.eqb (fst p) k) props.

Definition with_truthy (v : WithVal) : bool :=
  match v with
  | WQuery _ => true
  | WStr s => negb (String.eqb s "")
  end.

(** The calls [add(as, q)] that the loop makes for one argument: one
    call for an object with a truthy [as] and a truthy [query], one call
    per property for any other object. *)
Definition with_calls (e : WithArg) : list (WithVal * WithVal) :=
  match e with
  | WNull => []
  | WObj props =>
      let each := map (fun '(k, v) => (WStr k, v)) props in
      match with_prop "as" props, with_prop "query" props with
      | Some a, Some q => if with_truthy a && with_truthy q then [(a, q)] else each
      | _, _ => each
      end
  end.

(** The names of the WITH lists of this model are strings. A call of
    [add] whose [as] is a query would store that object as the name, to be
    printed whenever the name is used: such arguments are outside the
    model, and [with_names] answers [None] for them. *)
Definition with_names (calls : list (WithVal * WithVal)) : option (list (string * WithVal)) :=
  mapM (fun '(a, q) => match a with
                       | WStr s => Some (s, q)
                       | WQuery _ => None
                       end) calls.

(** [add(as, q)]: the clone of [q], marked with the query it belongs to.
    A string has no [clone] method. *)
Definition with_add (this : oid) (q : WithVal) : HM oid :=
  match q with
  | WStr _ => throw TypeError
  | WQuery q =>
      let* c := clone q in
      let* x := get_obj c in
      let* _ := (fun h => (Ok tt, <[c := set_cteFor (Some this) x]> h)) in
      ret c
  end.

(** The setter once the calls of [add] are known: the receiver must be
    a query, the calls are made in order, and the new entries go to the
    end of the WITH list. *)
Definition with_entries (o : oid) (named : list (string * WithVal)) : HM oid :=
  let* _ := get_query o in
  let* list := hm_mapM (fun '(al, q) => let* c := with_add o q in ret (al, c)) named in
  let* _ := update_query o (fun q => with_with (q_with q ++ list) q) in
  ret o.


(** [Query.select(...)] and [Query.from(...)]. *)
Definition static_select (args : list (Arg SelArg)) : HM oid :=
  let* o := alloc (OQuery empty_query None) in select o args.

Definition static_from (args : list (Arg FromArg)) : HM oid :=
  let* o := alloc (OQuery empty_query None) in from o args.

(** ** The other methods of [Query] and [SetOperation] *)

Definition with_distinct (b : bool) (q : QueryData) : QueryData :=
  {| q_with := q_with q; q_select := q_select q; q_distinct := b;
     q_from := q_from q; q_sample := q_sample q; q_where := q_where q;
     q_groupby := q_groupby q; q_having := q_having q; q_window := q_window q;
     q_qualify := q_qualify q; q_orderby := q_orderby q; q_limit := q_limit q;
     q_offset := q_offset q |}.

Definition with_having (l : list Val) (q : QueryData) : QueryData :=
  {| q_with := q_with q; q_select := q_select q; q_distinct := q_distinct q;
     q_from := q_from q; q_sample := q_sample q; q_where := q_where q;
     q_groupby := q_groupby q; q_having := l; q_window := q_window q;
     q_qualify := q_qualify q; q_orderby := q_orderby q; q_limit := q_limit q;
     q_offset := q_offset q |}.

Definition with_window (l : list (string * Val)) (q : QueryData) : QueryData :=
  {| q_with := q_with q; q_select := q_select q; q_distinct := q_distinct q;
     q_from := q_from q; q_sample := q_sample q; q_where := q_where q;
     q_groupby := q_groupby q; q_having := q_having q; q_window := l;
     q_qualify := q_qualify q; q_orderby := q_orderby q; q_limit := q_limit q;
     q_offset := q_offset q |}.

Definition with_qualify (l : list Val) (q : QueryData) : QueryData :=
  {| q_with := q_with q; q_select := q_select q; q_distinct := q_distinct q;
     q_from := q_from q; q_sample := q_sample q; q_where := q_where q;
     q_groupby := q_groupby q; q_having := q_having q; q_window := q_window q;
     q_qualify := l; q_orderby := q_orderby q; q_limit := q_limit q;
     q_offset := q_offset q |}.

Definition with_limit (x : option float) (q : QueryData) : QueryData :=
  {| q_with := q_with q; q_select := q_select q; q_distinct := q_distinct q;
     q_from := q_from q; q_sample := q_sample q; q_where := q_where q;
     q_groupby := q_groupby q; q_having := q_having q; q_window := q_window q;
     q_qualify := q_qualify q; q_orderby := q_orderby q; q_limit := x;
     q_offset := q_offset q |}.

Definition with_offset (x : option float) (q : QueryData) : QueryData :=
  {| q_with := q_with q; q_select := q_select q; q_distinct := q_distinct q;
     q_from := q_from q; q_sample := q_sample q; q_where := q_where q;
     q_groupby := q_groupby q; q_having := q_having q; q_window := q_window q;
     q_qualify := q_qualify q; q_orderby := q_orderby q; q_limit := q_limit q;
     q_offset := x |}.

(** [having] and [qualify] keep the truthy arguments as they are. *)
Definition having (o : oid) (args : list (Arg Val)) : HM oid :=
  let* _ := update_query o (fun q =>
              with_having (q_having q ++ filter (fun x => val_truthy x = true) (flat args)) q) in
  ret o.

Definition qualify (o : oid) (args : list (Arg Val)) : HM oid :=
  let* _ := update_query o (fun q =>
              with_qualify (q_qualify q ++ filter (fun x => val_truthy x = true) (flat args)) q) in
  ret o.

(** [window]: every argument is null or an object from names to window
    definitions. *)
Definition window (o : oid) (args : list (Arg (option (list (string * Val))))) : HM oid :=
  let* _ := update_query o (fun q =>
              with_window
                (q_window q
                   ++ flat_map (fun e => match e with
                                         | None => []
                                         | Some entries =>
                                             map (fun '(al, d) => (unquote al, d)) entries
                                         end) (flat args)) q) in
  ret o.

(** [distinct(value = true)]: a missing or undefined argument takes the
    default. *)
Definition distinct (o : oid) (value : JsVal) : HM oid :=
  let* _ := update_query o (with_distinct match value with
                                          | JUndefined => true
                                          | _ => truthy value
                                          end) in
  ret o.

(** [Number.isFinite(value) ? value : undefined]. *)
Definition finite_number (value : JsVal) : option float :=
  match value with
  | JNum x => if negb (is_nan x || is_infinity x) then Some x else None
  | _ => None
  end.

(** [limit] and [offset] called with an argument; both classes have
    them. *)
Definition limit (o : oid) (value : JsVal) : HM oid :=
  fun h =>
    match h !! o with
    | Some (OQuery q c) => (Ok o, <[o := OQuery (with_limit (finite_number value) q) c]> h)
    | Some (OSetOp s c) =>
        (Ok o, <[o := OSetOp {| so_op := so_op s; so_queries := so_queries s;
                                so_orderby := so_orderby s;
                                so_limit := finite_number value;
                                so_offset := so_offset s |} c]> h)
    | None => (Throw TypeError, h)
    end.

Definition offset (o : oid) (value : JsVal) : HM oid :=
  fun h =>
    match h !! o with
    | Some (OQuery q c) => (Ok o, <[o := OQuery (with_offset (finite_number value) q) c]> h)
    | Some (OSetOp s c) =>
        (Ok o, <[o := OSetOp {| so_op := so_op s; so_queries := so_queries s;
                                so_orderby := so_orderby s; so_limit := so_limit s;
                                so_offset := finite_number value |} c]> h)
    | None => (Throw TypeError, h)
    end.

(** What a method that is getter and setter in one returns: [this] when
    called with arguments, the current list when called with none. *)
Inductive Ret (A : Type) :=
| This (o : oid)
| Got (a : A).
Arguments This {A} o.
Arguments Got {A} a.

(** A call with the arguments as passed. *)
Definition call {A B} (getter : QueryData -> B) (setter : oid -> list (Arg A) -> HM oid)
    (o : oid) (args : list (Arg A)) : HM (Ret B) :=
  match args with
  | [] => let* q := get_query o in ret (Got (getter q))
  | _ :: _ => let* r := setter o args in ret (This r)
  end.

(** [$select], [$from], [$where] and [$groupby]: the list is emptied
    before the call is passed on. *)
Definition reset_select (o : oid) (args : list (Arg SelArg)) : HM (Ret (list SelItem)) :=
  let* _ := update_query o (with_select []) in call q_select select o args.

Definition reset_from (o : oid) (args : list (Arg FromArg)) : HM (Ret (list FromItem)) :=
  let* _ := update_query o (with_from []) in call q_from from o args.

Definition reset_where (o : oid) (args : list (Arg Val)) : HM (Ret (list Val)) :=
  let* _ := update_query o (with_where []) in call q_where where_ o args.

Definition reset_groupby (o : oid) (args : list (Arg Val)) : HM (Ret (list Val)) :=
  let* _ := update_query o (with_groupby []) in call q_groupby groupby o args.

(** The constructor of [SetOperation]: it keeps clones of the queries it
    is given. *)
Definition new_SetOperation (op : string) (queries : list oid) : HM oid :=
  let* members := hm_mapM clone queries in
  alloc (OSetOp {| so_op := op; so_queries := members; so_orderby := [];
                   so_limit := None; so_offset := None |} None).

(** [Query.union], [Query.unionAll], [Query.intersect], [Query.except]
    and [Query.with]. *)
Definition static_union (queries : list (Arg oid)) : HM oid :=
  new_SetOperation "UNION" (flat queries).

Definition static_unionAll (queries : list (Arg oid)) : HM oid :=
  new_SetOperation "UNION ALL" (flat queries).

Definition static_intersect (queries : list (Arg oid)) : HM oid :=
  new_SetOperation "INTERSECT" (flat queries).

Definition static_except (queries : list (Arg oid)) : HM oid :=
  new_SetOperation "EXCEPT" (flat queries).

Definition static_with (args : list (Arg WithArg)) : option (HM oid) :=
  (fun named => let* o := alloc (OQuery empty_query None) in with_entries o named)
    <$> with_names (flat_map with_calls (flat args)).

(** ** The [subqueries] getter *)

(** An element of the array the getter returns: a query object or, when
    the table name of a FROM entry is the name of a member that the
    lookup object inherits, that member. *)
Inductive SubVal :=
| SubObj (o : oid)
| SubInherited (name : string).

(** [ctes.reduce((o, {as, query}) => (o[as] = query, o), {})] followed by
    [cte[k]]: the last entry named [k] wins; a name that is not an own
    property is looked up in [Object.prototype]. An entry named
    [__proto__] is no own property (the assignment sets the prototype, a
    case this model does not follow further). *)
Definition cte_lookup (ctes : list (string * oid)) (k : string) : option SubVal :=
  match
    find (fun '(al, _) => String.eqb al k && negb (String.eqb al "__proto__"))
         (rev ctes)
  with
  | Some (_, q) => Some (SubObj q)
  | None => if inherited k then Some (SubInherited k) else None
  end.

(** The WITH table a query resolves names against: that of the query it
    is a common table expression for, else its own. A set operation has
    no WITH list: [ctes] is then [undefined]. *)
Definition cte_scope (h : Heap) (q : QueryData) (cteFor : option oid)
  : Res (option (list (string * oid))) :=
  match cteFor with
  | None => Ok (Some (q_with q))
  | Some p =>
      match h !! p with
      | Some (OQuery pq _) => Ok (Some (q_with pq))
      | Some (OSetOp _ _) => Ok None
      | None => Throw TypeError
      end
  end.

Definition from_subquery (ctes : option (list (string * oid))) (f : FromItem)
  : Res (list SubVal) :=
  match from_src f with
  | FromQuery o => Ok [SubObj o]
  | FromExpr e =>
      match ctes with
      | None => Throw TypeError
      | Some t =>
          Ok (match cte_lookup t (table_key e) with
              | Some s => [s]
              | None => []
              end)
      end
  end.

(** The array the getter returns in store [h], without its side effect. *)
Definition subqueries_of (h : Heap) (o : oid) : Res (list SubVal) :=
  match h !! o with
  | Some (OQuery q c) =>
      res_bind (cte_scope h q c) (fun ctes =>
      res_map (@concat _) (res_mapM (from_subquery ctes) (q_from q)))
  | Some (OSetOp s _) => Ok (map SubObj (so_queries s))
  | None => Throw TypeError
  end.

(** The side effect of the getter of [SetOperation]: a set operation that
    is a common table expression hands its owner down to its members. *)
Definition propagate_cteFor (h : Heap) (o : oid) : Heap :=
  match h !! o with
  | Some (OSetOp s (Some p)) =>
      fold_left (fun h' m => alter (set_cteFor (Some p)) m h') (so_queries s) h
  | _ => h
  end.

Definition subqueries (o : oid) : HM (list SubVal) :=
  fun h => (subqueries_of h o, propagate_cteFor h o).

(** ** [toString] *)

Section ToString.
Context `{!SqlLib}.

Definition is_finite (x : float) : bool := negb (is_nan x || is_infinity x).

Definition opt_text (o : option string) : string :=
  match o with
  | Some s => s
  | None => "undefined"
  end.

Definition quoted (s : string) : string := dquote +:+ s +:+ dquote.

(** [!expr.table]. *)
Definition no_table (v : Val) : bool :=
  match v with
  | VExpr (Ref (Some t) _) => String.eqb t ""
  | _ => true
  end.

Definition select_text (it : SelItem) : string :=
  if isColumnRefFor (sel_expr it) (sel_as it) && no_table (sel_expr it)
  then val_toString (sel_expr it)
  else val_toString (sel_expr it) +:+ " AS " +:+ quoted (opt_text (sel_as it)).

(** [!as || as === from.table]. *)
Definition alias_redundant (al : option string) (src : FromSrc) : bool :=
  match al with
  | None => true
  | Some a =>
      String.eqb a "" ||
      match src with
      | FromExpr (Ref (Some t) _) => String.eqb a t
      | _ => false
      end
  end.

Definition sample_text (sm : Sample) : string :=
  let size :=
    match s_rows sm with
    | Some r =>
        if negb (is_zero r || is_nan r)
        then number_toString number_other r +:+ " ROWS"
        else opt_text (number_toString number_other <$> s_perc sm) +:+ " PERCENT"
    | None => opt_text (number_toString number_other <$> s_perc sm) +:+ " PERCENT"
    end in
  let how :=
    match s_method sm with
    | Some m =>
        if String.eqb m "" then ""
        else " (" +:+ m +:+
             match s_seed sm with
             | Some sd => ", " +:+ number_toString number_other sd
             | None => ""
             end +:+ ")"
    | None => ""
    end in
  "USING SAMPLE " +:+ size +:+ how.

(** A clause made of terms joined by AND: empty terms are dropped, and the
    clause is left out when nothing remains. *)
Definition and_clause (kw : string) (terms : list Val) : list string :=
  match terms with
  | [] => []
  | _ =>
      let clauses :=
        join " AND " (filter (fun x => negb (String.eqb x "") = true)
                             (map val_toString terms)) in
      if String.eqb clauses "" then [] else [kw +:+ " " +:+ clauses]
  end.

Definition list_clause (kw : string) (items : list string) : list string :=
  match items with
  | [] => []
  | _ => [kw +:+ " " +:+ join ", " items]
  end.

Definition number_clause (kw : string) (x : option float) : list string :=
  match x with
  | Some v => if is_finite v then [kw +:+ " " +:+ number_toString number_other v] else []
  | None => []
  end.

(** The text of a query whose nested queries print as [sub] says. *)
Definition query_text (sub : oid -> Res string) (q : QueryData) : Res string :=
  res_bind (res_mapM (fun '(al, c) =>
              res_map (fun t => quoted al +:+ " AS (" +:+ t +:+ ")") (sub c))
              (q_with q)) (fun ctes =>
  res_bind (res_mapM (fun f =>
              res_map (fun rel =>
                         if alias_redundant (from_as f) (from_src f) then rel
                         else rel +:+ " AS " +:+ quoted (opt_text (from_as f)))
                      match from_src f with
                      | FromQuery c => res_map (fun t => "(" +:+ t +:+ ")") (sub c)
                      | FromExpr e => Ok (expr_toString e)
                      end)
              (q_from q)) (fun rels =>
  Ok (join " "
        (list_clause "WITH" ctes
         ++ ["SELECT" +:+ (if q_distinct q then " DISTINCT" else "") +:+ " "
               +:+ join ", " (map select_text (q_select q))]
         ++ list_clause "FROM" rels
         ++ and_clause "WHERE" (q_where q)
         ++ match q_sample q with Some sm => [sample_text sm] | None => [] end
         ++ list_clause "GROUP BY" (map val_toString (q_groupby q))
         ++ and_clause "HAVING" (q_having q)
         ++ list_clause "WINDOW"
              (map (fun '(al, e) => quoted al +:+ " AS (" +:+ val_toString e +:+ ")")
                   (q_window q))
         ++ and_clause "QUALIFY" (q_qualify q)
         ++ list_clause "ORDER BY" (map val_toString (q_orderby q))
         ++ number_clause "LIMIT" (q_limit q)
         ++ number_clause "OFFSET" (q_offset q))))).

Definition setop_text (sub : oid -> Res string) (s : SetOpData) : Res string :=
  res_bind (res_mapM sub (so_queries s)) (fun qs =>
  Ok (join " "
        ([join (" " +:+ so_op s +:+ " ") qs]
         ++ list_clause "ORDER BY" (map val_toString (so_orderby s))
         ++ number_clause "LIMIT" (so_limit s)
         ++ number_clause "OFFSET" (so_offset s)))).

(** Printing recurs into the nested queries. A query nested in itself
    never finishes printing: the call stack runs out. *)
Fixpoint toString_fuel (fuel : nat) (h : Heap) (o : oid) : Res string :=
  match fuel with
  | O => Throw RangeError
  | S fuel' =>
      match h !! o with
      | Some (OQuery q _) => query_text (toString_fuel fuel' h) q
      | Some (OSetOp s _) => setop_text (toString_fuel fuel' h) s
      | None => Throw TypeError
      end
  end.

Definition toString (o : oid) : HM string :=
  fun h => (toString_fuel (S (size h)) h o, h).

(** The text [limit] and [offset] add at the end of a query. *)
Definition tail_text (kw : string) (v : JsVal) : string :=
  match finite_number v with
  | Some x => " " +:+ kw +:+ " " +:+ number_toString number_other x
  | None => ""
  end.

End ToString.

End Query.
Export Query.


(* ===================================================================== *)
(** * The bin synthesizer and the active-clause analyzer *)
(* ===================================================================== *)

Module Analyzer.

(** A scale as a clause describes it, and what [scaleTransform] makes of
    it: [st_apply] is missing for a scale type without a transform. *)
Record Scale := {
  scale_type : string;
  scale_domain : option (list float);
  scale_range : option (list float)
}.

Record ScaleTransform := {
  st_type : string;
  st_domain : option (list float);
  st_range : option (list float);
  st_apply : option (float -> float);
  st_sqlApply : Val -> Val
}.

(** [scaleTransform] is not under src/: it is a capability of the
    environment. *)
Class Scales := { scaleTransform : Scale -> ScaleTransform }.

(** The SQL function a bin mode selects: a name, or whatever member of
    [Object.prototype] the lookup in [BIN] ran into. *)
Inductive BinFn :=
| FnName (name : string)
| FnInherited (member : string).

(** [BIN[k]] for [const BIN = { ceil: 'CEIL', round: 'ROUND' }]. *)
Definition BIN (k : string) : option BinFn :=
  if String.eqb k "ceil" then Some (FnName "CEIL")
  else if String.eqb k "round" then Some (FnName "ROUND")
  else if inherited k then Some (FnInherited k)
  else None.

(** [BIN[`${bin}`.toLowerCase()] || 'FLOOR']. A missing bin mode prints as
    [undefined]. *)
Definition bin_fn (bin : option string) : BinFn :=
  match BIN (toLowerCase (match bin with Some b => b | None => "undefined" end)) with
  | Some f => f
  | None => FnName "FLOOR"
  end.

(** [...xs] and [xs[i]] on a value that may be missing. *)
Definition present {A} (x : option A) : Res A :=
  match x with
  | Some a => Ok a
  | None => Throw TypeError
  end.

Section Bins.
Context `{!SqlLib} `{!Scales}.

Definition bin_fn_text (f : BinFn) : string :=
  match f with
  | FnName n => n
  | FnInherited k => member_text k
  end.

Definition binInterval (scale : Scale) (pixelSize : float) (bin : option string)
  : Res (option (Val -> Expr)) :=
  let t := scaleTransform scale in
  match st_apply t with
  | None => Ok None
  | Some apply =>
      let fn := bin_fn bin in
      res_bind (present (st_domain t)) (fun domain =>
      let lo := apply (math_min domain) in
      let hi := apply (math_max domain) in
      res_bind
        (if String.eqb (st_type t) "identity" then Ok 1%float
         else res_map (fun range =>
                         (abs (nth 1 range nan - nth 0 range nan) / (hi - lo))%float)
                      (present (st_range t))) (fun a =>
      let s := if (a / pixelSize =? 1)%float then ""
               else number_toString number_other (a / pixelSize)%float +:+ "::DOUBLE * " in
      let d := if (lo =? 0)%float then ""
               else " - " +:+ number_toString number_other lo +:+ "::DOUBLE" in
      Ok (Some (fun value =>
                  sql_tag [ VStr (bin_fn_text fn); VStr "("; VStr s; VStr "(";
                            st_sqlApply t value; VStr d; VStr "))::INTEGER" ]))))
  end.

(** ** Clauses *)

(** The predicate of a clause: an expression with the columns it refers
    to, the field it filters and, for an interval, its range; a
    multi-interval predicate has one child per interval. *)
#[warnings="-register-all"]
Inductive ClausePred :=
| MkPred (expr : Expr) (columns : option (list string)) (field : Val)
         (range : option (list Val)) (children : option (list ClausePred)).

Definition cp_expr (p : ClausePred) := let 'MkPred e _ _ _ _ := p in e.
Definition cp_columns (p : ClausePred) := let 'MkPred _ c _ _ _ := p in c.
Definition cp_field (p : ClausePred) := let 'MkPred _ _ f _ _ := p in f.
Definition cp_range (p : ClausePred) := let 'MkPred _ _ _ r _ := p in r.
Definition cp_children (p : ClausePred) := let 'MkPred _ _ _ _ c := p in c.

Record Meta := {
  m_type : string;
  m_scales : option (list Scale);
  m_bin : option string;
  m_pixelSize : option float
}.

Record Clause := {
  cl_source : JsVal;
  cl_meta : option Meta;
  cl_predicate : option ClausePred
}.

(** The active columns: the clause source (null when the clause is not
    indexable), the column definitions in key order, and the predicate
    generator. *)
Record Active := {
  a_source : JsVal;
  a_columns : option (list (string * Val));
  a_predicate : option (option ClausePred -> Res (Arg Val))
}.

(** [o[k] = v] on an object seen as its entries in key order. (Keys that
    are array indices would be ordered first by JavaScript; the model
    keeps insertion order.) *)
Fixpoint obj_set {A} (k : string) (v : A) (o : list (string * A)) : list (string * A) :=
  match o with
  | [] => [(k, v)]
  | (k', v') :: o' => if String.eqb k' k then (k, v) :: o' else (k', v') :: obj_set k v o'
  end.

(** [Object.fromEntries] and [{ ...a, ...b }]. *)
Definition fromEntries {A} (es : list (string * A)) : list (string * A) :=
  fold_left (fun o '(k, v) => obj_set k v o) es [].

Definition spread {A} (a b : list (string * A)) : list (string * A) :=
  fold_left (fun o '(k, v) => obj_set k v o) b (fromEntries a).

Definition active_name (i : nat) : string :=
  "active" +:+ integer_toString 10 (Z.of_nat i).

(** [bins[i](v)]: calling a missing bin function throws. *)
Definition call_bin (bins : list (Val -> Expr)) (i : nat) (v : Val) : Res Expr :=
  res_map (fun b => b v) (present (bins !! i)).

(** [isBetween(`active${i}`, range.map(bins[i]))]: [map] throws on a
    missing range and on a missing bin function. *)
Definition bin_between (bins : list (Val -> Expr)) (i : nat) (range : option (list Val))
  : Res Expr :=
  res_bind (present range) (fun r =>
  res_bind (present (bins !! i)) (fun b =>
  Ok (isBetween (active_name i) (map b r)))).

Fixpoint all_some {A} (l : list (option A)) : option (list A) :=
  match l with
  | [] => Some []
  | Some x :: l' => cons x <$> all_some l'
  | None :: _ => None
  end.

Definition activeColumns (clause : Clause) : Res Active :=
  let source := cl_source clause in
  let unindexable := {| a_source := JNull; a_columns := None; a_predicate := None |} in
  match cl_meta clause, cl_predicate clause ≫= cp_columns with
  | Some meta, Some clauseCols =>
      let pixelSize := default 1%float (m_pixelSize meta) in
      if String.eqb (m_type meta) "point" then
        Ok {| a_source := source;
              a_columns := Some (fromEntries
                                   (map (fun col => (col, asColumn (VStr col))) clauseCols));
              a_predicate := Some (fun x =>
                Ok (One (match x with
                         | Some p => VExpr (cp_expr p)
                         | None => VUndefined
                         end))) |}
      else
        match (if String.eqb (m_type meta) "interval" then m_scales meta else None) with
        | Some scales =>
            res_bind (res_mapM (fun sc => binInterval sc pixelSize (m_bin meta)) scales)
            (fun bins =>
            match all_some bins with
            | None => Ok unindexable
            | Some [bin0] =>
                Ok {| a_source := source;
                      a_columns := Some [("active0",
                                          VExpr (bin0 (match cl_predicate clause with
                                                       | Some p => cp_field p
                                                       | None => VUndefined
                                                       end)))];
                      a_predicate := Some (fun x =>
                        match x with
                        | Some p => res_map (fun e => One (VExpr e))
                                            (bin_between [bin0] 0 (cp_range p))
                        | None => Ok (Arr [])
                        end) |}
            | Some fs =>
                res_bind (present (cl_predicate clause ≫= cp_children)) (fun children =>
                res_bind (res_mapM (fun '(i, p) =>
                            res_map (fun e => (active_name i, VExpr e))
                                    (call_bin fs i (cp_field p)))
                            (imap pair children)) (fun entries =>
                Ok {| a_source := source;
                      a_columns := Some (fromEntries entries);
                      a_predicate := Some (fun x =>
                        match x with
                        | Some p =>
                            res_bind (present (cp_children p)) (fun cs =>
                            res_map (fun es => One (VExpr (sql_and es)))
                                    (res_mapM (fun '(i, c) => bin_between fs i (cp_range c))
                                              (imap pair cs)))
                        | None => Ok (Arr [])
                        end) |}))
            end)
        | None => Ok unindexable
        end
  | _, _ => Ok unindexable
  end.

End Bins.

(** ** Casings of a bin mode *)

(** [s'] is [s] in some casing: letter by letter, the character of [s] or
    its upper-case form. *)
Inductive casing : string -> string -> Prop :=
| casing_nil : casing "" ""
| casing_same c s s' : casing s s' -> casing (String c s) (String c s')
| casing_upper c s s' :
    (97 <= nat_of_ascii c <= 122)%nat ->
    casing s s' -> casing (String c s) (String (ascii_of_nat (nat_of_ascii c - 32)) s').

Definition lowercase_word (s : string) : Prop :=
  Forall (fun c => (97 <= nat_of_ascii c <= 122)%nat) (list_ascii_of_string s).

End Analyzer.
Export Analyzer.


(* ===================================================================== *)
(** * The cube planner and the subquery push-down *)
(* ===================================================================== *)

Module Planner.

(** What [indexColumns] reports for an indexable client. *)
Record IndexCols := {
  dims : list string;
  aggr : list SelArg;
  aux : list (string * Val)
}.

(** The object literal the planner hands to the constructor of
    [DataCubeInfo]. *)
Record Plan := {
  p_id : string;
  p_table : string;
  p_create : string;
  p_active : Active;
  p_select : oid
}.

(** A [DataCubeInfo]. The constructor reads [table], [create], [active] and
    [select] from its argument; [result] starts as null and holds, once the
    indexer has submitted the table, the handle of that execution. *)
Record DataCubeInfo := {
  ci_table : string;
  ci_create : string;
  ci_result : option nat;
  ci_active : Active;
  ci_select : oid;
  ci_skip : bool
}.

Definition new_DataCubeInfo (p : Plan) : DataCubeInfo :=
  {| ci_table := p_table p; ci_create := p_create p; ci_result := None;
     ci_active := p_active p; ci_select := p_select p; ci_skip := false |}.

(** [fnv_hash] of [util/hash.js] is not under src/: it is taken as given,
    with an integer result. *)
Class Hash := { fnv_hash : string -> Z }.

(** ** [subqueryPushdown] *)

(** The recursive helper [pushdown] with its [memo] set. Every call that
    goes one level down visits an object that was not in [memo], so the
    depth never exceeds the number of objects: [fuel] stands for the call
    stack. A member of [Object.prototype] has neither [select] nor
    [subqueries]: iterating its subqueries throws. *)
Fixpoint pushdown (fuel : nat) (cols : list SelArg) (memo : gset oid) (q : SubVal)
  : HM (gset oid) :=
  match fuel with
  | O => throw RangeError
  | S fuel' =>
      match q with
      | SubInherited _ => throw TypeError
      | SubObj o =>
          if decide (o ∈ memo) then ret memo
          else
            let memo' := {[o]} ∪ memo in
            let* x := get_obj o in
            let* _ :=
              match x with
              | OQuery qd _ =>
                  match q_from qd with
                  | [] => ret o
                  | _ :: _ => select o [Arr cols]
                  end
              | OSetOp _ _ => ret o
              end in
            let* subs := subqueries o in
            hm_foldM (pushdown fuel' cols) memo' subs
      end
  end.

Definition subqueryPushdown (query : SubVal) (cols : list SelArg) : HM unit :=
  fun h =>
    match pushdown (S (size h)) cols ∅ query h with
    | (Ok _, h') => (Ok tt, h')
    | (Throw e, h') => (Throw e, h')
    end.

(** [Object.values(columns).flatMap(c => c.columns)]: a value without
    columns contributes [undefined], which [select] skips. *)
Definition base_columns (columns : list (string * Val)) : list SelArg :=
  flat_map (fun '(_, c) =>
              match c with
              | VExpr e => map AStr (expr_columns e)
              | _ => [ANull]
              end) columns.

Section Plans.
Context `{!SqlLib} `{!Hash}.

(** The identifier of a cube: the hash of its creation query, as an
    unsigned 32-bit integer in hexadecimal. *)
Definition cube_id (create_text : string) : string :=
  integer_toString 16 (to_uint32 (fnv_hash create_text)).

Definition cube_table (schema id : string) : string :=
  schema +:+ ".cube_" +:+ id.

(** The body of [dataCubeInfo] up to the object literal. *)
Definition cubePlan (clientQuery : oid) (active : Active) (indexCols : IndexCols)
    (schema : string) : HM Plan :=
  let columns := a_columns active in
  (* build index table construction query *)
  let* query := select clientQuery [One (AObj (spread (default [] columns) (aux indexCols)))] in
  let* keys := lift (present (map fst <$> columns)) in
  let* query := groupby query [Arr (map VStr keys)] in
  (* ensure active clause columns are selected by subqueries *)
  let* subs := subqueries query in
  let* _ :=
    match subs with
    | subq :: _ => subqueryPushdown subq (base_columns (default [] columns))
    | [] => ret tt
    end in
  (* push orderby criteria to later cube queries *)
  let* order := orderby_get query in
  let* _ := orderby_assign query [] in
  (* generate creation query string and hash id *)
  let* create_text := toString query in
  let id := cube_id create_text in
  let table := cube_table schema id in
  (* generate data cube select query *)
  let* sel := static_select [Arr (map AStr (dims indexCols)); Arr (aggr indexCols)] in
  let* sel := from sel [One (FVal (FVStr table))] in
  let* sel := groupby sel [Arr (map VStr (dims indexCols))] in
  let* sel := orderby sel [Arr order] in
  ret {| p_id := id; p_table := table; p_create := create_text;
         p_active := active; p_select := sel |}.

Definition dataCubeInfo (clientQuery : oid) (active : Active) (indexCols : IndexCols)
    (schema : string) : HM DataCubeInfo :=
  let* p := cubePlan clientQuery active indexCols schema in
  ret (new_DataCubeInfo p).

(** [DataCubeInfo.query]: the receiver of [where] is evaluated before its
    argument. *)
Definition cube_query (info : DataCubeInfo) (predicate : option ClausePred) : HM oid :=
  let* c := clone (ci_select info) in
  let* gen := lift (present (a_predicate (ci_active info))) in
  let* arg := lift (gen predicate) in
  where_ c [arg].

End Plans.

(** ** The subquery graph *)

(** [c] is one of the subqueries of [o]: the getter yields it. *)
Definition child (h : Heap) (o c : oid) : Prop :=
  exists l, subqueries_of h o = Ok l /\ SubObj c ∈ l.

(** The subqueries of a query, their subqueries, and so on. *)
Inductive reachable (h : Heap) : oid -> oid -> Prop :=
| reach_here o : reachable h o o
| reach_step o c d : child h o c -> reachable h c d -> reachable h o d.

(** The item [select] makes of the column name [col]. *)
Definition column_item (col : string) : SelItem :=
  {| sel_as := Some col; sel_expr := VExpr (Ref None (Some col)) |}.

(** Object [o] selects the base column [col]. *)
Definition selects (h : Heap) (o : oid) (col : string) : Prop :=
  exists q c, h !! o = Some (OQuery q c) /\ column_item col ∈ q_select q.

(** The columns were pushed down to [o]: if [o] is a query with a
    non-empty FROM list, it selects every one of them. *)
Definition pushed (cols : list SelArg) (h : Heap) (o : oid) : Prop :=
  forall q c, h !! o = Some (OQuery q c) -> q_from q <> [] ->
    forall col, AStr col ∈ cols -> selects h o col.

(** Every set operation that is a common table expression has handed its
    owner down to its members already, so that the getter of
    [SetOperation] changes nothing any more. *)
Definition settled_obj (h : Heap) (x : Obj) : Prop :=
  match x with
  | OSetOp s (Some p) =>
      Forall (fun m => forall y, h !! m = Some y -> obj_cteFor y = Some p) (so_queries s)
  | _ => True
  end.

Definition settled (h : Heap) : Prop :=
  forall o x, h !! o = Some x -> settled_obj h x.

(** What the push-down and the planner leave alone in an object:
    everything but the SELECT, GROUP BY and ORDER BY lists. *)
Definition skeleton (x : Obj) : Obj :=
  match x with
  | OQuery q c => OQuery (with_select [] (with_groupby [] (with_orderby [] q))) c
  | OSetOp s c => OSetOp (so_with_orderby [] s) c
  end.

Definition same_skeleton (h h' : Heap) : Prop :=
  forall o, skeleton <$> (h !! o) = skeleton <$> (h' !! o).

(** What a traversal that started with the set [memo] of visited objects
    and ended with [memo'] has done: it changed only the objects it
    visited, and these only in what [skeleton] leaves out; every object
    it visited has the columns pushed down and all its subqueries
    visited. *)
Definition visited (cols : list SelArg) (h : Heap) (memo memo' : gset oid) (h' : Heap)
  : Prop :=
  same_skeleton h h'
  /\ memo ⊆ memo'
  /\ (forall x, x ∈ memo' -> x ∉ memo ->
        is_Some (h !! x) /\ pushed cols h' x /\ forall c, child h x c -> c ∈ memo')
  /\ (forall x, x ∈ memo \/ x ∉ memo' -> h' !! x = h !! x).

(** ** What the push-down keeps *)

(** What the push-down keeps of an object [x] in the object [x'] it has
    become: everything but the [cteFor] link and the SELECT list of a
    query, and of the SELECT list every item whose alias is not among
    [keys], the aliases of the columns pushed down. *)
Definition kept (keys : list (option string)) (x x' : Obj) : Prop :=
  match x, x' with
  | OQuery q _, OQuery q' _ =>
      with_select [] q = with_select [] q'
      /\ forall it, it ∈ q_select q -> sel_as it ∉ keys -> it ∈ q_select q'
  | OSetOp s _, OSetOp s' _ => s = s'
  | _, _ => False
  end.

Definition all_kept (keys : list (option string)) (h h' : Heap) : Prop :=
  forall o, match h !! o, h' !! o with
            | Some x, Some x' => kept keys x x'
            | None, None => True
            | _, _ => False
            end.

(** Every subquery that the getter yields for an object of the store is
    an object of the store. *)
Definition closed (h : Heap) : Prop :=
  forall o, is_Some (h !! o) ->
    exists l, subqueries_of h o = Ok l
              /\ Forall (fun s => exists c, s = SubObj c /\ is_Some (h !! c)) l.

End Planner.
Export Planner.


(* ===================================================================== *)
(** * The indexer *)
(* ===================================================================== *)

Module Indexer.

(** A client is named by its identity: it is the key of the [indexes]
    map. *)
Definition Client := nat.

(** What the indexer consumes from clients, selections and
    [util/index-columns.js], none of which is under src/:
    [indexColumns(client)], [selection.skip(client, clause)],
    [selection.remove(source).predicate(client)] and
    [client.query(filter)], which builds a query in the store. *)
Class Host := {
  Selection : Type;
  Filter : Type;
  indexColumns : Client -> option IndexCols;
  selection_skip : Selection -> Client -> Clause -> bool;
  selection_filter : Selection -> JsVal -> Client -> Filter;
  client_query : Client -> Filter -> HM oid
}.

(** An entry of [indexes], and what [index] returns: null, the [Skip]
    sentinel, or a [DataCubeInfo]. *)
Inductive Entry :=
| ENull
| ESkip
| ECube (info : DataCubeInfo).

Record State := {
  indexes : gmap Client Entry;
  active : option Active;
  _schema : string;
  _enabled : JsVal
}.

(** What the coordinator was asked to execute: one statement or a batch.
    The promise [exec] returns is named by the position of the request in
    the log. *)
Inductive Exec :=
| ExecOne (stmt : string)
| ExecBatch (stmts : list string).

(** The store of query objects and the log of the coordinator. *)
Record World := {
  w_heap : Heap;
  w_log : list Exec
}.

Definition exec (e : Exec) (w : World) : nat * World :=
  (length (w_log w), {| w_heap := w_heap w; w_log := w_log w ++ [e] |}).

(** The constructor: [schema] defaults to mosaic and [enabled] to true when
    the option is left out. *)
Definition new_indexer (schema : option string) (enabled : option JsVal) : State :=
  {| indexes := ∅; active := None;
     _schema := default "mosaic" schema;
     _enabled := default (JBool true) enabled |}.

Definition clear (st : State) : State :=
  {| indexes := ∅; active := None; _schema := _schema st; _enabled := _enabled st |}.

Definition assign_enabled (v : JsVal) (st : State) : State :=
  {| indexes := indexes st; active := active st; _schema := _schema st; _enabled := v |}.

Definition assign_schema (s : string) (st : State) : State :=
  {| indexes := indexes st; active := active st; _schema := s; _enabled := _enabled st |}.

Definition assign_active (a : Active) (st : State) : State :=
  {| indexes := indexes st; active := Some a; _schema := _schema st; _enabled := _enabled st |}.

Definition set_index (c : Client) (e : Entry) (st : State) : State :=
  {| indexes := <[c := e]> (indexes st); active := active st;
     _schema := _schema st; _enabled := _enabled st |}.

(** [set enabled(state)]. *)
Definition set_enabled (state : JsVal) (st : State) : State :=
  if negb (strict_eq (_enabled st) state)
  then assign_enabled state (if negb (truthy state) then clear st else st)
  else st.

(** [set schema(schema)]. *)
Definition set_schema (schema : string) (st : State) : State :=
  if negb (String.eqb (_schema st) schema)
  then assign_schema schema (clear st)
  else st.

Definition drop_statement (schema : string) : string :=
  "DROP SCHEMA IF EXISTS " +:+ dquote +:+ schema +:+ dquote +:+ " CASCADE".

Definition create_schema_statement (schema : string) : string :=
  "CREATE SCHEMA IF NOT EXISTS " +:+ schema.

(** [dropIndexTables]: returns the promise of the execution. *)
Definition dropIndexTables (st : State) (w : World) : nat * State * World :=
  let st' := clear st in
  let '(promise, w') := exec (ExecOne (drop_statement (_schema st'))) w in
  (promise, st', w').

Section Index.
Context `{!SqlLib} `{!Scales} `{!Hash} `{!Host}.

(** The last branch of [index]: generate the data cube index table. *)
Definition build_cube (client : Client) (selection : Selection) (source : JsVal)
    (act : Active) (indexCols : IndexCols) (schema : string) (w : World)
  : Res DataCubeInfo * World :=
  let filter := selection_filter selection source client in
  match (let* q := client_query client filter in
         dataCubeInfo q act indexCols schema) (w_heap w) with
  | (Ok info, h) =>
      let '(promise, w') :=
        exec (ExecBatch [create_schema_statement schema;
                         create (ci_table info) (ci_create info)])
             {| w_heap := h; w_log := w_log w |} in
      (Ok {| ci_table := ci_table info; ci_create := ci_create info;
             ci_result := Some promise; ci_active := ci_active info;
             ci_select := ci_select info; ci_skip := ci_skip info |}, w')
  | (Throw e, h) => (Throw e, {| w_heap := h; w_log := w_log w |})
  end.

Definition index (client : Client) (selection : Selection) (activeClause : Clause)
    (st : State) (w : World) : Res Entry * State * World :=
  (* if not enabled, do nothing *)
  if negb (truthy (_enabled st)) then (Ok ENull, st, w) else
  let schema := _schema st in
  let source := cl_source activeClause in
  (* if there is no clause source to track, do nothing *)
  if negb (truthy source) then (Ok ENull, st, w) else
  (* if we have cached active columns, check for updates or exit *)
  let st1 :=
    match active st with
    | Some a => if negb (strict_eq (a_source a) source) then clear st else st
    | None => st
    end in
  if match active st, active st1 with
     | Some _, Some a1 => strict_eq (a_source a1) JNull
     | _, _ => false
     end
  then (Ok ENull, st1, w) else
  (* if cached active columns are unset, analyze the active clause *)
  match
    match active st1 with
    | Some a => Ok (a, st1, false)
    | None => res_map (fun a => (a, assign_active a st1, strict_eq (a_source a) JNull))
                      (activeColumns activeClause)
    end
  with
  | Throw e => (Throw e, st1, w)
  | Ok (_, st2, true) => (Ok ENull, st2, w)
  | Ok (act, st2, false) =>
      (* if we have cached data cube index table info, return that *)
      match indexes st2 !! client with
      | Some e => (Ok e, st2, w)
      | None =>
          (* get non-active data cube index table columns *)
          match indexColumns client with
          | None => (Ok ENull, set_index client ENull st2, w)
          | Some indexCols =>
              if selection_skip selection client activeClause
              then (Ok ESkip, set_index client ESkip st2, w)
              else
                match build_cube client selection source act indexCols schema w with
                | (Ok info, w') => (Ok (ECube info), set_index client (ECube info) st2, w')
                | (Throw e, w') => (Throw e, st2, w')
                end
          end
      end
  end.

(** ** The interface as a whole *)

Inductive Call :=
| CallIndex (client : Client) (selection : Selection) (clause : Clause)
| CallClear
| CallSetEnabled (state : JsVal)
| CallSetSchema (schema : string)
| CallDropIndexTables.

Definition step (c : Call) (sw : State * World) : State * World :=
  let '(st, w) := sw in
  match c with
  | CallIndex client selection clause =>
      let '(_, st', w') := index client selection clause st w in (st', w')
  | CallClear => (clear st, w)
  | CallSetEnabled v => (set_enabled v st, w)
  | CallSetSchema s => (set_schema s st, w)
  | CallDropIndexTables =>
      let '(_, st', w') := dropIndexTables st w in (st', w')
  end.

Definition run (calls : list Call) (sw : State * World) : State * World :=
  fold_left (fun acc c => step c acc) calls sw.

(** ** Bookkeeping for the statements about [index] *)

(** The cached analysis belongs to another source than the clause. *)
Definition source_changed (cl : Clause) (st : State) : bool :=
  match active st with
  | Some a => negb (strict_eq (a_source a) (cl_source cl))
  | None => false
  end.

(** The state [index] works on once it is past its two guards and its
    check of the cached source. *)
Definition entered (cl : Clause) (st : State) : State :=
  if source_changed cl st then clear st else st.

(** A ghost record of who populated [indexes]: for every client with an
    entry, the source of the clause of the [index] call that stored the
    entry. An [index] call that gets past its guards with a changed source
    empties the record together with the map; it then attributes the entry
    of its client, if that entry is new, to its clause. The other calls
    keep what survives in the map. *)
Definition track (c : Call) (st st' : State) (g : gmap Client JsVal)
  : gmap Client JsVal :=
  match c with
  | CallIndex client _ cl =>
      let g0 :=
        if truthy (_enabled st) && truthy (cl_source cl) && source_changed cl st
        then ∅ else g in
      match indexes st' !! client, g0 !! client with
      | Some _, None => <[client := cl_source cl]> g0
      | _, _ => g0
      end
  | _ => filter (fun kv => kv.1 ∈ dom (indexes st')) g
  end.

Definition run_tracked (calls : list Call) (s : State * World * gmap Client JsVal)
  : State * World * gmap Client JsVal :=
  fold_left (fun acc c =>
               let '(st, w, g) := acc in
               let '(st', w') := step c (st, w) in
               (st', w', track c st st' g)) calls s.

(** A submitted cube carries the promise of its batch, and the batch
    creates the schema before the table. *)
Definition submitted (schema : string) (w w' : World) (info : DataCubeInfo) : Prop :=
  w_log w' = (w_log w ++ [ExecBatch [create_schema_statement schema;
                                     create (ci_table info) (ci_create info)]])%list
  /\ ci_result info = Some (length (w_log w)).

(** The entry [index] stores for a client that has none, and what it
    costs: null and [Skip] leave the world alone, a cube is submitted. *)
Definition stored (schema : string) (w : World) (e : Entry) (w' : World) : Prop :=
  match e with
  | ENull | ESkip => w' = w
  | ECube info => submitted schema w w' info
  end.

(** Where [index] goes once it is past its two guards, from the state
    [st0] it has entered. *)
Inductive index_outcome (client : Client) (cl : Clause) (st0 : State) (w : World)
  : Res Entry -> State -> World -> Prop :=
| out_hit a e :
    active st0 = Some a -> strict_eq (a_source a) (cl_source cl) = true ->
    indexes st0 !! client = Some e ->
    index_outcome client cl st0 w (Ok e) st0 w
| out_analysis_throws e :
    active st0 = None -> activeColumns cl = Throw e ->
    index_outcome client cl st0 w (Throw e) st0 w
| out_unindexable a :
    active st0 = None -> activeColumns cl = Ok a -> a_source a = JNull ->
    index_outcome client cl st0 w (Ok ENull) (assign_active a st0) w
| out_hit_fresh a e :
    active st0 = None -> activeColumns cl = Ok a -> a_source a = cl_source cl ->
    indexes st0 !! client = Some e ->
    index_outcome client cl st0 w (Ok e) (assign_active a st0) w
| out_store a e st1 w' :
    (active st0 = Some a /\ strict_eq (a_source a) (cl_source cl) = true /\ st1 = st0
     \/ active st0 = None /\ activeColumns cl = Ok a /\ a_source a = cl_source cl
        /\ st1 = assign_active a st0) ->
    indexes st0 !! client = None ->
    stored (_schema st0) w e w' ->
    index_outcome client cl st0 w (Ok e) (set_index client e st1) w'
| out_build_throws a e st1 w' :
    (active st0 = Some a /\ strict_eq (a_source a) (cl_source cl) = true /\ st1 = st0
     \/ active st0 = None /\ activeColumns cl = Ok a /\ a_source a = cl_source cl
        /\ st1 = assign_active a st0) ->
    indexes st0 !! client = None ->
    w_log w' = w_log w ->
    index_outcome client cl st0 w (Throw e) st1 w'.

(** A disabled indexer holds nothing. *)
Definition idle (st : State) : Prop :=
  truthy (_enabled st) = false -> active st = None /\ indexes st = ∅.

(** Every entry of [indexes] is attributed to a clause, and the cached
    analysis has the source of each of these clauses. *)
Definition attributed (st : State) (g : gmap Client JsVal) : Prop :=
  dom g = dom (indexes st)
  /\ forall k src, g !! k = Some src ->
       exists a, active st = Some a /\ strict_eq (a_source a) src = true.

(** ** The cubes of the cache *)

(** A cube of the cache is in order: its table is the cube table of the
    current schema for its creation text, it is no skip, its active
    columns are the cached analysis, and its result is the promise of a
    batch in the log that creates the current schema and then the
    table. *)
Definition cube_in_order (st : State) (w : World) (info : DataCubeInfo) : Prop :=
  ci_table info = cube_table (_schema st) (cube_id (ci_create info))
  /\ ci_skip info = false
  /\ active st = Some (ci_active info)
  /\ exists n, ci_result info = Some n
               /\ w_log w !! n
                  = Some (ExecBatch [create_schema_statement (_schema st);
                                     create (ci_table info) (ci_create info)]).

Definition cache_in_order (st : State) (w : World) : Prop :=
  forall client info, indexes st !! client = Some (ECube info) -> cube_in_order st w info.

End Index.
End Indexer.
Export Indexer.


(* ===================================================================== *)
(** * A concrete environment *)
(* ===================================================================== *)

(** One instance of every capability taken from outside src/, so that the
    definitions above run on concrete inputs. *)
Module Demo.

Definition demo_ref_toString (t c : option string) : string :=
  match c, t with
  | Some c, Some t => quoted t +:+ "." +:+ quoted c
  | Some c, None => quoted c
  | None, Some t => quoted t
  | None, None => "NULL"
  end.

Definition demo_expr_text (e : Expr) : string :=
  match e with
  | Ref t c => demo_ref_toString t c
  | SqlExpr s _ => s
  end.

(** The printer of non-integer numbers of this environment knows 2.5 and
    prints a mark for every other number. *)
#[export] Instance demo_sql : SqlLib := {|
  number_other := fun x => if (x =? 2.5)%float then "2.5" else "#";
  ref_toString := demo_ref_toString;
  isColumnRefFor := fun v al =>
    match v with
    | VExpr (Ref _ c) => bool_decide (c = al)
    | _ => false
    end;
  member_text := fun k => "[" +:+ k +:+ "]";
  isBetween := fun name range =>
    SqlExpr ("(" +:+ quoted name +:+ " BETWEEN "
                 +:+ join " AND " (map demo_expr_text range) +:+ ")") [name];
  sql_and := fun es =>
    SqlExpr ("(" +:+ join " AND " (map demo_expr_text es) +:+ ")")
            (remove_dups (flat_map expr_columns es));
  create := fun table query =>
    "CREATE TABLE IF NOT EXISTS " +:+ table +:+ " AS " +:+ query
|}.

(** Modelled from the spec: [scaleTransform] (not under src/) on the scale
    types the scenarios use. A linear or identity scale maps a value to
    itself, in JavaScript and in SQL (scenario S2: domain [0,100] and
    range [0,500] give the factor 5 and no offset term); a scale type
    without a transform has no [apply]. *)
#[export] Instance demo_scales : Scales := {|
  scaleTransform := fun sc =>
    {| st_type := scale_type sc;
       st_domain := scale_domain sc;
       st_range := scale_range sc;
       st_apply :=
         if String.eqb (scale_type sc) "linear" || String.eqb (scale_type sc) "identity"
         then Some (fun x => x) else None;
       st_sqlApply := asColumn |}
|}.

(** Modelled from the spec: [fnv_hash] (not under src/) as FNV-1a over the
    bytes of the text with 32-bit wrap-around. *)
Definition fnv1a (s : string) : Z :=
  fold_left (fun a c => (Z.lxor a (Z.of_nat (nat_of_ascii c)) * 16777619) mod 2 ^ 32)%Z
            (list_ascii_of_string s) 2166136261%Z.

#[export] Instance demo_hash : Hash := {| fnv_hash := fnv1a |}.

Definition sum_sales : SelArg := AObj [("s", VExpr (SqlExpr "SUM(sales)" ["sales"]))].

(** Clients 1 and 4 are indexable, client 3 is always skipped and every
    other client is not indexable. Client 4 reads from two subqueries,
    every other client from one table. The filter a selection yields is a
    list of predicates. *)
#[export] Instance demo_host : Host := {|
  Selection := unit;
  Filter := list Val;
  indexColumns := fun c =>
    if (c =? 1)%nat || (c =? 3)%nat || (c =? 4)%nat
    then Some {| dims := ["year"]; aggr := [sum_sales]; aux := [] |}
    else None;
  selection_skip := fun _ c _ => (c =? 3)%nat;
  selection_filter := fun _ _ _ => [];
  client_query := fun c filter =>
    if (c =? 4)%nat then
      let* a0 := static_from [One (FVal (FVStr "t"))] in
      let* a0 := select a0 [One (AStr "year"); One (AStr "sales")] in
      let* a := static_from [One (FVal (FVQuery a0))] in
      let* a := select a [One (AStr "year"); One (AStr "sales")] in
      let* b := static_from [One (FVal (FVStr "u"))] in
      let* b := select b [One (AStr "k")] in
      let* q := static_from [One (FVal (FVQuery a)); One (FVal (FVQuery b))] in
      let* q := select q [One (AStr "year"); One sum_sales] in
      let* q := where_ q [Arr filter] in
      groupby q [One (VStr "year")]
    else
      let* q := static_from [One (FVal (FVStr "sales"))] in
      let* q := select q [One (AStr "year"); One sum_sales] in
      let* q := where_ q [Arr filter] in
      groupby q [One (VStr "year")]
|}.

Definition world0 : World := {| w_heap := ∅; w_log := [] |}.

(** Scenario S1: a point clause over one column. *)
Definition point_clause (source : JsVal) : Clause :=
  {| cl_source := source;
     cl_meta := Some {| m_type := "point"; m_scales := None; m_bin := None;
                        m_pixelSize := None |};
     cl_predicate :=
       Some (MkPred (SqlExpr "category = 'a'" ["category"]) (Some ["category"])
                    VUndefined None None) |}.

(** Scenario S2: a linear scale with domain [0,100] and range [0,500]. *)
Definition linear_scale : Scale :=
  {| scale_type := "linear";
     scale_domain := Some [0; 100]%float;
     scale_range := Some [0; 500]%float |}.

Definition interval_clause (source : JsVal) : Clause :=
  {| cl_source := source;
     cl_meta := Some {| m_type := "interval"; m_scales := Some [linear_scale];
                        m_bin := Some "floor"; m_pixelSize := Some 1%float |};
     cl_predicate :=
       Some (MkPred (SqlExpr "x BETWEEN 20 AND 40" ["x"]) (Some ["x"])
                    (VStr "x") (Some [VNum 20; VNum 40]) None) |}.

(** Runs of the indexer in this environment. *)

Definition sel0 : @Selection demo_host := tt.

Definition demo_first := index 1 sel0 (point_clause (JStr "S")) (new_indexer None None) world0.
Definition demo_entry : Entry := match demo_first.1.1 with Ok e => e | Throw _ => ENull end.
Definition demo_state : State := demo_first.1.2.
Definition demo_world : World := demo_first.2.

Definition demo_calls : list Call :=
  [CallIndex 1 sel0 (point_clause (JStr "S")); CallSetEnabled (JNum 0);
   CallIndex 1 sel0 (point_clause (JStr "S"))].

Definition demo_dropped : World :=
  {| w_heap := w_heap demo_world;
     w_log := w_log demo_world ++ [ExecOne (drop_statement "mosaic")] |}.
Definition demo_rebuild :=
  index 1 sel0 (point_clause (JStr "S")) (clear demo_state) demo_dropped.
Definition demo_rebuilt : DataCubeInfo :=
  match demo_rebuild.1.1 with
  | Ok (ECube info) => info
  | _ => {| ci_table := ""; ci_create := ""; ci_result := None;
            ci_active := {| a_source := JNull; a_columns := None; a_predicate := None |};
            ci_select := 0; ci_skip := false |}
  end.

(** Runs of the planner in this environment. Client 4 reads from two
    subqueries, the first of which reads from a subquery itself: the
    objects are 0 (innermost), 1 (first subquery), 2 (second subquery)
    and 3 (the client query). *)

Definition no_active : Active :=
  {| a_source := JNull; a_columns := None; a_predicate := None |}.

Definition demo_active : Active :=
  match activeColumns (point_clause (JStr "S")) with
  | Ok a => a
  | Throw _ => no_active
  end.

Definition demo_cols : IndexCols :=
  {| dims := ["year"]; aggr := [sum_sales]; aux := [] |}.

Definition demo_query4 : Res oid * Heap := @client_query demo_host 4 [] ∅.
Definition demo_q4 : oid := match demo_query4.1 with Ok q => q | Throw _ => 0 end.
Definition demo_heap4 : Heap := demo_query4.2.

Definition demo_cube4 : Res DataCubeInfo * Heap :=
  dataCubeInfo demo_q4 demo_active demo_cols "mosaic" demo_heap4.
Definition no_info : DataCubeInfo :=
  {| ci_table := ""; ci_create := ""; ci_result := None; ci_active := no_active;
     ci_select := 0; ci_skip := false |}.
Definition demo_info4 : DataCubeInfo :=
  match demo_cube4.1 with Ok i => i | Throw _ => no_info end.
Definition demo_heap4' : Heap := demo_cube4.2.

(** Two plans for the query of client 1, the second built in the store
    the first has left. *)
Definition no_plan : Plan :=
  {| p_id := ""; p_table := ""; p_create := ""; p_active := no_active; p_select := 0 |}.
Definition demo_query1 (h : Heap) : oid * Heap :=
  match @client_query demo_host 1 [] h with
  | (Ok q, h') => (q, h')
  | (Throw _, h') => (0, h')
  end.
Definition demo_run_plan (h : Heap) : Res Plan * Heap :=
  cubePlan (demo_query1 h).1 demo_active demo_cols "mosaic" (demo_query1 h).2.
Definition demo_plan_a : Plan :=
  match (demo_run_plan ∅).1 with Ok p => p | Throw _ => no_plan end.
Definition demo_plan_b : Plan :=
  match (demo_run_plan (demo_run_plan ∅).2).1 with Ok p => p | Throw _ => no_plan end.

(** Two predicates of the point clause family, and the queries for them,
    the second made in the store the first has left. *)
Definition demo_pred (value : string) : option ClausePred :=
  Some (MkPred (SqlExpr ("category = " +:+ value) ["category"]) (Some ["category"])
               VUndefined None None).
Definition demo_query_a : Res oid * Heap :=
  cube_query demo_info4 (demo_pred "'a'") demo_heap4'.
Definition demo_query_b : Res oid * Heap :=
  cube_query demo_info4 (demo_pred "'b'") demo_query_a.2.

(** ** Stores for the statements about the query builder *)

Definition table_t : FromItem :=
  {| from_as := Some "t"; from_src := FromExpr (Ref (Some "t") None) |}.

(** A query that selects the columns a and b from the table t, alone in
    a store and with a copy of itself beside it. *)
Definition demo_two_columns : QueryData :=
  with_from [table_t] (with_select [column_item "a"; column_item "b"] empty_query).

Definition demo_store : Heap := <[0 := OQuery demo_two_columns None]> ∅.


Definition demo_text : string :=
  match (toString 0 demo_store).1 with Ok t => t | Throw _ => "" end.

(** A query with two common table expressions of the same name. *)
Definition demo_cte_query : QueryData :=
  with_with [("t", 1); ("t", 2)] (with_from [table_t] (with_select [column_item "a"] empty_query)).

Definition demo_ctes : Heap :=
  <[0 := OQuery demo_cte_query None]>
    (<[1 := OQuery demo_two_columns (Some 0)]>
       (<[2 := OQuery demo_two_columns (Some 0)]> ∅)).

(** A set operation that is a common table expression of the query 3. *)
Definition demo_members : SetOpData :=
  {| so_op := "UNION"; so_queries := [1; 2]; so_orderby := [];
     so_limit := None; so_offset := None |}.

Definition demo_setop : Heap :=
  <[0 := OSetOp demo_members (Some 3)]>
    (<[1 := OQuery demo_two_columns None]>
       (<[2 := OQuery demo_two_columns None]>
          (<[3 := OQuery empty_query None]> ∅))).

Definition demo_setop_text : string :=
  match (toString 0 demo_setop).1 with Ok t => t | Throw _ => "" end.

Definition demo_clone : Res oid * Heap := clone 0 demo_setop.
Definition demo_clone_id : oid := match demo_clone.1 with Ok c => c | Throw _ => 0 end.




(** A query with a WHERE term that prints as nothing, a query that is its
    own FROM entry, two queries that are each the FROM entry of the
    other, and a query on a table named like a member of
    [Object.prototype]. *)
Definition demo_blank_where : QueryData :=
  with_where [VExpr (SqlExpr "" [])] demo_two_columns.

Definition demo_blank : Heap := <[0 := OQuery demo_blank_where None]> ∅.

Definition from_query (o : oid) : FromItem := {| from_as := None; from_src := FromQuery o |}.

Definition demo_self_query : QueryData :=
  with_from [from_query 0] (with_select [column_item "a"] empty_query).

Definition demo_self : Heap := <[0 := OQuery demo_self_query None]> ∅.

Definition demo_cycle : Heap :=
  <[0 := OQuery (with_from [from_query 1] (with_select [column_item "a"] empty_query)) None]>
    (<[1 := OQuery (with_from [from_query 0] (with_select [column_item "b"] empty_query))
                   None]> ∅).

Definition demo_proto_query : QueryData :=
  with_from [{| from_as := Some "toString";
                from_src := FromExpr (Ref (Some "toString") None) |}]
    (with_select [column_item "a"] empty_query).

Definition demo_proto : Heap := <[0 := OQuery demo_proto_query None]> ∅.

(** ** Clauses for the statements about the analyzer *)

(** An interval clause over a scale of a type without a transform, and one
    over a linear scale that lacks its domain. *)
Definition interval_over (sc : Scale) (source : JsVal) : Clause :=
  {| cl_source := source;
     cl_meta := Some {| m_type := "interval"; m_scales := Some [sc];
                        m_bin := None; m_pixelSize := None |};
     cl_predicate :=
       Some (MkPred (SqlExpr "x BETWEEN 2 AND 4" ["x"]) (Some ["x"])
                    (VStr "x") (Some [VNum 2; VNum 4]) None) |}.

Definition log_scale : Scale :=
  {| scale_type := "log"; scale_domain := Some [1; 100]%float;
     scale_range := Some [0; 500]%float |}.

Definition bare_scale : Scale :=
  {| scale_type := "linear"; scale_domain := None; scale_range := None |}.

(** ** More runs of the planner and of the indexer *)

Definition demo_template : QueryData :=
  match demo_heap4' !! ci_select demo_info4 with
  | Some (OQuery q _) => q
  | _ => empty_query
  end.

Definition demo_second := index 2 sel0 (point_clause (JStr "S")) demo_state demo_world.

Definition demo_failed :=
  index 1 sel0 (interval_over bare_scale (JStr "T")) demo_state demo_world.

(** A query that reads from a common table expression u, the union of
    two queries the first of which has a common table expression x of its
    own: WITH u AS (WITH x AS (SELECT a FROM t) SELECT a FROM x UNION
    SELECT a FROM t) SELECT a FROM u. *)
Definition demo_union_query : Res oid * Heap :=
  (let* x := static_from [One (FVal (FVStr "t"))] in
   let* x := select x [One (AStr "a")] in
   let* a := alloc (OQuery empty_query None) in
   let* a := with_entries a [("x", WQuery x)] in
   let* a := select a [One (AStr "a")] in
   let* a := from a [One (FVal (FVStr "x"))] in
   let* b := static_from [One (FVal (FVStr "t"))] in
   let* b := select b [One (AStr "a")] in
   let* u := static_union [One a; One b] in
   let* q := alloc (OQuery empty_query None) in
   let* q := with_entries q [("u", WQuery u)] in
   let* q := from q [One (FVal (FVStr "u"))] in
   select q [One (AStr "a")]) ∅.
Definition demo_uq : oid := match demo_union_query.1 with Ok q => q | Throw _ => 0 end.
Definition demo_heap_u : Heap := demo_union_query.2.
Definition demo_cube_u : Res DataCubeInfo * Heap :=
  dataCubeInfo demo_uq demo_active demo_cols "mosaic" demo_heap_u.
Definition demo_info_u : DataCubeInfo :=
  match demo_cube_u.1 with Ok i => i | Throw _ => no_info end.
Definition demo_heap_u' : Heap := demo_cube_u.2.

End Demo.

(* ===================================================================== *)
(** * Properties of the bin synthesizer *)
(* ===================================================================== *)

Section BinFacts.
Context `{!SqlLib} `{!Scales}.

Lemma append_empty_l s t : s +:+ t = "" -> s = "" /\ t = "".
Proof. destruct s; [done|discriminate]. Qed.

Lemma append_empty_r s : s +:+ "" = s.
Proof.
  induction s as [|c s IH]; [done|].
  change (String c (s +:+ "") = String c s). by rewrite IH.
Qed.

Lemma concat_parts (l : list string) : String.concat "" l = fold_right String.append "" l.
Proof.
  induction l as [|x l IH]; [done|]. simpl. destruct l as [|y l].
  - simpl. by rewrite append_empty_r.
  - by rewrite IH.
Qed.

(** The text of the expression a bin function builds. *)
Lemma bin_expression_text (fn s d : string) (x : Val) :
  expr_toString (sql_tag [VStr fn; VStr "("; VStr s; VStr "("; x; VStr d;
                          VStr "))::INTEGER"])
  = fn +:+ "(" +:+ s +:+ "(" +:+ val_toString x +:+ d +:+ "))::INTEGER".
Proof.
  unfold sql_tag, expr_toString. rewrite concat_parts. simpl.
  by rewrite append_empty_r.
Qed.

(** Claim C6, general part. For a scale with a transform, the synthesized
    bin function maps a value to the expression
    fn(k::DOUBLE * (sqlApply(value) - lo::DOUBLE))::INTEGER, where
    k = a / pixelSize, the factor (with its multiplication sign) is left
    out exactly when k equals 1 and the offset term is left out exactly
    when lo equals 0. *)
Lemma binInterval_text scale pixelSize bin apply domain range :
  let t := scaleTransform scale in
  st_apply t = Some apply ->
  st_domain t = Some domain ->
  st_type t = "identity" \/ st_range t = Some range ->
  let lo := apply (math_min domain) in
  let hi := apply (math_max domain) in
  let a := if String.eqb (st_type t) "identity" then 1%float
           else (abs (nth 1 range nan - nth 0 range nan) / (hi - lo))%float in
  let k := (a / pixelSize)%float in
  exists (f : Val -> Expr) (factor offset : string),
    binInterval scale pixelSize bin = Ok (Some f)
    /\ (forall value,
          expr_toString (f value)
          = bin_fn_text (bin_fn bin) +:+ "(" +:+ factor +:+ "("
              +:+ val_toString (st_sqlApply t value) +:+ offset +:+ "))::INTEGER")
    /\ (factor = "" <-> (k =? 1)%float = true)
    /\ ((k =? 1)%float = false ->
        factor = number_toString number_other k +:+ "::DOUBLE * ")
    /\ (offset = "" <-> (lo =? 0)%float = true)
    /\ ((lo =? 0)%float = false ->
        offset = " - " +:+ number_toString number_other lo +:+ "::DOUBLE").
Proof.
  intros t Happly Hdomain Hrange lo hi a k.
  exists (fun value =>
    sql_tag [ VStr (bin_fn_text (bin_fn bin)); VStr "(";
              VStr (if (k =? 1)%float then ""
                    else number_toString number_other k +:+ "::DOUBLE * ");
              VStr "("; st_sqlApply t value;
              VStr (if (lo =? 0)%float then ""
                    else " - " +:+ number_toString number_other lo +:+ "::DOUBLE");
              VStr "))::INTEGER" ]).
  eexists _, _. split; [|split; [intros value; apply bin_expression_text|]].
  - unfold binInterval. fold t. rewrite Happly, Hdomain. simpl.
    subst k a lo hi. destruct (String.eqb (st_type t) "identity") eqn:Hty; simpl.
    + done.
    + destruct Hrange as [Hid|Hr]; [by rewrite Hid in Hty|]. by rewrite Hr.
  - repeat split.
    + by destruct (k =? 1)%float; [|intros [_ ?]%append_empty_l].
    + by intros ->.
    + by intros ->.
    + by destruct (lo =? 0)%float.
    + by intros ->.
    + by intros ->.
Qed.

(** ** The function a bin mode selects *)

Lemma lower_ascii_lower c :
  (97 <= nat_of_ascii c <= 122)%nat -> lower_ascii c = c.
Proof.
  intros Hc. unfold lower_ascii.
  destruct (_ && _) eqn:Hb; [|done].
  apply andb_true_iff in Hb as [_ Hb%Nat.leb_le]. lia.
Qed.

Lemma lower_ascii_upper c :
  (97 <= nat_of_ascii c <= 122)%nat ->
  lower_ascii (ascii_of_nat (nat_of_ascii c - 32)) = c.
Proof.
  intros Hc. unfold lower_ascii.
  rewrite nat_ascii_embedding by lia.
  destruct (_ && _) eqn:Hb.
  - replace (nat_of_ascii c - 32 + 32)%nat with (nat_of_ascii c) by lia.
    apply ascii_nat_embedding.
  - apply andb_false_iff in Hb as [Hb%Nat.leb_gt|Hb%Nat.leb_gt]; lia.
Qed.

Lemma toLowerCase_casing s s' :
  lowercase_word s -> casing s s' -> toLowerCase s' = s.
Proof.
  intros Hs Hc. induction Hc as [|c s s' Hc IH|c s s' Hr Hc IH]; [done|..];
    simpl in *; apply Forall_cons in Hs as [Hc0 Hs]; f_equal; auto.
  - by apply lower_ascii_lower.
  - by apply lower_ascii_upper.
Qed.

Lemma bin_fn_ceil s : casing "ceil" s -> bin_fn (Some s) = FnName "CEIL".
Proof.
  intros Hc. unfold bin_fn.
  rewrite (toLowerCase_casing "ceil" s); [done| |done].
  repeat constructor; simpl; lia.
Qed.

Lemma bin_fn_round s : casing "round" s -> bin_fn (Some s) = FnName "ROUND".
Proof.
  intros Hc. unfold bin_fn.
  rewrite (toLowerCase_casing "round" s); [done| |done].
  repeat constructor; simpl; lia.
Qed.

Lemma bin_fn_floor s : casing "floor" s -> bin_fn (Some s) = FnName "FLOOR".
Proof.
  intros Hc. unfold bin_fn.
  rewrite (toLowerCase_casing "floor" s); [done| |done].
  repeat constructor; simpl; lia.
Qed.

(** Every other bin mode whose lower-case form is not the name of a member
    of [Object.prototype] selects FLOOR; so does a missing bin mode. *)
Lemma bin_fn_other s :
  toLowerCase s <> "ceil" -> toLowerCase s <> "round" ->
  inherited (toLowerCase s) = false ->
  bin_fn (Some s) = FnName "FLOOR".
Proof.
  intros Hc Hr Hi. unfold bin_fn, BIN.
  apply String.eqb_neq in Hc, Hr. by rewrite Hc, Hr, Hi.
Qed.

Lemma bin_fn_undefined : bin_fn None = FnName "FLOOR".
Proof. done. Qed.

(** Claim C7, at the input where the code leaves it. In any casing,
    the bin mode constructor selects no SQL function name at all: the
    lookup in [BIN] finds the member that every object literal inherits,
    which is truthy, so the fallback to FLOOR is not taken and the bin
    expression starts with the text of that member. *)
Theorem C7_inherited_member_instead_of_FLOOR :
  bin_fn (Some "constructor") = FnInherited "constructor"
  /\ bin_fn (Some "Constructor") = FnInherited "constructor"
  /\ bin_fn (Some "__proto__") = FnInherited "__proto__"
  /\ bin_fn (Some "constructor") <> FnName "FLOOR"
  /\ forall scale pixelSize apply domain range value,
       st_apply (scaleTransform scale) = Some apply ->
       st_domain (scaleTransform scale) = Some domain ->
       st_range (scaleTransform scale) = Some range ->
       exists f rest,
         binInterval scale pixelSize (Some "constructor") = Ok (Some f)
         /\ expr_toString (f value) = member_text "constructor" +:+ rest.
Proof.
  repeat split; try done.
  intros scale pixelSize apply domain range value Ha Hd Hr.
  destruct (binInterval_text scale pixelSize (Some "constructor") apply domain range
              Ha Hd (or_intror Hr)) as (f & factor & offset & Hf & Htext & _).
  exists f. eexists. split; [exact Hf|]. rewrite Htext. reflexivity.
Qed.

End BinFacts.

(** Claim C6. For every scale that has a transform, the bin function maps
    a value to the expression whose text is
    fn(k::DOUBLE * (sqlApply(value) - lo::DOUBLE))::INTEGER
    with k = a / pixelSize, where the factor k::DOUBLE and its
    multiplication sign are left out exactly when k equals 1 and the
    offset - lo::DOUBLE is left out exactly when lo equals 0. In
    particular (scenario S2), a linear scale with domain [0,100] and range
    [0,500], pixel size 1 and floor binning give
    FLOOR(5::DOUBLE * (x))::INTEGER. *)
Theorem C6_bin_expression :
  (forall (L : SqlLib) (S : Scales) scale pixelSize bin apply domain range,
     let t := scaleTransform scale in
     st_apply t = Some apply ->
     st_domain t = Some domain ->
     st_type t = "identity" \/ st_range t = Some range ->
     let lo := apply (math_min domain) in
     let hi := apply (math_max domain) in
     let a := if String.eqb (st_type t) "identity" then 1%float
              else (abs (nth 1 range nan - nth 0 range nan) / (hi - lo))%float in
     let k := (a / pixelSize)%float in
     exists (f : Val -> Expr) (factor offset : string),
       binInterval scale pixelSize bin = Ok (Some f)
       /\ (forall value,
             expr_toString (f value)
             = bin_fn_text (bin_fn bin) +:+ "(" +:+ factor +:+ "("
                 +:+ val_toString (st_sqlApply t value) +:+ offset +:+ "))::INTEGER")
       /\ (factor = "" <-> (k =? 1)%float = true)
       /\ ((k =? 1)%float = false ->
           factor = number_toString number_other k +:+ "::DOUBLE * ")
       /\ (offset = "" <-> (lo =? 0)%float = true)
       /\ ((lo =? 0)%float = false ->
           offset = " - " +:+ number_toString number_other lo +:+ "::DOUBLE"))
  /\ (exists f,
        @binInterval Demo.demo_sql Demo.demo_scales Demo.linear_scale 1 (Some "floor")
        = Ok (Some f)
        /\ f (VExpr (SqlExpr "x" ["x"]))
           = SqlExpr "FLOOR(5::DOUBLE * (x))::INTEGER" ["x"]).
Proof.
  split.
  - intros L S scale pixelSize bin apply domain range. apply binInterval_text.
  - eexists. split; [reflexivity|]. vm_compute. reflexivity.
Qed.

Section DemoBins.
Import Demo.

(** The same scale with pixel size 2 and ceil binning in mixed case, by
    way of the general statement. *)
Lemma C6_witness :
  exists f,
    binInterval linear_scale 2 (Some "CeIl") = Ok (Some f)
    /\ expr_toString (f (VExpr (SqlExpr "x" ["x"])))
       = "CEIL(2.5::DOUBLE * (x))::INTEGER".
Proof.
  destruct (proj1 C6_bin_expression demo_sql demo_scales linear_scale 2%float
              (Some "CeIl") (fun x => x) [0; 100]%float [0; 500]%float
              eq_refl eq_refl (or_intror eq_refl))
    as (f & factor & offset & Hf & Htext & _ & Hfactor & Hoffset & _).
  exists f. split; [exact Hf|]. rewrite Htext.
  rewrite Hfactor by (vm_compute; reflexivity).
  rewrite (proj2 Hoffset) by (vm_compute; reflexivity).
  vm_compute. reflexivity.
Defined.

End DemoBins.

(* ===================================================================== *)
(** * Properties of the planner *)
(* ===================================================================== *)

Section StoreFacts.

Lemma bind_ok {A B} (m : HM A) (k : A -> HM B) h b h' :
  bind m k h = (Ok b, h') ->
  exists a h1, m h = (Ok a, h1) /\ k a h1 = (Ok b, h').
Proof.
  unfold bind. destruct (m h) as [[a|e] h1]; [eauto|discriminate].
Qed.

Lemma ret_ok {A} (a b : A) h h' : ret a h = (Ok b, h') -> b = a /\ h' = h.
Proof. by intros [= <- <-]. Qed.

Lemma lift_ok {A} (r : Res A) b h h' : lift r h = (Ok b, h') -> r = Ok b /\ h' = h.
Proof. by intros [= <- <-]. Qed.

Lemma alloc_ok x o h h' :
  alloc x h = (Ok o, h') -> o = fresh (dom h) /\ h !! o = None /\ h' = <[o := x]> h.
Proof.
  intros [= <- <-]. repeat split.
  apply not_elem_of_dom, is_fresh.
Qed.

Lemma update_query_ok o f h h' :
  update_query o f h = (Ok tt, h') ->
  exists q c, h !! o = Some (OQuery q c) /\ h' = <[o := OQuery (f q) c]> h.
Proof.
  unfold update_query. destruct (h !! o) as [[q c|s c]|]; try discriminate.
  intros [= <-]. eauto.
Qed.

Lemma select_ok o args r h h' :
  select o args h = (Ok r, h') ->
  r = o /\ exists q c, h !! o = Some (OQuery q c)
           /\ h' = <[o := OQuery (with_select (select_list (q_select q) args) q) c]> h.
Proof.
  unfold select. intros ([] & h1 & Hu & [-> ->]%ret_ok)%bind_ok.
  split; [done|]. by apply update_query_ok in Hu.
Qed.

Lemma from_ok o args r h h' :
  from o args h = (Ok r, h') ->
  r = o /\ exists q c, h !! o = Some (OQuery q c)
           /\ h' = <[o := OQuery (with_from (q_from q ++ flat_map from_items (flat args)) q) c]> h.
Proof.
  unfold from. intros ([] & h1 & Hu & [-> ->]%ret_ok)%bind_ok.
  split; [done|]. by apply update_query_ok in Hu.
Qed.

Lemma groupby_ok o args r h h' :
  groupby o args h = (Ok r, h') ->
  r = o /\ exists q c, h !! o = Some (OQuery q c)
           /\ h' = <[o := OQuery (with_groupby
                                    (q_groupby q ++ map asColumn
                                       (filter (fun x => val_truthy x = true) (flat args))) q) c]> h.
Proof.
  unfold groupby. intros ([] & h1 & Hu & [-> ->]%ret_ok)%bind_ok.
  split; [done|]. by apply update_query_ok in Hu.
Qed.

Lemma where_ok o args r h h' :
  where_ o args h = (Ok r, h') ->
  r = o /\ exists q c, h !! o = Some (OQuery q c)
           /\ h' = <[o := OQuery (with_where
                                    (q_where q ++ filter (fun x => val_truthy x = true)
                                                         (flat args)) q) c]> h.
Proof.
  unfold where_. intros ([] & h1 & Hu & [-> ->]%ret_ok)%bind_ok.
  split; [done|]. by apply update_query_ok in Hu.
Qed.

Lemma orderby_ok o args r h h' :
  orderby o args h = (Ok r, h') ->
  r = o /\ exists x, h !! o = Some x
           /\ h' = <[o := match x with
                          | OQuery q c =>
                              OQuery (with_orderby (orderby_add (q_orderby q) args) q) c
                          | OSetOp s c =>
                              OSetOp (so_with_orderby (orderby_add (so_orderby s) args) s) c
                          end]> h.
Proof.
  unfold orderby. destruct (h !! o) as [[q c|s c]|]; try discriminate;
    intros [= <- <-]; eauto.
Qed.

End StoreFacts.

Section PlanFacts.
Context `{!SqlLib} `{!Hash}.

(** The steps of [cubePlan], one by one. *)
Lemma cubePlan_steps clientQuery act indexCols schema h p h' :
  cubePlan clientQuery act indexCols schema h = (Ok p, h') ->
  exists columns ha hb subs hc order hd sel0 he hf hg hh,
    a_columns act = Some columns
    /\ select clientQuery [One (AObj (spread columns (aux indexCols)))] h
       = (Ok clientQuery, ha)
    /\ groupby clientQuery [Arr (map VStr (map fst columns))] ha = (Ok clientQuery, hb)
    /\ subqueries clientQuery hb = (Ok subs, hc)
    /\ match subs with
       | subq :: _ => subqueryPushdown subq (base_columns columns) hc
       | [] => ret tt hc
       end = (Ok tt, hd)
    /\ orderby_get clientQuery hd = (Ok order, hd)
    /\ orderby_assign clientQuery [] hd = (Ok tt, he)
    /\ toString clientQuery he = (Ok (p_create p), he)
    /\ static_select [Arr (map AStr (dims indexCols)); Arr (aggr indexCols)] he
       = (Ok sel0, hf)
    /\ from sel0 [One (FVal (FVStr (p_table p)))] hf = (Ok sel0, hg)
    /\ groupby sel0 [Arr (map VStr (dims indexCols))] hg = (Ok sel0, hh)
    /\ orderby sel0 [Arr order] hh = (Ok sel0, h')
    /\ p_select p = sel0
    /\ p_id p = cube_id (p_create p)
    /\ p_table p = cube_table schema (p_id p)
    /\ p_active p = act.
Proof.
  unfold cubePlan. intros Hp.
  apply bind_ok in Hp as (q1 & ha & Hsel & Hp).
  pose proof (select_ok _ _ _ _ _ Hsel) as [-> _].
  apply bind_ok in Hp as (keys & ha' & [Hkeys ->]%lift_ok & Hp).
  destruct (a_columns act) as [columns|] eqn:Hcols; [|done].
  simpl in Hkeys. injection Hkeys as <-.
  apply bind_ok in Hp as (q2 & hb & Hgrp & Hp).
  pose proof (groupby_ok _ _ _ _ _ Hgrp) as [-> _].
  apply bind_ok in Hp as (subs & hc & Hsubs & Hp).
  apply bind_ok in Hp as ([] & hd & Hpush & Hp).
  apply bind_ok in Hp as (order & hd' & Hord & Hp).
  assert (hd' = hd) as ->.
  { unfold orderby_get in Hord.
    apply bind_ok in Hord as (x & h1 & Hx & [_ ->]%ret_ok).
    unfold get_obj in Hx. destruct (hd !! clientQuery); by inversion Hx. }
  apply bind_ok in Hp as ([] & he & Hassign & Hp).
  apply bind_ok in Hp as (create_text & he' & Hstr & Hp).
  assert (he' = he) as -> by (by inversion Hstr).
  apply bind_ok in Hp as (sel0 & hf & Hss & Hp).
  apply bind_ok in Hp as (sel1 & hg & Hfrom & Hp).
  pose proof (from_ok _ _ _ _ _ Hfrom) as [-> _].
  apply bind_ok in Hp as (sel2 & hh & Hg2 & Hp).
  pose proof (groupby_ok _ _ _ _ _ Hg2) as [-> _].
  apply bind_ok in Hp as (sel3 & hi & Ho2 & [-> ->]%ret_ok).
  pose proof (orderby_ok _ _ _ _ _ Ho2) as [-> _].
  simpl. exists columns, ha, hb, subs, hc, order, hd, sel0, he, hf, hg, hh.
  repeat split; try done. by destruct subs.
Qed.

(** Claim C8. The identifier the planner computes is a function of the
    creation text alone ([cube_id]: the hash, as an unsigned 32-bit
    integer, in hexadecimal), and the table name is a function of the
    schema and the identifier. Hence two plans, built from any queries in
    any stores, that print the same creation text in the same schema have
    the same identifier and the same table name, on the plan and on the
    [DataCubeInfo] made from it (whose constructor keeps the table name
    and drops the identifier). *)
Theorem C8_same_create_same_id_and_table
    q1 act1 cols1 h1 p1 h1' q2 act2 cols2 h2 p2 h2' schema :
  cubePlan q1 act1 cols1 schema h1 = (Ok p1, h1') ->
  cubePlan q2 act2 cols2 schema h2 = (Ok p2, h2') ->
  p_create p1 = p_create p2 ->
  p_id p1 = cube_id (p_create p1)
  /\ p_id p1 = p_id p2
  /\ p_table p1 = p_table p2
  /\ ci_table (new_DataCubeInfo p1) = ci_table (new_DataCubeInfo p2)
  /\ ci_table (new_DataCubeInfo p1) = cube_table schema (cube_id (p_create p1)).
Proof.
  intros Hp1 Hp2 Hcreate.
  apply cubePlan_steps in Hp1
    as (? & ? & ? & ? & ? & ? & ? & ? & ? & ? & ? & ? & _ & _ & _ & _ & _ & _ & _
        & _ & _ & _ & _ & _ & _ & Hid1 & Ht1 & _).
  apply cubePlan_steps in Hp2
    as (? & ? & ? & ? & ? & ? & ? & ? & ? & ? & ? & ? & _ & _ & _ & _ & _ & _ & _
        & _ & _ & _ & _ & _ & _ & Hid2 & Ht2 & _).
  simpl. rewrite Ht1, Ht2, Hid1, Hid2, Hcreate. done.
Qed.

(** ** The select template *)

(** The template the planner builds is a new query without WHERE terms. *)
Lemma cubePlan_template clientQuery act indexCols schema h p h' :
  cubePlan clientQuery act indexCols schema h = (Ok p, h') ->
  exists qd, h' !! p_select p = Some (OQuery qd None) /\ q_where qd = [].
Proof.
  intros Hp. apply cubePlan_steps in Hp
    as (columns & ha & hb & subs & hc & order & hd & sel0 & he & hf & hg & hh
        & _ & _ & _ & _ & _ & _ & _ & _ & Hss & Hfrom & Hgrp & Hord & -> & _).
  unfold static_select in Hss.
  apply bind_ok in Hss as (o & hf0 & (-> & Hfresh & ->)%alloc_ok & Hsel).
  apply select_ok in Hsel as (-> & q1 & c1 & Hl1 & ->).
  rewrite lookup_insert_eq in Hl1. injection Hl1 as <- <-.
  apply from_ok in Hfrom as (_ & q2 & c2 & Hl2 & ->).
  rewrite lookup_insert_eq in Hl2. injection Hl2 as <- <-.
  apply groupby_ok in Hgrp as (_ & q3 & c3 & Hl3 & ->).
  rewrite lookup_insert_eq in Hl3. injection Hl3 as <- <-.
  apply orderby_ok in Hord as (_ & x & Hl4 & ->).
  rewrite lookup_insert_eq in Hl4. injection Hl4 as <-.
  rewrite lookup_insert_eq. eauto.
Qed.

Lemma clone_query o qd c h :
  h !! o = Some (OQuery qd c) ->
  clone o h = (Ok (fresh (dom h)), <[fresh (dom h) := OQuery qd None]> h).
Proof.
  intros Hl. unfold clone. simpl. unfold bind, get_obj. by rewrite Hl.
Qed.

(** Claim C5. For a cube built by the planner, the select template is a
    query without WHERE terms. In any store in which the template is as
    built, [query(p)] returns a new object (one that is not the template
    and not the result of an earlier call) holding the fields of the
    template with, as its WHERE list, the truthy terms of
    [active.predicate(p)] and nothing else; every object that was in the
    store, the template among them, is left as it was. The store after the
    call is again one in which the template is as built, so no call sees
    the terms of another. *)
Theorem C5_query_leaves_template clientQuery act indexCols schema h0 info h1 :
  dataCubeInfo clientQuery act indexCols schema h0 = (Ok info, h1) ->
  exists qd,
    h1 !! ci_select info = Some (OQuery qd None)
    /\ q_where qd = []
    /\ forall h gen p arg,
         h !! ci_select info = Some (OQuery qd None) ->
         a_predicate (ci_active info) = Some gen ->
         gen p = Ok arg ->
         let r := fresh (dom h) in
         let h' :=
           <[r := OQuery (with_where (filter (fun x => val_truthy x = true) (flat [arg])) qd)
                         None]> h in
         cube_query info p h = (Ok r, h')
         /\ h !! r = None
         /\ (forall o, o <> r -> h' !! o = h !! o)
         /\ h' !! ci_select info = Some (OQuery qd None).
Proof.
  unfold dataCubeInfo.
  intros (p & h1' & Hp & [-> ->]%ret_ok)%bind_ok.
  change (ci_select (new_DataCubeInfo p)) with (p_select p).
  change (ci_active (new_DataCubeInfo p)) with (p_active p).
  destruct (cubePlan_template _ _ _ _ _ _ _ Hp) as (qd & Hqd & Hwhere).
  exists qd. split; [done|]. split; [done|].
  intros h gen pr arg Hh Hgen Harg.
  set (r := fresh (dom h)).
  set (h' := <[r := _]> h).
  assert (h !! r = None) as Hr.
  { apply not_elem_of_dom, is_fresh. }
  assert (r <> p_select p) as Hne by congruence.
  split; [|split; [done|split]].
  - unfold cube_query. simpl. unfold bind at 1.
    rewrite (clone_query _ _ _ _ Hh). fold r.
    unfold bind at 1. rewrite Hgen. simpl.
    unfold bind at 1. rewrite Harg. simpl.
    unfold where_, bind, update_query. rewrite lookup_insert_eq. simpl.
    rewrite insert_insert_eq. unfold h'. by rewrite Hwhere.
  - intros o Ho. unfold h'. by rewrite lookup_insert_ne.
  - unfold h'. by rewrite lookup_insert_ne.
Qed.

End PlanFacts.

Section GraphFacts.

Lemma same_skeleton_refl h : same_skeleton h h.
Proof. done. Qed.

Lemma same_skeleton_trans h1 h2 h3 :
  same_skeleton h1 h2 -> same_skeleton h2 h3 -> same_skeleton h1 h3.
Proof. intros H12 H23 o. by rewrite H12. Qed.

Lemma same_skeleton_insert h o x x' :
  h !! o = Some x -> skeleton x' = skeleton x -> same_skeleton h (<[o := x']> h).
Proof.
  intros Hl Hs o'. rewrite lookup_insert. case_decide as Ho; [|done].
  subst. rewrite Hl. simpl. by rewrite Hs.
Qed.

Lemma same_skeleton_dom h h' : same_skeleton h h' -> dom h = dom h'.
Proof.
  intros Hs. apply set_eq. intros o. rewrite !elem_of_dom.
  specialize (Hs o). destruct (h !! o), (h' !! o); simpl in Hs;
    try discriminate; split; intros [? ?]; eauto; discriminate.
Qed.

Lemma skeleton_data x x' :
  skeleton x = skeleton x' ->
  obj_cteFor x = obj_cteFor x'
  /\ match x, x' with
     | OQuery q _, OQuery q' _ => q_from q = q_from q' /\ q_with q = q_with q'
     | OSetOp s _, OSetOp s' _ => so_queries s = so_queries s'
     | _, _ => False
     end.
Proof.
  destruct x as [q c|s c], x' as [q' c'|s' c']; simpl; intros Heq;
    inversion Heq; subst; auto.
Qed.

Lemma same_skeleton_subqueries h h' o :
  same_skeleton h h' -> subqueries_of h o = subqueries_of h' o.
Proof.
  intros Hs. unfold subqueries_of.
  pose proof (Hs o) as Ho.
  destruct (h !! o) as [x|], (h' !! o) as [x'|]; simpl in Ho; try discriminate; [|done].
  injection Ho as Ho. apply skeleton_data in Ho as [Hc Hd].
  destruct x as [q c|s c], x' as [q' c'|s' c']; try done; simpl in Hc; subst c'.
  - destruct Hd as [-> Hw].
    assert (cte_scope h q c = cte_scope h' q' c) as ->; [|done].
    unfold cte_scope. destruct c as [p|]; [|by rewrite Hw].
    pose proof (Hs p) as Hp.
    destruct (h !! p) as [y|], (h' !! p) as [y'|]; simpl in Hp; try discriminate; [|done].
    injection Hp as Hp. apply skeleton_data in Hp as [_ Hd'].
    destruct y, y'; try done. by destruct Hd' as [_ ->].
  - by rewrite Hd.
Qed.

Lemma same_skeleton_child h h' o c :
  same_skeleton h h' -> child h o c -> child h' o c.
Proof.
  intros Hs (l & Hl & Hin). exists l. by rewrite <- (same_skeleton_subqueries h h').
Qed.

Lemma same_skeleton_settled h h' :
  same_skeleton h h' -> settled h -> settled h'.
Proof.
  intros Hs Hst o x' Hx'.
  pose proof (Hs o) as Ho. rewrite Hx' in Ho.
  destruct (h !! o) as [x|] eqn:Hx; simpl in Ho; [|discriminate].
  injection Ho as Ho. pose proof (Hst _ _ Hx) as Hset.
  apply skeleton_data in Ho as [Hc Hd].
  destruct x as [q c|s c], x' as [q' c'|s' c']; try done; simpl in Hc; subst c'.
  simpl in *. destruct c as [p|]; [|done]. rewrite <- Hd.
  eapply Forall_impl; [exact Hset|]. simpl. intros m Hm y' Hy'.
  pose proof (Hs m) as Hsm. rewrite Hy' in Hsm.
  destruct (h !! m) as [y|] eqn:Hy; simpl in Hsm; [|discriminate].
  injection Hsm as Hsm. apply skeleton_data in Hsm as [Hcy _].
  rewrite <- Hcy. by apply Hm.
Qed.

(** On a settled store the getter has no effect. *)
Lemma settled_propagate h o : settled h -> propagate_cteFor h o = h.
Proof.
  intros Hst. unfold propagate_cteFor.
  destruct (h !! o) as [[q c|s [p|]]|] eqn:Ho; try done.
  pose proof (Hst _ _ Ho) as Hall. simpl in Hall.
  induction Hall as [|m ms Hm Hall IH]; [done|]. simpl.
  assert (alter (set_cteFor (Some p)) m h = h) as ->; [|done].
  apply map_eq. intros k. rewrite lookup_alter. case_decide as Hk; [|done].
  subst. destruct (h !! k) as [y|] eqn:Hy; [|done]. simpl. f_equal.
  specialize (Hm _ eq_refl). destruct y; simpl in *; by subst.
Qed.

Lemma subqueries_settled h o :
  settled h -> subqueries o h = (subqueries_of h o, h).
Proof. intros Hst. unfold subqueries. by rewrite settled_propagate. Qed.

(** A set of objects that is closed under [child] holds whatever is
    reachable from its members. *)
Lemma reachable_closed h (M : gset oid) r o :
  (forall x c, x ∈ M -> child h x c -> c ∈ M) ->
  r ∈ M -> reachable h r o -> o ∈ M.
Proof.
  intros Hclosed Hr Hreach. induction Hreach as [|x c d Hc _ IH]; [done|].
  apply IH. by eapply Hclosed.
Qed.

(** [select] with column names selects these columns. *)
Lemma select_list_columns old cols col :
  AStr col ∈ cols -> column_item col ∈ select_list old [Arr cols].
Proof.
  intros Hin. unfold select_list. apply elem_of_app. right.
  apply list_elem_of_filter. split; [done|].
  simpl. rewrite app_nil_r. apply list_elem_of_In, in_flat_map.
  exists (AStr col). split; [by apply list_elem_of_In|]. simpl. by left.
Qed.

End GraphFacts.

Section PushdownFacts.

Lemma pushed_lookup cols h h' x :
  h' !! x = h !! x -> pushed cols h x -> pushed cols h' x.
Proof.
  intros Hl Hp q c Hq Hfrom col Hcol. rewrite Hl in Hq.
  destruct (Hp q c Hq Hfrom col Hcol) as (q' & c' & Hq' & Hin).
  exists q', c'. by rewrite Hl.
Qed.

Lemma visited_refl cols h memo : visited cols h memo memo h.
Proof. repeat split; try done. Qed.

Lemma visited_trans cols h memo h1 memo1 h2 memo2 :
  visited cols h memo memo1 h1 -> visited cols h1 memo1 memo2 h2 ->
  visited cols h memo memo2 h2.
Proof.
  intros (Hs1 & Hsub1 & Hnew1 & Hfr1) (Hs2 & Hsub2 & Hnew2 & Hfr2).
  split; [by eapply same_skeleton_trans|]. split; [by etrans|]. split.
  - intros x Hx2 Hx. destruct (decide (x ∈ memo1)) as [Hx1|Hx1].
    + destruct (Hnew1 x Hx1 Hx) as (Hsome & Hp & Hc). split; [done|]. split.
      * eapply pushed_lookup; [|exact Hp]. apply Hfr2. by left.
      * intros c Hch. apply Hsub2. by apply Hc.
    + destruct (Hnew2 x Hx2 Hx1) as (Hsome & Hp & Hc). split; [|split; [done|]].
      * apply elem_of_dom. rewrite (same_skeleton_dom _ _ Hs1). by apply elem_of_dom.
      * intros c Hch. apply Hc. by eapply same_skeleton_child.
  - intros x Hx. rewrite Hfr2, Hfr1; [done|..].
    + destruct Hx as [?|Hx]; [by left|right]. intros ?. by apply Hx, Hsub2.
    + destruct Hx as [?|?]; [left|by right]. by apply Hsub1.
Qed.

Lemma foldM_visited cols (f : gset oid -> SubVal -> HM (gset oid)) :
  (forall memo q h memo' h',
     settled h -> f memo q h = (Ok memo', h') ->
     visited cols h memo memo' h' /\ forall o, q = SubObj o -> o ∈ memo') ->
  forall subs memo h memo' h',
    settled h -> hm_foldM f memo subs h = (Ok memo', h') ->
    visited cols h memo memo' h' /\ forall o, SubObj o ∈ subs -> o ∈ memo'.
Proof.
  intros Hf subs. induction subs as [|q subs IH]; intros memo h memo' h' Hst Hfold.
  - apply ret_ok in Hfold as [-> ->]. split; [apply visited_refl|].
    intros o Ho. by apply elem_of_nil in Ho.
  - simpl in Hfold. apply bind_ok in Hfold as (memo1 & h1 & Hq & Hrest).
    destruct (Hf _ _ _ _ _ Hst Hq) as [Hv1 Hin1].
    assert (settled h1) as Hst1.
    { eapply same_skeleton_settled; [|exact Hst]. apply Hv1. }
    destruct (IH _ _ _ _ Hst1 Hrest) as [Hv2 Hin2].
    split; [by eapply visited_trans|].
    intros o [Heq|Ho]%elem_of_cons; [|by apply Hin2].
    destruct Hv2 as (_ & Hsub & _). apply Hsub. by apply Hin1.
Qed.

Lemma pushdown_visited cols fuel :
  forall memo q h memo' h',
    settled h -> pushdown fuel cols memo q h = (Ok memo', h') ->
    visited cols h memo memo' h' /\ forall o, q = SubObj o -> o ∈ memo'.
Proof.
  induction fuel as [|fuel IH]; intros memo q h memo' h' Hst Hp; [done|].
  simpl in Hp. destruct q as [o|name]; [|done].
  destruct (decide (o ∈ memo)) as [Hin|Hnin].
  { apply ret_ok in Hp as [-> ->]. split; [apply visited_refl|].
    by intros ? [= <-]. }
  apply bind_ok in Hp as (x & h0 & Hx & Hp).
  unfold get_obj in Hx. destruct (h !! o) as [x0|] eqn:Ho; [|done].
  injection Hx as <- <-.
  apply bind_ok in Hp as (r & h1 & Hsel & Hp).
  assert (same_skeleton h h1
          /\ (forall y, y <> o -> h1 !! y = h !! y)
          /\ pushed cols h1 o) as (Hs1 & Hfr1 & Hpushed).
  { destruct x0 as [qd c|s c].
    - destruct (q_from qd) as [|f fs] eqn:Hfrom.
      + apply ret_ok in Hsel as [_ ->]. repeat split; try done.
        intros q' c' Hq' Hne. rewrite Ho in Hq'. by injection Hq' as <- <-.
      + apply select_ok in Hsel as (_ & q' & c' & Hq' & ->).
        rewrite Ho in Hq'. injection Hq' as <- <-. split; [|split].
        * by eapply same_skeleton_insert.
        * intros y Hy. by rewrite lookup_insert_ne.
        * intros q' c' Hq' _ col Hcol. exists q', c'. split; [done|].
          rewrite lookup_insert_eq in Hq'. injection Hq' as <- <-. simpl.
          by apply select_list_columns.
    - apply ret_ok in Hsel as [_ ->]. repeat split; try done.
      intros q' c' Hq'. by rewrite Ho in Hq'. }
  assert (settled h1) as Hst1 by (by eapply same_skeleton_settled).
  apply bind_ok in Hp as (subs & h1' & Hsubs & Hfold).
  rewrite subqueries_settled in Hsubs by done. injection Hsubs as Hsubs <-.
  destruct (foldM_visited cols _ IH _ _ _ _ _ Hst1 Hfold) as [Hv Hchildren].
  destruct Hv as (Hs2 & Hsub2 & Hnew2 & Hfr2).
  assert (o ∈ memo') as Ho'.
  { apply Hsub2, elem_of_union_l. by apply elem_of_singleton. }
  split; [|by intros ? [= <-]].
  split; [by eapply same_skeleton_trans|]. split.
  { intros y Hy. by apply Hsub2, elem_of_union_r. }
  split.
  - intros y Hy' Hy. destruct (decide (y = o)) as [->|Hne].
    + split; [by rewrite Ho|]. split.
      * eapply pushed_lookup; [|exact Hpushed]. apply Hfr2. left.
        apply elem_of_union_l. by apply elem_of_singleton.
      * intros c (l & Hl & Hc). apply Hchildren.
        rewrite (same_skeleton_subqueries h h1) in Hl by done.
        rewrite Hl in Hsubs. by injection Hsubs as <-.
    + destruct (Hnew2 y Hy') as (Hsome & Hp & Hc).
      { intros [?%elem_of_singleton|?]%elem_of_union; done. }
      split; [by rewrite <- Hfr1|]. split; [done|].
      intros c Hch. apply Hc. by eapply same_skeleton_child.
  - intros y Hy. assert (y <> o) as Hne.
    { intros ->. by destruct Hy as [?|Hy]. }
    rewrite Hfr2, Hfr1; [done..|].
    destruct Hy as [?|?]; [left|by right]. by apply elem_of_union_r.
Qed.

End PushdownFacts.

Section PushdownFuel.

Lemma bind_throw {A B} (m : HM A) (k : A -> HM B) h e h' :
  bind m k h = (Throw e, h') ->
  m h = (Throw e, h') \/ exists a h1, m h = (Ok a, h1) /\ k a h1 = (Throw e, h').
Proof.
  unfold bind. destruct (m h) as [[a|e0] h1]; [eauto|]. intros [= <- <-]. by left.
Qed.

Lemma res_mapM_throw {A B} (f : A -> Res B) l e :
  (forall x e', f x = Throw e' -> e' = TypeError) ->
  res_mapM f l = Throw e -> e = TypeError.
Proof.
  intros Hf. induction l as [|x l IH]; [done|]. simpl.
  destruct (f x) as [y|e'] eqn:Hx; simpl.
  - destruct (res_mapM f l); simpl; [done|]. intros [= <-]. by apply IH.
  - intros [= <-]. by eapply Hf.
Qed.

Lemma subqueries_of_throw h o e : subqueries_of h o = Throw e -> e = TypeError.
Proof.
  unfold subqueries_of. destruct (h !! o) as [[q c|s c]|]; [| |by intros [= <-]]; [|done].
  destruct (cte_scope h q c) as [ctes|e'] eqn:Hscope; simpl.
  - destruct (res_mapM _ _) as [l|e'] eqn:Hm; simpl; [done|]. intros [= <-].
    eapply res_mapM_throw; [|exact Hm].
    intros f e''. unfold from_subquery.
    destruct (from_src f); [done|]. destruct ctes; [done|]. by intros [= <-].
  - intros [= <-]. unfold cte_scope in Hscope.
    destruct c as [p|]; [|done]. destruct (h !! p) as [[]|]; try done.
    by injection Hscope as <-.
Qed.

Lemma size_visit (D memo : gset oid) o :
  o ∈ D -> o ∉ memo -> size (D ∖ memo) = S (size (D ∖ ({[o]} ∪ memo))).
Proof.
  intros Ho Hn.
  assert (D ∖ memo = {[o]} ∪ D ∖ ({[o]} ∪ memo)) as ->.
  { apply set_eq. intros x. rewrite elem_of_union, !elem_of_difference,
      elem_of_union, elem_of_singleton.
    destruct (decide (x = o)) as [->|Hne].
    - split; [by left|by intros _].
    - split.
      + intros [Hx Hx']. right. split; [done|]. by intros [?|?].
      + intros [?|[Hx Hx']]; [done|]. split; [done|]. intros ?. apply Hx'. by right. }
  rewrite size_union, size_singleton; [done|].
  intros x Hx%elem_of_singleton [_ Hx']%elem_of_difference. subst.
  apply Hx', elem_of_union_l. by apply elem_of_singleton.
Qed.

Lemma foldM_fuel cols (f : gset oid -> SubVal -> HM (gset oid)) (n : nat) :
  (forall memo q h memo' h',
     settled h -> f memo q h = (Ok memo', h') ->
     visited cols h memo memo' h' /\ forall o, q = SubObj o -> o ∈ memo') ->
  (forall memo q h e h',
     settled h -> size (dom h ∖ memo) < n -> f memo q h = (Throw e, h') ->
     e = TypeError) ->
  forall subs memo h e h',
    settled h -> size (dom h ∖ memo) < n ->
    hm_foldM f memo subs h = (Throw e, h') -> e = TypeError.
Proof.
  intros Hok Hthrow subs. induction subs as [|q subs IH]; intros memo h e h' Hst Hn; [done|].
  simpl. intros [Hq|(memo1 & h1 & Hq & Hrest)]%bind_throw.
  - by eapply Hthrow.
  - destruct (Hok _ _ _ _ _ Hst Hq) as [(Hs & Hsub & _) _].
    eapply (IH memo1 h1); [by eapply same_skeleton_settled| |exact Hrest].
    rewrite <- (same_skeleton_dom _ _ Hs).
    eapply Nat.le_lt_trans; [|exact Hn]. apply subseteq_size.
    intros x [Hx Hx']%elem_of_difference. apply elem_of_difference.
    split; [done|]. intros ?. by apply Hx', Hsub.
Qed.

(** The recursion of [pushdown] is no deeper than the number of objects
    it has not visited: with that much call stack it never overflows. *)
Lemma pushdown_fuel cols fuel :
  forall memo q h e h',
    settled h -> size (dom h ∖ memo) < fuel ->
    pushdown fuel cols memo q h = (Throw e, h') -> e = TypeError.
Proof.
  induction fuel as [|fuel IH]; intros memo q h e h' Hst Hn Hp; [lia|].
  simpl in Hp. destruct q as [o|name]; [|by injection Hp as <-].
  destruct (decide (o ∈ memo)) as [Hin|Hnin]; [done|].
  apply bind_throw in Hp as [Hx|(x & h0 & Hx & Hp)].
  { unfold get_obj in Hx. destruct (h !! o); [done|]. by injection Hx as <-. }
  unfold get_obj in Hx. destruct (h !! o) as [x0|] eqn:Ho; [|done].
  injection Hx as <- <-.
  assert (exists h1, (forall e1 h1', match x0 with
            | OQuery qd _ => match q_from qd with
                             | [] => ret o
                             | _ :: _ => select o [Arr cols]
                             end
            | OSetOp _ _ => ret o
            end h <> (Throw e1, h1'))
          /\ forall r h1', match x0 with
            | OQuery qd _ => match q_from qd with
                             | [] => ret o
                             | _ :: _ => select o [Arr cols]
                             end
            | OSetOp _ _ => ret o
            end h = (Ok r, h1') -> h1' = h1 /\ same_skeleton h h1) as (h1 & Hnothrow & Hsel).
  { destruct x0 as [qd c|s c]; [destruct (q_from qd) eqn:Hfrom|].
    - exists h. split; [done|]. by intros r h1' [_ ->]%ret_ok.
    - exists (<[o := OQuery (with_select (select_list (q_select qd) [Arr cols]) qd) c]> h).
      split.
      + intros e1 h1'. unfold select, bind, update_query. by rewrite Ho.
      + intros r h1' Hs. pose proof Hs as (_ & q' & c' & Hq' & ->)%select_ok.
        rewrite Ho in Hq'. injection Hq' as <- <-.
        split; [done|]. by eapply same_skeleton_insert.
    - exists h. split; [done|]. by intros r h1' [_ ->]%ret_ok. }
  apply bind_throw in Hp as [Hp|(r & h1' & Hr & Hp)]; [by apply Hnothrow in Hp|].
  apply Hsel in Hr as [-> Hs1].
  assert (settled h1) as Hst1 by (by eapply same_skeleton_settled).
  apply bind_throw in Hp as [Hp|(subs & h2 & Hsubs & Hp)].
  { rewrite subqueries_settled in Hp by done. injection Hp as Hp _.
    by eapply subqueries_of_throw. }
  rewrite subqueries_settled in Hsubs by done. injection Hsubs as Hsubs <-.
  eapply (foldM_fuel cols _ fuel (pushdown_visited cols fuel) IH); [exact Hst1| |exact Hp].
  rewrite <- (same_skeleton_dom _ _ Hs1).
  rewrite (size_visit (dom h) memo o) in Hn; [lia| |done].
  apply elem_of_dom. by rewrite Ho.
Qed.

Lemma subqueryPushdown_no_overflow q cols h e h' :
  settled h -> subqueryPushdown q cols h = (Throw e, h') -> e = TypeError.
Proof.
  intros Hst. unfold subqueryPushdown.
  destruct (pushdown _ _ _ _ _) as [[memo|e0] h0] eqn:Hp; [done|].
  intros [= <- <-]. eapply pushdown_fuel; [exact Hst| |exact Hp].
  rewrite difference_empty_L, size_dom. lia.
Qed.

End PushdownFuel.

Section PlanPushdown.
Context `{!SqlLib} `{!Hash}.

Lemma pushed_same_select cols h h' o :
  (forall q c, h' !! o = Some (OQuery q c) ->
     exists q0, h !! o = Some (OQuery q0 c)
                /\ q_select q0 = q_select q /\ q_from q0 = q_from q) ->
  pushed cols h o -> pushed cols h' o.
Proof.
  intros Hsame Hp q c Hq Hfrom col Hcol.
  destruct (Hsame q c Hq) as (q0 & Hq0 & Hsel & Hfr).
  destruct (Hp q0 c Hq0) with (col := col) as (q1 & c1 & Hq1 & Hin); [congruence|done|].
  rewrite Hq0 in Hq1. injection Hq1 as <- <-.
  exists q, c. split; [done|]. by rewrite <- Hsel.
Qed.

Lemma orderby_assign_ok o l h h' :
  orderby_assign o l h = (Ok tt, h') ->
  exists x, h !! o = Some x
    /\ h' = <[o := match x with
                   | OQuery q c => OQuery (with_orderby l q) c
                   | OSetOp s c => OSetOp (so_with_orderby l s) c
                   end]> h.
Proof.
  unfold orderby_assign. destruct (h !! o) as [[q c|s c]|]; try discriminate;
    intros [= <-]; eauto.
Qed.

Lemma reachable_same_skeleton h h' r o :
  same_skeleton h h' -> reachable h r o -> reachable h' r o.
Proof.
  intros Hs Hr. induction Hr as [|x c d Hc _ IH]; [by constructor|].
  eapply reach_step; [|exact IH]. by eapply same_skeleton_child.
Qed.

Lemma same_skeleton_sym h h' : same_skeleton h h' -> same_skeleton h' h.
Proof. intros Hs o. by rewrite Hs. Qed.

(** The push-down stays below its starting points: whatever it adds to
    [memo] is reachable from the object it was called on. *)
Lemma foldM_within cols (f : gset oid -> SubVal -> HM (gset oid)) :
  (forall memo q h memo' h',
     settled h -> f memo q h = (Ok memo', h') ->
     visited cols h memo memo' h'
     /\ forall x, x ∈ memo' -> x ∈ memo \/ exists o, q = SubObj o /\ reachable h o x) ->
  forall subs memo h memo' h',
    settled h -> hm_foldM f memo subs h = (Ok memo', h') ->
    same_skeleton h h'
    /\ forall x, x ∈ memo' ->
         x ∈ memo \/ exists o, SubObj o ∈ subs /\ reachable h o x.
Proof.
  intros Hf subs. induction subs as [|q subs IH]; intros memo h memo' h' Hst Hfold.
  - apply ret_ok in Hfold as [-> ->]. split; [done|]. intros x Hx. by left.
  - simpl in Hfold. apply bind_ok in Hfold as (memo1 & h1 & Hq & Hrest).
    destruct (Hf _ _ _ _ _ Hst Hq) as [(Hs1 & _) Hin1].
    assert (settled h1) as Hst1 by (by eapply same_skeleton_settled).
    destruct (IH _ _ _ _ Hst1 Hrest) as [Hs2 Hin2].
    split; [by eapply same_skeleton_trans|].
    intros x Hx. destruct (Hin2 x Hx) as [Hx1|(o & Ho & Hr)].
    + destruct (Hin1 x Hx1) as [?|(o & -> & Hr)]; [by left|right].
      exists o. split; [apply elem_of_cons; by left|done].
    + right. exists o. split; [apply elem_of_cons; by right|].
      eapply reachable_same_skeleton; [|exact Hr]. by apply same_skeleton_sym.
Qed.

Lemma pushdown_within cols fuel :
  forall memo q h memo' h',
    settled h -> pushdown fuel cols memo q h = (Ok memo', h') ->
    visited cols h memo memo' h'
    /\ forall x, x ∈ memo' -> x ∈ memo \/ exists o, q = SubObj o /\ reachable h o x.
Proof.
  induction fuel as [|fuel IH]; intros memo q h memo' h' Hst Hp; [done|].
  split; [by eapply pushdown_visited|].
  simpl in Hp. destruct q as [o|name]; [|done].
  destruct (decide (o ∈ memo)) as [Hin|Hnin].
  { apply ret_ok in Hp as [-> ->]. intros x Hx. by left. }
  apply bind_ok in Hp as (x0 & h0 & Hx & Hp).
  unfold get_obj in Hx. destruct (h !! o) as [x1|] eqn:Ho; [|done].
  injection Hx as <- <-.
  apply bind_ok in Hp as (r & h1 & Hsel & Hp).
  assert (same_skeleton h h1) as Hs1.
  { destruct x1 as [qd c|s c].
    - destruct (q_from qd) as [|f fs] eqn:Hfrom.
      + by apply ret_ok in Hsel as [_ ->].
      + apply select_ok in Hsel as (_ & q' & c' & Hq' & ->).
        rewrite Ho in Hq'. injection Hq' as <- <-. by eapply same_skeleton_insert.
    - by apply ret_ok in Hsel as [_ ->]. }
  assert (settled h1) as Hst1 by (by eapply same_skeleton_settled).
  apply bind_ok in Hp as (subs & h1' & Hsubs & Hfold).
  rewrite subqueries_settled in Hsubs by done. injection Hsubs as Hsubs <-.
  destruct (foldM_within cols _ IH _ _ _ _ _ Hst1 Hfold) as [_ Hin].
  intros x Hx. destruct (Hin x Hx) as [[->%elem_of_singleton|?]%elem_of_union|(c & Hc & Hr)].
  - right. exists o. split; [done|apply reach_here].
  - by left.
  - right. exists o. split; [done|]. eapply reach_step.
    + exists subs. split; [|exact Hc]. by rewrite (same_skeleton_subqueries h h1).
    + eapply reachable_same_skeleton; [|exact Hr]. by apply same_skeleton_sym.
Qed.

(** What the push-down reaches. For every cube the planner builds, the
    base columns that the active columns refer to are added to the SELECT
    list of the first subquery of the augmented query and of every
    subquery reachable from it (through FROM entries that are queries, and
    FROM references resolved against the WITH list in scope), whenever
    that subquery is a query with a non-empty FROM list. Stated for a
    store in which the set operations that are common table expressions
    have handed their owner down to their members. *)
Lemma pushdown_below_first_subquery
    clientQuery act indexCols schema h info h' first rest o :
  settled h ->
  dataCubeInfo clientQuery act indexCols schema h = (Ok info, h') ->
  subqueries_of h clientQuery = Ok (SubObj first :: rest) ->
  reachable h first o ->
  pushed (base_columns (default [] (a_columns act))) h' o.
Proof.
  intros Hst Hinfo Hsubs0 Hreach.
  unfold dataCubeInfo in Hinfo.
  apply bind_ok in Hinfo as (p & h1' & Hp & [_ ->]%ret_ok).
  apply cubePlan_steps in Hp
    as (columns & ha & hb & subs & hc & order & hd & sel0 & he & hf & hg & hh
        & Hcols & Hsel & Hgrp & Hsubs & Hpush & _ & Hassign & _ & Hss & Hfrom
        & Hgrp2 & Hord & _).
  rewrite Hcols. simpl.
  (* the augmented query *)
  apply select_ok in Hsel as (_ & q1 & c1 & Hq1 & ->).
  apply groupby_ok in Hgrp as (_ & q2 & c2 & Hq2 & ->).
  rewrite lookup_insert_eq in Hq2. injection Hq2 as <- <-.
  rewrite insert_insert_eq in *.
  set (hb := <[clientQuery := _]> h) in *.
  assert (same_skeleton h hb) as Hsk by (by eapply same_skeleton_insert).
  assert (settled hb) as Hstb by (by eapply same_skeleton_settled).
  rewrite subqueries_settled in Hsubs by done. injection Hsubs as Hsubs <-.
  rewrite <- (same_skeleton_subqueries h hb), Hsubs0 in Hsubs by done.
  injection Hsubs as <-.
  (* the push-down *)
  unfold subqueryPushdown in Hpush.
  destruct (pushdown _ _ _ _ _) as [[memo|e] hd0] eqn:Hpd; [|done].
  injection Hpush as ->.
  destruct (pushdown_visited _ _ _ _ _ _ _ Hstb Hpd) as [(Hsk2 & _ & Hnew & _) Hfirst].
  assert (o ∈ memo) as Ho.
  { eapply (reachable_closed hb memo first).
    - intros x c Hx Hc. destruct (Hnew x Hx) as (_ & _ & Hcl); [|by apply Hcl].
      apply not_elem_of_empty.
    - by apply Hfirst.
    - by eapply reachable_same_skeleton. }
  destruct (Hnew o Ho) as (Hsome & Hpushed & _); [apply not_elem_of_empty|].
  (* the ORDER BY list is reset, and the template is a new object *)
  apply orderby_assign_ok in Hassign as (x & Hx & ->).
  unfold static_select in Hss.
  apply bind_ok in Hss as (s & hf0 & (_ & Hfresh & ->)%alloc_ok & Hsel2).
  apply select_ok in Hsel2 as (-> & q3 & c3 & _ & ->).
  apply from_ok in Hfrom as (_ & q4 & c4 & _ & ->).
  apply groupby_ok in Hgrp2 as (_ & q5 & c5 & _ & ->).
  apply orderby_ok in Hord as (_ & x6 & _ & ->).
  set (he := <[clientQuery := _]> hd) in *.
  assert (is_Some (he !! o)) as Hsome'.
  { apply elem_of_dom. unfold he. rewrite dom_insert_L. apply elem_of_union_r.
    rewrite <- (same_skeleton_dom _ _ Hsk2). by apply elem_of_dom. }
  assert (o <> s) as Hne.
  { intros ->. rewrite Hfresh in Hsome'. by destruct Hsome'. }
  eapply pushed_lookup; [|eapply (pushed_same_select _ hd he); [|exact Hpushed]].
  - by rewrite !lookup_insert_ne.
  - intros q c. unfold he. rewrite lookup_insert. case_decide as Hoc; [|eauto].
    subst o. destruct x as [q0 c0|s0 c0]; [|done]. intros [= <- <-]. eauto.
Qed.

(** What the plan leaves alone: every object that the first subquery
    does not lead to, the client query apart. *)
Lemma plan_leaves_the_rest clientQuery act indexCols schema h info h' first rest o :
  settled h ->
  dataCubeInfo clientQuery act indexCols schema h = (Ok info, h') ->
  subqueries_of h clientQuery = Ok (SubObj first :: rest) ->
  is_Some (h !! o) -> o <> clientQuery -> ~ reachable h first o ->
  h' !! o = h !! o.
Proof.
  intros Hst Hinfo Hsubs0 Hsome Hne Hnot.
  unfold dataCubeInfo in Hinfo.
  apply bind_ok in Hinfo as (p & h1' & Hp & [_ ->]%ret_ok).
  apply cubePlan_steps in Hp
    as (columns & ha & hb & subs & hc & order & hd & sel0 & he & hf & hg & hh
        & Hcols & Hsel & Hgrp & Hsubs & Hpush & _ & Hassign & _ & Hss & Hfrom
        & Hgrp2 & Hord & _).
  apply select_ok in Hsel as (_ & q1 & c1 & Hq1 & ->).
  apply groupby_ok in Hgrp as (_ & q2 & c2 & Hq2 & ->).
  rewrite lookup_insert_eq in Hq2. injection Hq2 as <- <-.
  rewrite insert_insert_eq in *.
  set (hb := <[clientQuery := _]> h) in *.
  assert (same_skeleton h hb) as Hsk by (by eapply same_skeleton_insert).
  assert (settled hb) as Hstb by (by eapply same_skeleton_settled).
  rewrite subqueries_settled in Hsubs by done. injection Hsubs as Hsubs <-.
  rewrite <- (same_skeleton_subqueries h hb), Hsubs0 in Hsubs by done.
  injection Hsubs as <-.
  unfold subqueryPushdown in Hpush.
  destruct (pushdown _ _ _ _ _) as [[memo|e] hd0] eqn:Hpd; [|done].
  injection Hpush as ->.
  destruct (pushdown_within _ _ _ _ _ _ _ Hstb Hpd) as [(Hsk2 & _ & _ & Hframe) Hin].
  assert (o ∉ memo) as Ho.
  { intros Ho. destruct (Hin o Ho) as [Hempty|(o' & [= <-] & Hr)].
    - by apply not_elem_of_empty in Hempty.
    - apply Hnot. eapply reachable_same_skeleton; [|exact Hr].
      by apply same_skeleton_sym. }
  apply orderby_assign_ok in Hassign as (x & Hx & ->).
  unfold static_select in Hss.
  apply bind_ok in Hss as (s & hf0 & (_ & Hfresh & ->)%alloc_ok & Hsel2).
  apply select_ok in Hsel2 as (-> & q3 & c3 & _ & ->).
  apply from_ok in Hfrom as (_ & q4 & c4 & _ & ->).
  apply groupby_ok in Hgrp2 as (_ & q5 & c5 & _ & ->).
  apply orderby_ok in Hord as (_ & x6 & _ & ->).
  set (he := <[clientQuery := _]> hd) in *.
  assert (is_Some (he !! o)) as Hsome'.
  { apply elem_of_dom. unfold he. rewrite dom_insert_L. apply elem_of_union_r.
    rewrite <- (same_skeleton_dom _ _ Hsk2), <- (same_skeleton_dom _ _ Hsk).
    by apply elem_of_dom. }
  assert (o <> s) as Hns.
  { intros ->. rewrite Hfresh in Hsome'. by destruct Hsome'. }
  rewrite !lookup_insert_ne by done. unfold he.
  rewrite lookup_insert_ne by done. rewrite Hframe by (by right).
  unfold hb. by rewrite lookup_insert_ne.
Qed.

(** Claim C1, where the code leaves it. The planner hands the first
    subquery of the augmented query to the push-down, and no other. On a
    store in which the set operations that are common table expressions
    have handed their owner down to their members, a cube that the
    planner builds has the base columns of the active columns in the
    SELECT list of every query with a non-empty FROM list that is
    reachable from that first subquery; every other object of the store
    but the client query is exactly as it was, so a later subquery of
    the augmented query that the first does not lead to keeps its SELECT
    list without these columns. *)
Theorem C1_only_first_subquery_is_pushed
    clientQuery act indexCols schema h info h' first rest :
  settled h ->
  dataCubeInfo clientQuery act indexCols schema h = (Ok info, h') ->
  subqueries_of h clientQuery = Ok (SubObj first :: rest) ->
  (forall o, reachable h first o ->
     pushed (base_columns (default [] (a_columns act))) h' o)
  /\ (forall o, is_Some (h !! o) -> o <> clientQuery -> ~ reachable h first o ->
        h' !! o = h !! o).
Proof.
  intros Hst Hinfo Hsubs. split.
  - intros o Hr. by eapply pushdown_below_first_subquery.
  - intros o Hsome Hne Hnot. by eapply plan_leaves_the_rest.
Qed.

End PlanPushdown.

Section DemoPlans.
Import Demo.

Lemma demo_heap4_settled : settled demo_heap4.
Proof.
  intros o x. revert o x. apply map_Forall_to_list.
  let l := eval vm_compute in (map_to_list demo_heap4) in
  change (map_to_list demo_heap4) with l.
  repeat constructor.
Qed.

Lemma demo_cube4_ok :
  dataCubeInfo demo_q4 demo_active demo_cols "mosaic" demo_heap4
  = (Ok demo_info4, demo_heap4').
Proof. vm_compute. reflexivity. Qed.

Lemma demo_second_unreachable : ~ reachable demo_heap4 1 2.
Proof.
  intros Hr.
  assert (2 ∈ ({[0; 1]} : gset oid)) as Hin.
  { eapply (reachable_closed demo_heap4 _ 1 2); [|by apply elem_of_union_r, elem_of_singleton|exact Hr].
    intros x c [->%elem_of_singleton| ->%elem_of_singleton]%elem_of_union (l & Hl & Hc).
    - vm_compute in Hl. injection Hl as <-. by apply elem_of_nil in Hc.
    - vm_compute in Hl. injection Hl as <-.
      apply elem_of_cons in Hc as [[= ->]|Hc]; [|by apply elem_of_nil in Hc].
      by apply elem_of_union_l, elem_of_singleton. }
  apply elem_of_union in Hin as [Hin|Hin]; apply elem_of_singleton in Hin; discriminate.
Qed.

Lemma C1_witness :
  settled demo_heap4
  /\ dataCubeInfo demo_q4 demo_active demo_cols "mosaic" demo_heap4
     = (Ok demo_info4, demo_heap4')
  /\ base_columns (default [] (a_columns demo_active)) = [AStr "category"]
  /\ subqueries_of demo_heap4 demo_q4 = Ok [SubObj 1; SubObj 2]
  /\ reachable demo_heap4 1 0
  /\ selects demo_heap4' 0 "category"
  /\ ~ reachable demo_heap4 1 2
  /\ (exists qd, demo_heap4' !! 2 = Some (OQuery qd None)
                 /\ q_from qd <> [] /\ q_select qd = [column_item "k"])
  /\ ~ pushed (base_columns (default [] (a_columns demo_active))) demo_heap4' 2.
Proof.
  assert (reachable demo_heap4 1 0) as Hreach.
  { eapply reach_step; [|apply reach_here].
    exists [SubObj 0]. split; [vm_compute; reflexivity|]. apply elem_of_cons. by left. }
  assert (subqueries_of demo_heap4 demo_q4 = Ok [SubObj 1; SubObj 2]) as Hsubs
    by (vm_compute; reflexivity).
  assert (base_columns (default [] (a_columns demo_active)) = [AStr "category"]) as Hcols
    by (vm_compute; reflexivity).
  destruct (C1_only_first_subquery_is_pushed demo_q4 demo_active demo_cols "mosaic"
              demo_heap4 demo_info4 demo_heap4' 1 [SubObj 2]
              demo_heap4_settled demo_cube4_ok Hsubs) as [Hbelow Hrest].
  assert (exists qd, demo_heap4' !! 2 = Some (OQuery qd None)
                     /\ q_from qd <> [] /\ q_select qd = [column_item "k"])
    as (qd & Hqd & Hfrom & Hsel).
  { assert (exists qd, demo_heap4 !! 2 = Some (OQuery qd None)
                       /\ q_from qd <> [] /\ q_select qd = [column_item "k"])
      as (qd & Hqd & Hfrom & Hsel).
    { eexists. split; [vm_compute; reflexivity|]. by split. }
    assert (demo_q4 = 3) as Hq4 by (vm_compute; reflexivity).
    exists qd. split; [|split; [exact Hfrom|exact Hsel]]. rewrite <- Hqd. apply Hrest.
    - eexists. exact Hqd.
    - rewrite Hq4. discriminate.
    - exact demo_second_unreachable. }
  split; [exact demo_heap4_settled|]. split; [exact demo_cube4_ok|].
  split; [exact Hcols|]. split; [exact Hsubs|]. split; [exact Hreach|]. split.
  { assert (exists q0, demo_heap4' !! 0 = Some (OQuery q0 None) /\ q_from q0 <> [])
      as (q0 & Hq0 & Hfrom0).
    { eexists. split; [vm_compute; reflexivity|]. done. }
    apply (Hbelow 0 Hreach q0 None Hq0 Hfrom0 "category").
    rewrite Hcols. apply elem_of_cons. by left. }
  split; [exact demo_second_unreachable|].
  split; [exists qd; split; [exact Hqd|split; [exact Hfrom|exact Hsel]]|].
  intros Hpushed.
  destruct (Hpushed qd None Hqd Hfrom "category") as (q & c & Hq & Hin).
  { rewrite Hcols. apply elem_of_cons. by left. }
  assert (Some (OQuery q c) = Some (OQuery qd None)) as [= -> ->]
    by (etrans; [symmetry; exact Hq|exact Hqd]).
  rewrite Hsel in Hin. apply (list_elem_of_fmap_2 sel_as) in Hin.
  assert (sel_as (column_item "category") ∉ sel_as <$> [column_item "k"]) as Hnot.
  { apply (bool_decide_eq_false_1 _). vm_compute. reflexivity. }
  by apply Hnot.
Defined.

(** On a store that is not settled the push-down misses even objects
    that the first subquery leads to. The members of the union u get the
    owner of u when the getter of u is read, and from then on resolve
    their FROM names against the WITH list of that owner: the common
    table expression x of the first member is no longer found. The cube
    is built, its first member selects the column category from x, and x
    still selects a alone. *)
Lemma demo_union_member_scope :
  subqueries_of demo_heap_u demo_uq = Ok [SubObj 10]
  /\ child demo_heap_u 10 8 /\ child demo_heap_u 8 2
  /\ dataCubeInfo demo_uq demo_active demo_cols "mosaic" demo_heap_u
     = (Ok demo_info_u, demo_heap_u')
  /\ selects demo_heap_u' 8 "category"
  /\ (exists qd, demo_heap_u' !! 2 = Some (OQuery qd (Some 1))
                 /\ q_from qd <> [] /\ q_select qd = [column_item "a"]).
Proof.
  split; [vm_compute; reflexivity|]. split.
  { exists [SubObj 8; SubObj 9]. split; [vm_compute; reflexivity|].
    apply elem_of_cons. by left. }
  split.
  { exists [SubObj 2]. split; [vm_compute; reflexivity|]. apply elem_of_cons. by left. }
  split; [vm_compute; reflexivity|]. split.
  { eexists _, _. split; [vm_compute; reflexivity|].
    apply elem_of_cons. right. apply elem_of_cons. by left. }
  eexists. split; [vm_compute; reflexivity|]. by split.
Qed.

Lemma C8_witness :
  demo_run_plan ∅ = (Ok demo_plan_a, (demo_run_plan ∅).2)
  /\ demo_run_plan (demo_run_plan ∅).2
     = (Ok demo_plan_b, (demo_run_plan (demo_run_plan ∅).2).2)
  /\ p_select demo_plan_a <> p_select demo_plan_b
  /\ p_id demo_plan_a = p_id demo_plan_b
  /\ p_table demo_plan_a = p_table demo_plan_b.
Proof.
  assert (demo_run_plan ∅ = (Ok demo_plan_a, (demo_run_plan ∅).2)) as Hp1
    by (vm_compute; reflexivity).
  assert (demo_run_plan (demo_run_plan ∅).2
          = (Ok demo_plan_b, (demo_run_plan (demo_run_plan ∅).2).2)) as Hp2
    by (vm_compute; reflexivity).
  split; [exact Hp1|]. split; [exact Hp2|].
  split; [vm_compute; discriminate|].
  destruct (C8_same_create_same_id_and_table _ _ _ _ _ _ _ _ _ _ _ _ _ Hp1 Hp2)
    as (_ & Hid & Htable & _); [vm_compute; reflexivity|].
  by split.
Defined.

Lemma C5_witness :
  exists qd ra rb,
    demo_heap4' !! ci_select demo_info4 = Some (OQuery qd None)
    /\ q_where qd = []
    /\ demo_query_a.1 = Ok ra /\ demo_query_b.1 = Ok rb
    /\ ra <> rb /\ ra <> ci_select demo_info4 /\ rb <> ci_select demo_info4
    /\ demo_query_b.2 !! ci_select demo_info4 = Some (OQuery qd None)
    /\ demo_query_b.2 !! ra
       = Some (OQuery (with_where [VExpr (SqlExpr "category = 'a'" ["category"])] qd) None)
    /\ demo_query_b.2 !! rb
       = Some (OQuery (with_where [VExpr (SqlExpr "category = 'b'" ["category"])] qd) None).
Proof.
  pose proof (C5_query_leaves_template demo_q4 demo_active demo_cols "mosaic"
                demo_heap4 demo_info4 demo_heap4' demo_cube4_ok) as Hc.
  destruct Hc as (qd & Hqd & Hwhere & Hquery).
  pose (gen := fun x : option ClausePred =>
          Ok (One (match x with Some p => VExpr (cp_expr p) | None => VUndefined end)
              : Arg Val)).
  assert (a_predicate (ci_active demo_info4) = Some gen) as Hgen
    by (vm_compute; reflexivity).
  pose (ea := SqlExpr "category = 'a'" ["category"]).
  pose (eb := SqlExpr "category = 'b'" ["category"]).
  pose proof (Hquery demo_heap4' gen (demo_pred "'a'") (One (VExpr ea)) Hqd Hgen eq_refl)
    as (Ha & Hfresh_a & _ & Htmpl_a).
  change (filter _ (flat [One (VExpr ea)])) with [VExpr ea] in Ha, Htmpl_a.
  set (ra := fresh (dom demo_heap4')) in *.
  set (ha := <[ra := OQuery (with_where [VExpr ea] qd) None]> demo_heap4') in *.
  pose proof (Hquery ha gen (demo_pred "'b'") (One (VExpr eb)) Htmpl_a Hgen eq_refl)
    as (Hb & Hfresh_b & _ & Htmpl_b).
  change (filter _ (flat [One (VExpr eb)])) with [VExpr eb] in Hb, Htmpl_b.
  set (rb := fresh (dom ha)) in *.
  set (hb := <[rb := OQuery (with_where [VExpr eb] qd) None]> ha) in *.
  assert (demo_query_a = (Ok ra, ha)) as Hqa by exact Ha.
  assert (demo_query_b = (Ok rb, hb)) as Hqb.
  { unfold demo_query_b. rewrite Hqa. exact Hb. }
  assert (ra <> rb) as Hne.
  { intros Heq. rewrite <- Heq in Hfresh_b. unfold ha in Hfresh_b.
    rewrite lookup_insert_eq in Hfresh_b. discriminate Hfresh_b. }
  exists qd, ra, rb. rewrite Hqa, Hqb.
  split; [exact Hqd|]. split; [exact Hwhere|].
  split; [reflexivity|]. split; [reflexivity|]. split; [exact Hne|].
  split; [intros Heq; rewrite <- Heq, Hfresh_a in Hqd; discriminate Hqd|].
  split; [intros Heq; rewrite <- Heq, Hfresh_b in Htmpl_a; discriminate Htmpl_a|].
  split; [exact Htmpl_b|]. split.
  - change ((Ok rb, hb).2) with hb. unfold hb.
    rewrite lookup_insert_ne by (intros Heq; apply Hne; by symmetry).
    unfold ha. apply lookup_insert_eq.
  - change ((Ok rb, hb).2) with hb. unfold hb. apply lookup_insert_eq.
Defined.

End DemoPlans.

(* ===================================================================== *)
(** * Properties of the indexer *)
(* ===================================================================== *)

Section IndexerFacts.
Context `{!SqlLib} `{!Scales} `{!Hash} `{!Host}.

Lemma strict_eq_refl_truthy v : truthy v = true -> strict_eq v v = true.
Proof.
  destruct v as [| |b|x|s|o]; simpl; try done.
  - by destruct b.
  - unfold is_nan. intros Hx. apply negb_true_iff, orb_false_iff in Hx as [_ Hx].
    by apply negb_false_iff in Hx.
  - intros _. apply String.eqb_refl.
  - intros _. apply Nat.eqb_refl.
Qed.

Lemma strict_eq_null v : strict_eq v JNull = true -> v = JNull.
Proof. by destruct v. Qed.

(** The analyzer keeps the source of the clause or reports null. *)
Lemma activeColumns_source cl a :
  activeColumns cl = Ok a -> a_source a = cl_source cl \/ a_source a = JNull.
Proof.
  unfold activeColumns. intros Ha.
  repeat match type of Ha with
  | context [match ?x with _ => _ end] => destruct x eqn:?; simpl in Ha
  | context [if ?x then _ else _] => destruct x eqn:?; simpl in Ha
  | res_bind ?m _ = _ => destruct m eqn:?; simpl in Ha
  end; try discriminate; inversion Ha; subst; simpl; auto.
Qed.

Lemma index_disabled client sel cl st w :
  truthy (_enabled st) = false -> index client sel cl st w = (Ok ENull, st, w).
Proof. intros He. unfold index. by rewrite He. Qed.

Lemma index_no_source client sel cl st w :
  truthy (cl_source cl) = false -> index client sel cl st w = (Ok ENull, st, w).
Proof. intros Hs. unfold index. rewrite Hs. by destruct (truthy (_enabled st)). Qed.

Lemma build_cube_submitted client sel src act ic schema w info w' :
  build_cube client sel src act ic schema w = (Ok info, w') ->
  submitted schema w w' info.
Proof.
  unfold build_cube, submitted.
  destruct (bind _ _ _) as [[i|e] h]; simpl; [|done].
  by intros [= <- <-].
Qed.

Lemma build_cube_throws client sel src act ic schema w e w' :
  build_cube client sel src act ic schema w = (Throw e, w') ->
  w_log w' = w_log w.
Proof.
  unfold build_cube.
  destruct (bind _ _ _) as [[i|e'] h]; simpl; [done|].
  by intros [= <- <-].
Qed.

Lemma entered_schema cl st : _schema (entered cl st) = _schema st.
Proof. unfold entered. by destruct (source_changed cl st). Qed.

Lemma entered_enabled cl st : _enabled (entered cl st) = _enabled st.
Proof. unfold entered. by destruct (source_changed cl st). Qed.

Lemma index_outcomes client sel cl st w r st' w' :
  truthy (_enabled st) = true -> truthy (cl_source cl) = true ->
  index client sel cl st w = (r, st', w') ->
  index_outcome client cl (entered cl st) w r st' w'.
Proof.
  intros He Hs. unfold index, entered, source_changed. rewrite He, Hs. simpl.
  assert (forall a' st0 (Hst0 : _schema st0 = _schema st),
    indexes st0 !! client = None ->
    (active st0 = Some a' /\ strict_eq (a_source a') (cl_source cl) = true
     \/ active st0 = None /\ activeColumns cl = Ok a' /\ a_source a' = cl_source cl) ->
    forall st2,
    (active st0 = Some a' /\ st2 = st0 \/ active st0 = None /\ st2 = assign_active a' st0) ->
    match indexColumns client with
    | Some indexCols =>
        if selection_skip sel client cl
        then (Ok ESkip, set_index client ESkip st2, w)
        else
          let (r0, w'0) :=
            build_cube client sel (cl_source cl) a' indexCols (_schema st) w in
          match r0 with
          | Ok info => (Ok (ECube info), set_index client (ECube info) st2, w'0)
          | Throw e0 => (Throw e0, st2, w'0)
          end
    | None => (Ok ENull, set_index client ENull st2, w)
    end = (r, st', w') ->
    index_outcome client cl st0 w r st' w') as Hstore.
  { intros a' st0 Hst0 Hlk Hcase st2 Hst2.
    assert (active st0 = Some a' /\ strict_eq (a_source a') (cl_source cl) = true
              /\ st2 = st0
            \/ active st0 = None /\ activeColumns cl = Ok a'
               /\ a_source a' = cl_source cl /\ st2 = assign_active a' st0) as Hc.
    { destruct Hcase as [[Ha ?]|(Ha & ? & ?)], Hst2 as [[Ha' ?]|[Ha' ?]];
        try congruence; [left|right]; by repeat split. }
    destruct (indexColumns client) as [ic|].
    2:{ intros [= <- <- <-]. eapply out_store; eauto. done. }
    destruct (selection_skip sel client cl).
    { intros [= <- <- <-]. eapply out_store; eauto. done. }
    destruct (build_cube _ _ _ _ _ _ _) as [[info|e] w1] eqn:Hb.
    - intros [= <- <- <-]. eapply out_store; eauto. simpl. rewrite Hst0.
      by eapply build_cube_submitted.
    - intros [= <- <- <-]. eapply out_build_throws; eauto.
      by eapply build_cube_throws. }
  destruct (active st) as [a|] eqn:Hact.
  - destruct (strict_eq (a_source a) (cl_source cl)) eqn:Hsrc; simpl.
    + rewrite Hact.
      destruct (strict_eq (a_source a) JNull) eqn:Hnull.
      { apply strict_eq_null in Hnull. rewrite Hnull in Hsrc.
        destruct (cl_source cl); simpl in *; congruence. }
      destruct (indexes st !! client) as [e|] eqn:Hlk.
      { intros [= <- <- <-]. by eapply out_hit. }
      apply (Hstore a st); auto.
    + destruct (activeColumns cl) as [a'|e] eqn:Hac; simpl.
      2:{ intros [= <- <- <-]. by apply out_analysis_throws. }
      destruct (strict_eq (a_source a') JNull) eqn:Hnull.
      { intros [= <- <- <-]. apply out_unindexable; auto. by apply strict_eq_null. }
      assert (a_source a' = cl_source cl) as Hsa.
      { destruct (activeColumns_source _ _ Hac) as [?|Hn]; [done|].
        by rewrite Hn in Hnull. }
      rewrite lookup_empty.
      apply (Hstore a' (clear st)); auto.
  - simpl. rewrite ?Hact.
    destruct (activeColumns cl) as [a'|e] eqn:Hac; simpl.
    2:{ intros [= <- <- <-]. by apply out_analysis_throws. }
    destruct (strict_eq (a_source a') JNull) eqn:Hnull.
    { intros [= <- <- <-]. apply out_unindexable; auto. by apply strict_eq_null. }
    assert (a_source a' = cl_source cl) as Hsa.
    { destruct (activeColumns_source _ _ Hac) as [?|Hn]; [done|].
      by rewrite Hn in Hnull. }
    destruct (indexes st !! client) as [e|] eqn:Hlk.
    { intros [= <- <- <-]. by eapply out_hit_fresh. }
    apply (Hstore a' st); auto.
Qed.

(** A call for a client with an entry under the cached source returns the
    entry and touches nothing. *)
Lemma index_hit client sel cl st w a e :
  truthy (_enabled st) = true -> truthy (cl_source cl) = true ->
  active st = Some a -> strict_eq (a_source a) (cl_source cl) = true ->
  indexes st !! client = Some e ->
  index client sel cl st w = (Ok e, st, w).
Proof.
  intros He Hs Ha Hsrc Hlk. unfold index. rewrite He, Hs, Ha, Hsrc. simpl.
  rewrite Ha.
  destruct (strict_eq (a_source a) JNull) eqn:Hnull.
  { apply strict_eq_null in Hnull. rewrite Hnull in Hsrc.
    destruct (cl_source cl); simpl in *; congruence. }
  by rewrite Hlk.
Qed.

(** A call on a state that remembers the clause as not indexable clears,
    analyzes again and comes to the same conclusion. *)
Lemma index_unindexable_again client sel cl st w a a' :
  truthy (_enabled st) = true -> truthy (cl_source cl) = true ->
  active st = Some a -> a_source a = JNull ->
  activeColumns cl = Ok a' -> a_source a' = JNull ->
  index client sel cl st w = (Ok ENull, assign_active a' (clear st), w).
Proof.
  intros He Hs Ha Hnull Hac Hnull'.
  assert (strict_eq JNull (cl_source cl) = false) as Hne.
  { destruct (cl_source cl); simpl in *; congruence. }
  unfold index. rewrite He, Hs, Ha, Hnull, Hne. simpl.
  rewrite Hac. simpl. by rewrite Hnull'.
Qed.

Lemma index_keeps_flags client sel cl st w r st' w' :
  index client sel cl st w = (r, st', w') ->
  _enabled st' = _enabled st /\ _schema st' = _schema st.
Proof.
  intros Hi.
  destruct (truthy (_enabled st)) eqn:He.
  2:{ rewrite index_disabled in Hi by done. by inversion Hi. }
  destruct (truthy (cl_source cl)) eqn:Hs.
  2:{ rewrite index_no_source in Hi by done. by inversion Hi. }
  apply index_outcomes in Hi; [|done..].
  rewrite <- (entered_enabled cl st), <- (entered_schema cl st).
  destruct Hi; try done;
    match goal with
    | Hc : _ \/ _ |- _ => by destruct Hc as [(? & ? & ->)|(? & ? & ? & ->)]
    end.
Qed.

(** ** The disabled indexer *)

Lemma set_enabled_idle v st : idle st -> idle (set_enabled v st).
Proof.
  unfold idle, set_enabled. intros Hst.
  destruct (strict_eq (_enabled st) v); simpl; [done|].
  destruct (truthy v) eqn:Hv; simpl; [congruence|done].
Qed.

Lemma step_idle c st w st' w' :
  idle st -> step c (st, w) = (st', w') -> idle st'.
Proof.
  intros Hst. destruct c as [client sel cl| |v|s|]; simpl.
  - destruct (index client sel cl st w) as [[r st1] w1] eqn:Hi.
    intros [= <- <-]. intros He.
    destruct (index_keeps_flags _ _ _ _ _ _ _ _ Hi) as [Hen _].
    rewrite Hen in He. rewrite index_disabled in Hi by done.
    inversion Hi; subst. by apply Hst.
  - by intros [= <- <-].
  - intros [= <- <-]. by apply set_enabled_idle.
  - intros [= <- <-]. unfold set_schema. by destruct (String.eqb _ _).
  - by intros [= <- <-].
Qed.

Lemma run_cons c calls sw : run (c :: calls) sw = run calls (step c sw).
Proof. done. Qed.

Lemma run_idle calls st w st' w' :
  idle st -> run calls (st, w) = (st', w') -> idle st'.
Proof.
  revert st w. induction calls as [|c calls IH]; intros st w Hst.
  - by intros [= <- <-].
  - rewrite run_cons. destruct (step c (st, w)) as [st1 w1] eqn:Hstep.
    apply IH. by eapply step_idle.
Qed.

(** Claim C3. An indexer whose enabled flag is falsy (false in particular),
    in any state it can reach from its constructor through [index],
    [clear], the two setters and [dropIndexTables], has no cached analysis
    and an empty [indexes] map, and [index] returns null for any
    arguments without touching anything. The setter, given a falsy value
    that differs from the flag, clears the caches and then assigns the
    flag; so setting the flag to false always leaves a disabled, empty
    indexer. *)
Theorem C3_disabled_indexer_is_idle :
  (forall schema enabled calls w0 st w,
     run calls (new_indexer schema enabled, w0) = (st, w) ->
     truthy (_enabled st) = false ->
     active st = None /\ indexes st = ∅ /\
     forall client sel cl w', index client sel cl st w' = (Ok ENull, st, w'))
  /\ (forall st v,
        truthy v = false -> strict_eq (_enabled st) v = false ->
        set_enabled v st = assign_enabled v (clear st))
  /\ (forall schema enabled calls w0 st w,
        run calls (new_indexer schema enabled, w0) = (st, w) ->
        _enabled (set_enabled (JBool false) st) = JBool false
        /\ active (set_enabled (JBool false) st) = None
        /\ indexes (set_enabled (JBool false) st) = ∅).
Proof.
  assert (forall schema enabled, idle (new_indexer schema enabled)) as Hnew.
  { by intros schema enabled _. }
  split; [|split].
  - intros schema enabled calls w0 st w Hrun He.
    destruct (run_idle _ _ _ _ _ (Hnew schema enabled) Hrun He) as [Ha Hi].
    repeat split; [done..|]. intros. by apply index_disabled.
  - intros st v Hv Hne. unfold set_enabled. by rewrite Hne, Hv.
  - intros schema enabled calls w0 st w Hrun.
    pose proof (run_idle _ _ _ _ _ (Hnew schema enabled) Hrun) as Hidle.
    unfold set_enabled.
    destruct (strict_eq (_enabled st) (JBool false)) eqn:Heq; simpl; [|done].
    assert (_enabled st = JBool false) as Hen.
    { destruct (_enabled st) as [| |[]| | |]; simpl in Heq; congruence. }
    destruct Hidle as [? ?]; [by rewrite Hen|]. by rewrite Hen.
Qed.

(** ** A falsy source *)

(** Claim C10. On an enabled indexer, a clause whose source is falsy (0,
    the empty string, false, NaN, undefined, and null as well) makes
    [index] return null and leaves the [indexes] map, the cached analysis
    and the world as they were: the guard tests falsiness, not equality
    with null. *)
Theorem C10_falsy_source_is_ignored client sel cl st w :
  truthy (_enabled st) = true ->
  truthy (cl_source cl) = false ->
  index client sel cl st w = (Ok ENull, st, w).
Proof. intros _ Hs. by apply index_no_source. Qed.

(** ** Calling [index] twice *)

(** Claim C2. When [index] has returned a value (a cube, [Skip] or null),
    the same call repeated on the state and world it left returns that
    very value and leaves the world as it is: nothing more is submitted to
    the coordinator and no query object is created. *)
Theorem C2_index_twice_returns_cached client sel cl st w r st1 w1 :
  index client sel cl st w = (Ok r, st1, w1) ->
  exists st2, index client sel cl st1 w1 = (Ok r, st2, w1).
Proof.
  intros Hi.
  destruct (truthy (_enabled st)) eqn:He.
  2:{ rewrite index_disabled in Hi by done. inversion Hi; subst.
      exists st1. by apply index_disabled. }
  destruct (truthy (cl_source cl)) eqn:Hs.
  2:{ rewrite index_no_source in Hi by done. inversion Hi; subst.
      exists st1. by apply index_no_source. }
  pose proof (index_keeps_flags _ _ _ _ _ _ _ _ Hi) as [Hen _].
  rewrite <- Hen in He.
  apply index_outcomes in Hi; [|by rewrite <- Hen|done].
  inversion Hi; subst.
  - eexists. by eapply index_hit.
  - eexists. eapply index_unindexable_again; eauto.
  - eexists. eapply index_hit; eauto.
    match goal with Hsrc : a_source _ = cl_source _ |- _ => rewrite Hsrc end.
    by apply strict_eq_refl_truthy.
  - match goal with
    | Hc : _ \/ _ |- _ =>
        destruct Hc as [(Ha & Hsrc & ->)|(Ha & Hac & Hsrc & ->)]
    end.
    + eexists. eapply index_hit; eauto. simpl. by rewrite lookup_insert_eq.
    + eexists. eapply index_hit; eauto; simpl.
      * rewrite Hsrc. by apply strict_eq_refl_truthy.
      * by rewrite lookup_insert_eq.
Qed.

(** ** A changed source *)

(** Claim C4, first half, as the code has it: past the two guards, a call
    whose clause has another source than the cached analysis behaves as
    the same call on the cleared state. *)
Lemma index_source_changed client sel cl st w :
  truthy (_enabled st) = true -> truthy (cl_source cl) = true ->
  source_changed cl st = true ->
  index client sel cl st w = index client sel cl (clear st) w.
Proof.
  unfold source_changed. intros He Hs Hch.
  destruct (active st) as [a|] eqn:Ha; [|done].
  unfold index. simpl. rewrite He, Hs, Ha, Hch. by simpl.
Qed.

Lemma attributed_no_active st g :
  attributed st g -> active st = None -> g = ∅ /\ forall k, indexes st !! k = None.
Proof.
  intros [Hdom Hsrc] Ha.
  assert (g = ∅) as ->.
  { apply map_empty. intros k. destruct (g !! k) as [src|] eqn:Hk; [|done].
    destruct (Hsrc _ _ Hk) as (a & Ha' & _). congruence. }
  split; [done|]. intros k. apply not_elem_of_dom. rewrite <- Hdom. set_solver.
Qed.

Lemma attributed_lookup st g k :
  attributed st g -> is_Some (g !! k) <-> is_Some (indexes st !! k).
Proof. intros [Hdom _]. by rewrite <- !elem_of_dom, Hdom. Qed.

Lemma attributed_keep (st st' : State) g :
  attributed st g ->
  (indexes st' = indexes st /\ active st' = active st) \/ indexes st' = ∅ ->
  attributed st' (filter (fun kv => kv.1 ∈ dom (indexes st')) g).
Proof.
  intros [Hdom Hsrc] Hcase. split.
  - apply set_eq. intros k. rewrite elem_of_dom. unfold is_Some.
    setoid_rewrite map_lookup_filter_Some. simpl.
    destruct Hcase as [[Hi Ha]|Hi]; rewrite Hi.
    + rewrite <- Hdom. split.
      * by intros (v & _ & Hin).
      * intros Hin. pose proof Hin as [v Hv]%elem_of_dom. eauto.
    + rewrite dom_empty_L. split; [intros (v & _ & Hin)|intros Hin];
        by apply not_elem_of_empty in Hin.
  - intros k src [Hk Hin]%map_lookup_filter_Some. simpl in Hin.
    destruct Hcase as [[Hi Ha]|Hi].
    + rewrite Ha. eauto.
    + rewrite Hi, dom_empty_L in Hin. by apply not_elem_of_empty in Hin.
Qed.

Lemma attributed_entered cl st g :
  attributed st g ->
  attributed (entered cl st) (if source_changed cl st then ∅ else g).
Proof.
  unfold entered. destruct (source_changed cl st); [|done].
  intros _. split; simpl; [by rewrite !dom_empty_L|].
  intros k src. by rewrite lookup_empty.
Qed.

Lemma step_attributed c st w st' w' g :
  attributed st g -> step c (st, w) = (st', w') ->
  attributed st' (track c st st' g).
Proof.
  intros Hg. destruct c as [client sel cl| |v|s|]; simpl.
  - destruct (index client sel cl st w) as [[r st1] w1] eqn:Hi.
    intros [= <- <-].
    assert (forall st0 g0, attributed st0 g0 -> st1 = st0 ->
              attributed st1 match indexes st1 !! client, g0 !! client with
                             | Some _, None => <[client := cl_source cl]> g0
                             | _, _ => g0
                             end) as Hsame.
    { intros st0 g0 Hg0 ->.
      pose proof (attributed_lookup _ _ client Hg0) as Hlk.
      destruct (indexes st0 !! client), (g0 !! client); try done.
      destruct Hlk as [_ Hlk]. by destruct Hlk. }
    destruct (truthy (_enabled st)) eqn:He.
    2:{ rewrite index_disabled in Hi by done. inversion Hi; subst.
        simpl. by eapply Hsame. }
    destruct (truthy (cl_source cl)) eqn:Hs.
    2:{ rewrite index_no_source in Hi by done. inversion Hi; subst.
        simpl. by eapply Hsame. }
    simpl. apply index_outcomes in Hi; [|done..].
    pose proof (attributed_entered cl _ _ Hg) as Hg0.
    set (g0 := if source_changed cl st then ∅ else g) in *.
    set (st0 := entered cl st) in *. clearbody g0 st0.
    inversion Hi; subst.
    + by apply (Hsame st1 g0).
    + by apply (Hsame st1 g0).
    + destruct (attributed_no_active _ _ Hg0) as [-> Hnone]; [done|].
      simpl. rewrite Hnone.
      split; simpl; [|intros k src; by rewrite lookup_empty].
      rewrite dom_empty_L. symmetry. apply dom_empty_iff_L, map_empty, Hnone.
    + destruct (attributed_no_active _ _ Hg0) as [_ Hnone]; [done|]. congruence.
    + match goal with
      | Hc : _ \/ _ |- _ =>
          destruct Hc as [(Ha & Hsrc & ->)|(Ha & Hac & Hsrc & ->)]
      end.
      * simpl. rewrite lookup_insert_eq.
        assert (g0 !! client = None) as ->.
        { destruct (g0 !! client) eqn:Hk; [|done].
          apply (attributed_lookup _ _ client) in Hg0.
          destruct Hg0 as [Hg0 _]. destruct Hg0; [eauto|congruence]. }
        destruct Hg0 as [Hdom Hall]. split; simpl.
        -- by rewrite !dom_insert_L, Hdom.
        -- intros k src. rewrite lookup_insert. case_decide.
           ++ intros [= <-]. eauto.
           ++ apply Hall.
      * destruct (attributed_no_active _ _ Hg0) as [-> Hnone]; [done|].
        simpl. rewrite lookup_insert_eq, lookup_empty.
        split; simpl.
        -- rewrite !dom_insert_L. f_equal. rewrite dom_empty_L. symmetry.
           apply dom_empty_iff_L, map_empty, Hnone.
        -- intros k src. rewrite lookup_insert. case_decide; [|by rewrite lookup_empty].
           intros [= <-]. eexists. split; [done|].
           rewrite Hsrc. by apply strict_eq_refl_truthy.
    + match goal with
      | Hc : _ \/ _ |- _ =>
          destruct Hc as [(Ha & Hsrc & ->)|(Ha & Hac & Hsrc & ->)]
      end.
      * by apply (Hsame st0 g0).
      * destruct (attributed_no_active _ _ Hg0) as [-> Hnone]; [done|].
        simpl. rewrite Hnone.
        split; simpl; [|intros k src; by rewrite lookup_empty].
        rewrite dom_empty_L. symmetry. apply dom_empty_iff_L, map_empty, Hnone.
  - intros [= <- <-]. eapply attributed_keep; [exact Hg|]. by right.
  - intros [= <- <-]. eapply attributed_keep; [exact Hg|].
    unfold set_enabled. destruct (strict_eq _ _); simpl; [by left|].
    destruct (truthy v); simpl; [by left|by right].
  - intros [= <- <-]. eapply attributed_keep; [exact Hg|].
    unfold set_schema. destruct (String.eqb _ _); simpl; [by left|by right].
  - intros [= <- <-]. eapply attributed_keep; [exact Hg|]. by right.
Qed.

Lemma run_tracked_cons c calls st w g :
  run_tracked (c :: calls) (st, w, g)
  = run_tracked calls (let '(st', w') := step c (st, w) in (st', w', track c st st' g)).
Proof. done. Qed.

Lemma run_attributed calls st w g st' w' g' :
  attributed st g -> run_tracked calls (st, w, g) = (st', w', g') ->
  attributed st' g'.
Proof.
  revert st w g. induction calls as [|c calls IH]; intros st w g Hg.
  - by intros [= <- <- <-].
  - rewrite run_tracked_cons. destruct (step c (st, w)) as [st1 w1] eqn:Hstep.
    apply IH. by eapply step_attributed.
Qed.

Lemma entered_clear cl st : entered cl (clear st) = clear st.
Proof. done. Qed.

(** Claim C4, as amended. On an enabled indexer, a call of [index] whose
    clause has a truthy source other than that of the cached analysis
    behaves as the same call on the cleared state: the caches are emptied
    first and the clause is analyzed afresh, so that afterwards [indexes]
    holds at most the entry of the calling client and [active] is the new
    analysis. Hence, in every state the indexer reaches from its
    constructor, the cached analysis has the source of every clause that
    populated [indexes]. (A call with a falsy source returns before the
    comparison and clears nothing: claim C10.) *)
Theorem C4_changed_source_clears_first :
  (forall client sel cl st w a,
     truthy (_enabled st) = true -> truthy (cl_source cl) = true ->
     active st = Some a -> strict_eq (a_source a) (cl_source cl) = false ->
     index client sel cl st w = index client sel cl (clear st) w
     /\ forall r st' w',
          index client sel cl st w = (r, st', w') ->
          (forall k, k <> client -> indexes st' !! k = None)
          /\ (forall a', activeColumns cl = Ok a' -> active st' = Some a'))
  /\ (forall schema enabled calls w0 st w g,
        run_tracked calls (new_indexer schema enabled, w0, ∅) = (st, w, g) ->
        dom g = dom (indexes st)
        /\ forall k src, g !! k = Some src ->
             exists a, active st = Some a /\ strict_eq (a_source a) src = true).
Proof.
  split.
  - intros client sel cl st w a He Hs Ha Hne.
    assert (source_changed cl st = true) as Hch.
    { unfold source_changed. by rewrite Ha, Hne. }
    split; [by apply index_source_changed|].
    intros r st' w'. rewrite index_source_changed by done. intros Hi.
    apply index_outcomes in Hi; [|done..]. rewrite entered_clear in Hi.
    inversion Hi; subst; simpl in *; try done.
    + split; [intros; apply lookup_empty|congruence].
    + split; [intros; apply lookup_empty|congruence].
    + match goal with
      | Hc : _ \/ _ |- _ =>
          destruct Hc as [(? & ? & ->)|(? & Hac & ? & ->)]; [done|]
      end.
      split; simpl; [|congruence].
      intros k Hk. by rewrite lookup_insert_ne, lookup_empty.
    + match goal with
      | Hc : _ \/ _ |- _ =>
          destruct Hc as [(? & ? & ->)|(? & Hac & ? & ->)]; [done|]
      end.
      split; simpl; [intros; apply lookup_empty|congruence].
  - intros schema enabled calls w0 st w g Hrun.
    eapply run_attributed; [|exact Hrun].
    split; [by rewrite !dom_empty_L|]. intros k src. by rewrite lookup_empty.
Qed.

(** ** Dropping the index tables *)

(** Claim C9. [dropIndexTables] clears the local state (afterwards the
    [indexes] map is empty and no analysis is cached; the schema and the
    enabled flag stay), appends exactly one request to the log of the
    coordinator, the single statement DROP SCHEMA IF EXISTS with the
    schema name in double quotes and CASCADE, and returns the promise of
    that request. An [index] call that follows and returns a cube has
    submitted one batch more: CREATE SCHEMA IF NOT EXISTS with the schema
    name as it is, and after it the statement that creates the table. *)
Theorem C9_drop_then_rebuild st w :
  let drop :=
    "DROP SCHEMA IF EXISTS " +:+ dquote +:+ _schema st +:+ dquote +:+ " CASCADE" in
  let dropped := {| w_heap := w_heap w; w_log := w_log w ++ [ExecOne drop] |} in
  dropIndexTables st w = (length (w_log w), clear st, dropped)
  /\ w_log dropped !! length (w_log w) = Some (ExecOne drop)
  /\ indexes (clear st) = ∅ /\ active (clear st) = None
  /\ _schema (clear st) = _schema st /\ _enabled (clear st) = _enabled st
  /\ forall client sel cl info st' w',
       index client sel cl (clear st) dropped = (Ok (ECube info), st', w') ->
       w_log w' = (w_log dropped
                    ++ [ExecBatch ["CREATE SCHEMA IF NOT EXISTS " +:+ _schema st;
                                   create (ci_table info) (ci_create info)]])%list
       /\ ci_result info = Some (length (w_log dropped)).
Proof.
  intros drop dropped.
  split; [reflexivity|]. split; [apply list_lookup_middle; reflexivity|].
  split; [done|]. split; [done|]. split; [done|]. split; [done|].
  intros client sel cl info st' w' Hi.
  destruct (truthy (_enabled (clear st))) eqn:He.
  2:{ by rewrite index_disabled in Hi by done. }
  destruct (truthy (cl_source cl)) eqn:Hs.
  2:{ by rewrite index_no_source in Hi by done. }
  apply index_outcomes in Hi; [|done..]. rewrite entered_clear in Hi.
  inversion Hi; subst; simpl in *; done.
Qed.

End IndexerFacts.

Section DemoRuns.
Import Demo.

Lemma C10_witness :
  truthy (_enabled demo_state) = true /\ truthy (JNum 0) = false
  /\ indexes demo_state !! 1 = Some demo_entry
  /\ index 1 sel0 (point_clause (JNum 0)) demo_state demo_world
     = (Ok ENull, demo_state, demo_world).
Proof.
  split; [vm_compute; reflexivity|]. split; [vm_compute; reflexivity|].
  split; [vm_compute; reflexivity|].
  apply C10_falsy_source_is_ignored; vm_compute; reflexivity.
Defined.

Lemma C2_witness :
  demo_first = (Ok demo_entry, demo_state, demo_world)
  /\ (exists info, demo_entry = ECube info)
  /\ exists st2,
       index 1 sel0 (point_clause (JStr "S")) demo_state demo_world
       = (Ok demo_entry, st2, demo_world).
Proof.
  split; [vm_compute; reflexivity|].
  split; [eexists; vm_compute; reflexivity|].
  apply (C2_index_twice_returns_cached 1 sel0 (point_clause (JStr "S"))
           (new_indexer None None) world0).
  vm_compute; reflexivity.
Defined.

Lemma C4_counterexample :
  exists a,
    active demo_state = Some a
    /\ strict_eq (a_source a) JNull = false
    /\ strict_eq (a_source a) (JNum 0) = false
    /\ indexes demo_state !! 1 = Some demo_entry
    /\ index 1 sel0 (point_clause (JNum 0)) demo_state demo_world
       = (Ok ENull, demo_state, demo_world)
    /\ index 1 sel0 (point_clause (JNum 0)) demo_state demo_world
       <> index 1 sel0 (point_clause (JNum 0)) (clear demo_state) demo_world.
Proof.
  eexists. split; [vm_compute; reflexivity|].
  split; [vm_compute; reflexivity|]. split; [vm_compute; reflexivity|].
  split; [vm_compute; reflexivity|].
  assert (index 1 sel0 (point_clause (JNum 0)) demo_state demo_world
          = (Ok ENull, demo_state, demo_world)) as Hi.
  { apply index_no_source. vm_compute; reflexivity. }
  split; [exact Hi|]. rewrite Hi, index_no_source by (vm_compute; reflexivity).
  intros Heq. apply (f_equal (fun r => active r.1.2)) in Heq.
  vm_compute in Heq. discriminate.
Defined.

Lemma C4_witness :
  let cl := point_clause (JStr "T") in
  exists a,
    active demo_state = Some a /\ strict_eq (a_source a) (cl_source cl) = false
    /\ index 1 sel0 cl demo_state demo_world = index 1 sel0 cl (clear demo_state) demo_world.
Proof.
  intros cl. eexists. split; [vm_compute; reflexivity|].
  split; [vm_compute; reflexivity|].
  eapply (proj1 C4_changed_source_clears_first 1 sel0 cl demo_state demo_world);
    vm_compute; reflexivity.
Defined.

Lemma C3_witness :
  let st := (run demo_calls (new_indexer None None, world0)).1 in
  truthy (_enabled st) = false /\ active st = None /\ indexes st = ∅.
Proof.
  intros st.
  assert (truthy (_enabled st) = false) as He by (vm_compute; reflexivity).
  destruct (proj1 C3_disabled_indexer_is_idle None None demo_calls world0 st
              (run demo_calls (new_indexer None None, world0)).2)
    as (Ha & Hi & _); [by destruct (run _ _)|exact He|].
  by repeat split.
Defined.

Lemma C9_witness :
  demo_rebuild = (Ok (ECube demo_rebuilt), demo_rebuild.1.2, demo_rebuild.2)
  /\ w_log demo_rebuild.2
     = [ExecBatch ["CREATE SCHEMA IF NOT EXISTS mosaic";
                   create (ci_table demo_rebuilt) (ci_create demo_rebuilt)];
        ExecOne ("DROP SCHEMA IF EXISTS " +:+ dquote +:+ "mosaic" +:+ dquote
                   +:+ " CASCADE");
        ExecBatch ["CREATE SCHEMA IF NOT EXISTS mosaic";
                   create (ci_table demo_rebuilt) (ci_create demo_rebuilt)]]
  /\ ci_result demo_rebuilt = Some 2.
Proof.
  assert (demo_rebuild = (Ok (ECube demo_rebuilt), demo_rebuild.1.2, demo_rebuild.2))
    as Hre by (vm_compute; reflexivity).
  split; [exact Hre|].
  destruct (C9_drop_then_rebuild demo_state demo_world) as (_ & _ & _ & _ & _ & _ & Hlog).
  destruct (Hlog _ _ _ _ _ _ Hre) as [-> ->].
  split; vm_compute; reflexivity.
Defined.

End DemoRuns.

(* ===================================================================== *)
(** * Properties of the query builder *)
(* ===================================================================== *)

Section BuilderFacts.

(** ** [unquote] *)

Lemma last_char_snoc s c : last_char (s +:+ String c "") = Some c.
Proof.
  induction s as [|d s IH]; [done|].
  change (last_char (String d (s +:+ String c "")) = Some c).
  simpl. rewrite IH. by destruct s.
Qed.

Lemma drop_last_snoc s c : drop_last (s +:+ String c "") = s.
Proof.
  induction s as [|d s IH]; [done|].
  change (drop_last (String d (s +:+ String c "")) = String d s).
  simpl. rewrite IH. by destruct s.
Qed.

Lemma snoc_last s c : last_char s = Some c -> drop_last s +:+ String c "" = s.
Proof.
  induction s as [|d s IH]; [done|]. destruct s as [|e s].
  - by intros [= ->].
  - intros Hl. change (String d (drop_last (String e s) +:+ String c "") = String d (String e s)).
    f_equal. by apply IH.
Qed.

(** Property X1. [unquote] undoes the quoting of a name, whatever the name
    holds, and changes a string only by taking off one pair of enclosing
    double quotes; the one string it shortens otherwise is the lone double
    quote, which is its own first and last character and becomes empty. *)
Theorem X1_unquote_round_trip :
  (forall s, unquote (quoted s) = s)
  /\ (forall s, unquote s = s \/ quoted (unquote s) = s \/ (s = dquote /\ unquote s = "")).
Proof.
  split.
  - intros s. unfold unquote, isDoubleQuoted, quoted, dquote.
    change (String "034" "" +:+ s +:+ String "034" "")
      with (String "034" (s +:+ String "034" "")).
    assert (last_char (String "034" (s +:+ String "034" "")) = Some "034"%char) as ->.
    { change (String "034" (s +:+ String "034" ""))
        with (String "034" s +:+ String "034" "").
      apply last_char_snoc. }
    simpl. apply drop_last_snoc.
  - intros s. unfold unquote. destruct (isDoubleQuoted s) eqn:Hq; [|by left].
    right. unfold isDoubleQuoted in Hq. destruct s as [|c s]; [done|].
    apply andb_true_iff in Hq as [Hc Hl]. apply Ascii.eqb_eq in Hc as ->.
    destruct (last_char (String "034" s)) as [d|] eqn:Hlast; [|done].
    apply Ascii.eqb_eq in Hl as ->.
    destruct s as [|e s]; [by right|]. left.
    unfold quoted, dquote.
    change (String "034" (drop_last (String e s) +:+ String "034" "") = String "034" (String e s)).
    f_equal. by apply snoc_last.
Qed.

(** ** [select] *)

Lemma select_list_idem old args :
  select_list (select_list old args) args = select_list old args.
Proof.
  unfold select_list.
  set (new := flat_map select_items (flat args)).
  set (keys := map sel_as new).
  rewrite filter_app, list_filter_filter_l by done.
  assert (filter (fun x => sel_as x ∉ keys)
            (filter (fun x => val_truthy (sel_expr x) = true) new) = []) as ->;
    [|by rewrite app_nil_r].
  assert (forall l, (forall x, x ∈ l -> sel_as x ∈ keys) ->
            filter (fun x : SelItem => sel_as x ∉ keys) l = []) as Hnone.
  { induction l as [|x l IH]; intros Hl; [done|].
    rewrite filter_cons_False.
    - apply IH. intros y Hy. apply Hl. by right.
    - intros Hx. apply Hx, Hl. by left. }
  apply Hnone. intros x [_ Hx]%list_elem_of_filter.
  apply list_elem_of_In, in_map. by apply list_elem_of_In.
Qed.

(** Property X2. Calling [select] a second time with the arguments of the call
    before changes nothing. *)
Theorem X2_select_twice_is_select_once o a1 a h :
  (let* _ := select o (a1 :: a) in select o (a1 :: a)) h = select o (a1 :: a) h.
Proof.
  unfold select, bind, update_query, ret.
  destruct (h !! o) as [[q c|s c]|] eqn:Ho; try done.
  rewrite lookup_insert_eq, insert_insert_eq.
  cbn [q_select with_select]. by rewrite select_list_idem.
Qed.

Lemma NoDup_map_filter {A B} (f : A -> B) (P : A -> Prop) `{!forall x, Decision (P x)} l :
  NoDup (map f l) -> NoDup (map f (filter P l)).
Proof.
  induction l as [|x l IH]; [done|]. simpl. intros [Hx Hl]%NoDup_cons.
  rewrite filter_cons. destruct (decide (P x)); [|by apply IH].
  simpl. apply NoDup_cons. split; [|by apply IH].
  intros Hin. apply Hx. apply list_elem_of_In, in_map_iff in Hin as (y & <- & Hy).
  apply list_elem_of_In, in_map. apply list_elem_of_In in Hy.
  apply list_elem_of_filter in Hy as [_ Hy]. by apply list_elem_of_In.
Qed.

(** Property X3. If no two items of a SELECT list share an alias and a call of
    [select] names no alias twice, then no two items share an alias
    afterwards: the new items take the place of the old ones with their
    aliases. *)
Theorem X3_select_keeps_aliases_distinct o a1 a h q c :
  h !! o = Some (OQuery q c) ->
  NoDup (map sel_as (q_select q)) ->
  NoDup (map sel_as (flat_map select_items (flat (a1 :: a)))) ->
  exists q',
    select o (a1 :: a) h = (Ok o, <[o := OQuery q' c]> h)
    /\ NoDup (map sel_as (q_select q')).
Proof.
  intros Ho Hold Hnew. eexists. split.
  { unfold select, bind, update_query. rewrite Ho. reflexivity. }
  cbn [q_select with_select]. unfold select_list. rewrite map_app.
  apply NoDup_app. split; [|split].
  - by apply NoDup_map_filter.
  - intros al Hl Hr.
    apply list_elem_of_In, in_map_iff in Hl as (x & <- & Hx).
    apply list_elem_of_In, list_elem_of_filter in Hx as [Hx _]. apply Hx.
    apply list_elem_of_In, in_map_iff in Hr as (y & <- & Hy).
    apply list_elem_of_In, list_elem_of_filter in Hy as [_ Hy].
    apply list_elem_of_In, in_map. by apply list_elem_of_In.
  - by apply NoDup_map_filter.
Qed.

(** Property X4. Selecting no expression under an alias (an undefined value
    in an object of aliases) removes the items with that alias and adds
    nothing; the other items stay as they are, in their order. *)
Theorem X4_select_null_removes_the_column o k h q c :
  h !! o = Some (OQuery q c) ->
  select o [One (AObj [(k, VUndefined)])] h
  = (Ok o, <[o := OQuery (with_select
                            (filter (fun x => sel_as x <> Some (unquote k)) (q_select q)) q)
                         c]> h).
Proof.
  intros Ho. unfold select, bind, update_query. rewrite Ho. simpl.
  do 4 f_equal. unfold select_list. simpl. rewrite app_nil_r.
  apply list_filter_iff. intros x. rewrite list_elem_of_singleton. done.
Qed.

(** ** Calls that add to a list *)

Lemma flat_app {A} (a b : list (Arg A)) : flat (a ++ b) = (flat a ++ flat b)%list.
Proof. unfold flat. apply flat_map_app. Qed.

Lemma setters_append_any (o : oid) h :
  (forall a b, (let* _ := from o a in from o b) h = from o (a ++ b) h)
  /\ (forall a b, (let* _ := where_ o a in where_ o b) h = where_ o (a ++ b) h)
  /\ (forall a b, (let* _ := groupby o a in groupby o b) h = groupby o (a ++ b) h)
  /\ (forall a b, (let* _ := having o a in having o b) h = having o (a ++ b) h)
  /\ (forall a b, (let* _ := qualify o a in qualify o b) h = qualify o (a ++ b) h)
  /\ (forall a b, (let* _ := orderby o a in orderby o b) h = orderby o (a ++ b) h).
Proof.
  repeat split; intros a b;
    unfold from, where_, groupby, having, qualify, orderby, orderby_add, bind,
      update_query, ret;
    destruct (h !! o) as [[q c|s c]|] eqn:Ho; try done;
    rewrite ?lookup_insert_eq, insert_insert_eq; simpl;
    by rewrite ?flat_app, ?flat_map_app, ?filter_app, ?map_app, ?app_assoc.
Qed.

(** Property X5. Two calls in a row of [from], [where], [groupby], [having],
    [qualify] or [orderby] add what one call with the arguments of both adds.
    *)
Theorem X5_setters_append (o : oid) h :
  (forall a1 a b1 b,
     (let* _ := from o (a1 :: a) in from o (b1 :: b)) h = from o ((a1 :: a) ++ b1 :: b) h)
  /\ (forall a1 a b1 b,
        (let* _ := where_ o (a1 :: a) in where_ o (b1 :: b)) h
        = where_ o ((a1 :: a) ++ b1 :: b) h)
  /\ (forall a1 a b1 b,
        (let* _ := groupby o (a1 :: a) in groupby o (b1 :: b)) h
        = groupby o ((a1 :: a) ++ b1 :: b) h)
  /\ (forall a1 a b1 b,
        (let* _ := having o (a1 :: a) in having o (b1 :: b)) h
        = having o ((a1 :: a) ++ b1 :: b) h)
  /\ (forall a1 a b1 b,
        (let* _ := qualify o (a1 :: a) in qualify o (b1 :: b)) h
        = qualify o ((a1 :: a) ++ b1 :: b) h)
  /\ (forall a1 a b1 b,
        (let* _ := orderby o (a1 :: a) in orderby o (b1 :: b)) h
        = orderby o ((a1 :: a) ++ b1 :: b) h).
Proof.
  destruct (setters_append_any o h) as (Hf & Hw & Hg & Hh & Hq & Ho).
  repeat split; intros a1 a b1 b; [apply Hf|apply Hw|apply Hg|apply Hh|apply Hq|apply Ho].
Qed.

End BuilderFacts.

Section ResetFacts.

(** Property X6. The dollar methods forget what earlier calls have added:
    [$select], [$from], [$where] and [$groupby] after a call of the plain
    method do what they do without it. Called without arguments, a dollar
    method empties its list and returns the list, which is then empty, where a
    call with arguments returns the query. *)
Theorem X6_reset_discards_earlier_calls (o : oid) h :
  (forall a1 a b,
     (let* _ := select o (a1 :: a) in reset_select o b) h = reset_select o b h)
  /\ (forall a1 a b,
        (let* _ := from o (a1 :: a) in reset_from o b) h = reset_from o b h)
  /\ (forall a1 a b,
        (let* _ := where_ o (a1 :: a) in reset_where o b) h = reset_where o b h)
  /\ (forall a1 a b,
        (let* _ := groupby o (a1 :: a) in reset_groupby o b) h = reset_groupby o b h)
  /\ (forall q c,
        h !! o = Some (OQuery q c) ->
        reset_select o [] h = (Ok (Got []), <[o := OQuery (with_select [] q) c]> h)
        /\ reset_from o [] h = (Ok (Got []), <[o := OQuery (with_from [] q) c]> h)
        /\ reset_where o [] h = (Ok (Got []), <[o := OQuery (with_where [] q) c]> h)
        /\ reset_groupby o [] h = (Ok (Got []), <[o := OQuery (with_groupby [] q) c]> h)
        /\ forall a1 a,
             reset_where o (a1 :: a) h
             = (Ok (This o),
                <[o := OQuery (with_where (filter (fun x => val_truthy x = true)
                                                  (flat (a1 :: a))) q) c]> h)).
Proof.
  split; [|split; [|split; [|split]]].
  1-4: intros a1 a b;
    unfold reset_select, reset_from, reset_where, reset_groupby,
      select, from, where_, groupby;
    unfold bind at 1 2; unfold update_query at 1, ret at 1;
    destruct (h !! o) as [[q c|s c]|] eqn:Ho;
    try (unfold bind, update_query; rewrite Ho; reflexivity);
    unfold bind at 1 3; unfold update_query at 1 3;
    rewrite Ho, lookup_insert_eq, insert_insert_eq; reflexivity.
  intros q c Ho.
  repeat split; try intros a1 a;
    unfold reset_select, reset_from, reset_where, reset_groupby, call, where_,
      bind, update_query, get_query, ret;
    rewrite Ho, lookup_insert_eq; try reflexivity.
  by rewrite insert_insert_eq.
Qed.

End ResetFacts.

Section WithFacts.








End WithFacts.

Section GetterFacts.

Lemma set_cteFor_idem c x : set_cteFor c (set_cteFor c x) = set_cteFor c x.
Proof. by destruct x. Qed.

Lemma fold_alter_lookup p (ms : list oid) (h : Heap) k :
  fold_left (fun h' m => alter (set_cteFor (Some p)) m h') ms h !! k
  = if decide (k ∈ ms) then set_cteFor (Some p) <$> h !! k else h !! k.
Proof.
  revert h. induction ms as [|m ms IH]; intros h.
  - destruct (decide (k ∈ [])) as [Hin|]; [by apply elem_of_nil in Hin|done].
  - simpl. rewrite IH, lookup_alter.
    destruct (decide (k ∈ ms)) as [Hin|Hnin], (decide (m = k)) as [->|Hne].
    + rewrite decide_True by (by left). rewrite <- option_fmap_compose.
      destruct (h !! k); simpl; [|done]. by rewrite set_cteFor_idem.
    + by rewrite decide_True by (by right).
    + by rewrite decide_True by (by left).
    + rewrite decide_False; [done|]. intros [?|?]%elem_of_cons; congruence.
Qed.

(** Property X9. The [subqueries] getter of a set operation that is a common
    table expression returns the members and hands the owner down: afterwards
    every member is marked as belonging to the query the set operation belongs
    to, every other object is as it was, and a second call changes nothing
    more. *)
Theorem X9_setop_getter_hands_the_owner_down h o s p :
  h !! o = Some (OSetOp s (Some p)) ->
  (subqueries o h).1 = Ok (map SubObj (so_queries s))
  /\ (forall m, m ∈ so_queries s ->
        (subqueries o h).2 !! m = set_cteFor (Some p) <$> h !! m)
  /\ (forall k, k ∉ so_queries s -> (subqueries o h).2 !! k = h !! k)
  /\ subqueries o (subqueries o h).2 = subqueries o h.
Proof.
  intros Ho.
  assert (forall k, propagate_cteFor h o !! k
                    = if decide (k ∈ so_queries s)
                      then set_cteFor (Some p) <$> h !! k else h !! k) as Hlk.
  { intros k. unfold propagate_cteFor. rewrite Ho. apply fold_alter_lookup. }
  assert (propagate_cteFor h o !! o = Some (OSetOp s (Some p))) as Ho'.
  { rewrite Hlk, Ho. by destruct (decide _). }
  split; [|split; [|split]].
  - unfold subqueries, subqueries_of. simpl. by rewrite Ho.
  - intros m Hm. simpl. by rewrite Hlk, decide_True.
  - intros k Hk. simpl. by rewrite Hlk, decide_False.
  - unfold subqueries. simpl. f_equal.
    + unfold subqueries_of. by rewrite Ho, Ho'.
    + apply map_eq. intros k. unfold propagate_cteFor at 1. rewrite Ho'.
      rewrite fold_alter_lookup, Hlk.
      destruct (decide (k ∈ so_queries s)); [|done].
      destruct (h !! k); simpl; [|done]. by rewrite set_cteFor_idem.
Qed.

End GetterFacts.

Section ScopeFacts.

Lemma res_mapM_total {A B} (f : A -> Res B) (g : A -> B) l :
  (forall x, x ∈ l -> f x = Ok (g x)) -> res_mapM f l = Ok (map g l).
Proof.
  induction l as [|x l IH]; intros Hf; [done|]. simpl.
  rewrite Hf by (by left). simpl. rewrite IH; [done|].
  intros y Hy. apply Hf. by right.
Qed.

Lemma cte_lookup_last l1 k c l2 :
  k <> "__proto__" -> k ∉ map fst l2 ->
  cte_lookup (l1 ++ (k, c) :: l2) k = Some (SubObj c).
Proof.
  intros Hk Hl2. unfold cte_lookup.
  rewrite rev_app_distr. simpl. rewrite <- app_assoc. simpl.
  assert (forall l (rest : list (string * oid)),
            k ∉ map fst l ->
            find (fun '(al, _) => String.eqb al k && negb (String.eqb al "__proto__"))
                 (l ++ (k, c) :: rest) = Some (k, c)) as Hfind.
  { induction l as [|[al q] l IH]; intros rest Hl; simpl.
    - rewrite String.eqb_refl. apply String.eqb_neq in Hk. by rewrite Hk.
    - simpl in Hl. apply not_elem_of_cons in Hl as [Hne Hl].
      assert (String.eqb al k = false) as -> by (apply String.eqb_neq; congruence).
      simpl. by apply IH. }
  rewrite Hfind; [done|].
  intros Hin. apply Hl2. apply list_elem_of_In. apply list_elem_of_In in Hin.
  rewrite map_rev in Hin. by apply in_rev.
Qed.

(** Property X8. When several common table expressions of a query have the
    same name, a FROM entry that refers to the name makes the last of them a
    subquery of the query. *)
Theorem X8_from_name_resolves_to_last_cte h o qd l1 k c l2 f col :
  h !! o = Some (OQuery qd None) ->
  q_with qd = (l1 ++ (k, c) :: l2)%list ->
  k <> "__proto__" -> k ∉ map fst l2 ->
  f ∈ q_from qd -> from_src f = FromExpr (Ref (Some k) col) ->
  child h o c.
Proof.
  intros Ho Hwith Hk Hl2 Hf Hsrc. unfold child, subqueries_of. rewrite Ho. simpl.
  rewrite (res_mapM_total _ (fun f => match from_src f with
                                      | FromQuery o => [SubObj o]
                                      | FromExpr e =>
                                          match cte_lookup (q_with qd) (table_key e) with
                                          | Some s => [s]
                                          | None => []
                                          end
                                      end)).
  2:{ intros x _. unfold from_subquery. by destruct (from_src x). }
  eexists. split; [reflexivity|].
  apply list_elem_of_In, in_concat. eexists. split.
  - apply in_map. apply list_elem_of_In. exact Hf.
  - rewrite Hsrc. simpl. rewrite Hwith, cte_lookup_last by done. by left.
Qed.

End ScopeFacts.

Section PrintFacts.
Context `{!SqlLib}.

Lemma res_mapM_mono {A B} (f g : A -> Res B) l ys :
  (forall x y, f x = Ok y -> g x = Ok y) ->
  res_mapM f l = Ok ys -> res_mapM g l = Ok ys.
Proof.
  intros Hfg. revert ys. induction l as [|x l IH]; intros ys; [done|]. simpl.
  destruct (f x) as [y|] eqn:Hx; [|done]. rewrite (Hfg _ _ Hx). simpl.
  destruct (res_mapM f l) as [ys'|]; [|done]. by rewrite (IH ys').
Qed.

Lemma res_mapM_ext {A B} (f g : A -> Res B) l :
  (forall x, f x = g x) -> res_mapM f l = res_mapM g l.
Proof.
  intros Hfg. induction l as [|x l IH]; [done|]. simpl. by rewrite Hfg, IH.
Qed.

Lemma query_text_mono (sub sub' : oid -> Res string) q s :
  (forall c t, sub c = Ok t -> sub' c = Ok t) ->
  query_text sub q = Ok s -> query_text sub' q = Ok s.
Proof.
  intros Hsub. unfold query_text.
  destruct (res_mapM _ (q_with q)) as [ctes|] eqn:Hctes; [|done]. simpl.
  destruct (res_mapM _ (q_from q)) as [rels|] eqn:Hrels; [|done]. simpl.
  intros Hs.
  erewrite (res_mapM_mono _ _ (q_with q)); [| |exact Hctes].
  2:{ intros [al c] y. simpl. destruct (sub c) as [t|] eqn:Hc; [|done].
      by rewrite (Hsub _ _ Hc). }
  simpl.
  erewrite (res_mapM_mono _ _ (q_from q)); [| |exact Hrels].
  2:{ intros f y. simpl. destruct (from_src f) as [c|e]; [|done].
      destruct (sub c) as [t|] eqn:Hc; [|done]. by rewrite (Hsub _ _ Hc). }
  done.
Qed.

Lemma query_text_ext (sub sub' : oid -> Res string) q :
  (forall c, sub c = sub' c) -> query_text sub q = query_text sub' q.
Proof.
  intros Hsub. unfold query_text.
  rewrite (res_mapM_ext _ (fun '(al, c) =>
             res_map (fun t => quoted al +:+ " AS (" +:+ t +:+ ")") (sub' c)) (q_with q)).
  2:{ intros [al c]. by rewrite Hsub. }
  destruct (res_mapM _ (q_with q)) as [ctes|]; [|done]. simpl.
  rewrite (res_mapM_ext _ (fun f =>
              res_map (fun rel =>
                         if alias_redundant (from_as f) (from_src f) then rel
                         else rel +:+ " AS " +:+ quoted (opt_text (from_as f)))
                      match from_src f with
                      | FromQuery c => res_map (fun t => "(" +:+ t +:+ ")") (sub' c)
                      | FromExpr e => Ok (expr_toString e)
                      end) (q_from q)); [done|].
  intros f. destruct (from_src f); [|done]. by rewrite Hsub.
Qed.

Lemma setop_text_mono (sub sub' : oid -> Res string) s t :
  (forall c t, sub c = Ok t -> sub' c = Ok t) ->
  setop_text sub s = Ok t -> setop_text sub' s = Ok t.
Proof.
  intros Hsub. unfold setop_text.
  destruct (res_mapM sub (so_queries s)) as [qs|] eqn:Hqs; [|done].
  by rewrite (res_mapM_mono _ _ _ _ Hsub Hqs).
Qed.

Lemma setop_text_ext (sub sub' : oid -> Res string) s :
  (forall c, sub c = sub' c) -> setop_text sub s = setop_text sub' s.
Proof. intros Hsub. unfold setop_text. by rewrite (res_mapM_ext _ sub'). Qed.

(** A text that was printed is printed again with more call stack and in
    a store that has more objects. *)
Lemma toString_fuel_mono n n' h h' o s :
  n <= n' -> h ⊆ h' -> toString_fuel n h o = Ok s -> toString_fuel n' h' o = Ok s.
Proof.
  intros Hn Hh. revert n' Hn o s.
  induction n as [|n IH]; intros n' Hn o s; [done|].
  destruct n' as [|n']; [lia|]. simpl.
  destruct (h !! o) as [x|] eqn:Ho; [|done].
  rewrite (lookup_weaken _ _ _ _ Ho Hh).
  destruct x as [q c|so c].
  - apply query_text_mono. intros c' t. apply IH. lia.
  - apply setop_text_mono. intros c' t. apply IH. lia.
Qed.

(** ** Terms that print as nothing *)

Lemma join_nonempty sep x l : x <> "" -> join sep (x :: l) <> "".
Proof.
  intros Hx. destruct l; simpl; [done|].
  intros [? _]%append_empty_l. done.
Qed.

Lemma and_clause_empty kw terms :
  Forall (fun t => val_toString t = "") terms -> and_clause kw terms = [].
Proof.
  intros Hall. unfold and_clause. destruct terms as [|t terms]; [done|].
  assert (filter (fun x => negb (String.eqb x "") = true) (map val_toString (t :: terms)) = [])
    as ->; [|done].
  induction Hall as [|x l Hx Hl IH]; [done|]. simpl.
  rewrite filter_cons_False; [done|]. rewrite Hx. simpl. done.
Qed.

(** Two stores that hold the same set operations, and queries that print
    alike whatever their nested queries print as, print every object
    alike. *)
Lemma toString_fuel_alike (h h2 : Heap) :
  (forall o, match h !! o, h2 !! o with
             | Some (OQuery q _), Some (OQuery q' _) =>
                 forall sub, query_text sub q = query_text sub q'
             | Some (OSetOp s _), Some (OSetOp s' _) => s = s'
             | None, None => True
             | _, _ => False
             end) ->
  forall n o, toString_fuel n h o = toString_fuel n h2 o.
Proof.
  intros Halike. induction n as [|n IH]; intros o; [done|]. simpl.
  pose proof (Halike o) as Ho.
  destruct (h !! o) as [[q c|s c]|], (h2 !! o) as [[q' c'|s' c']|]; try done.
  - rewrite <- Ho. by apply query_text_ext.
  - subst s'. by apply setop_text_ext.
Qed.

Lemma alike_insert (h : Heap) (o : oid) q c q' :
  h !! o = Some (OQuery q c) ->
  (forall sub, query_text sub q = query_text sub q') ->
  forall o', match h !! o', <[o := OQuery q' c]> h !! o' with
             | Some (OQuery q _), Some (OQuery q' _) =>
                 forall sub, query_text sub q = query_text sub q'
             | Some (OSetOp s _), Some (OSetOp s' _) => s = s'
             | None, None => True
             | _, _ => False
             end.
Proof.
  intros Ho Hq o'. destruct (decide (o' = o)) as [->|Hne].
  - by rewrite Ho, lookup_insert_eq.
  - rewrite lookup_insert_ne by done. by destruct (h !! o') as [[]|].
Qed.

(** Property X10. WHERE, HAVING and QUALIFY terms that print as the empty text
    are left out of the text of a query, and the keyword with them when no
    term is left: the query prints as it does without these terms. *)
Theorem X10_empty_terms_are_not_printed h o q c :
  h !! o = Some (OQuery q c) ->
  (Forall (fun t => val_toString t = "") (q_where q) ->
   (toString o h).1 = (toString o (<[o := OQuery (with_where [] q) c]> h)).1)
  /\ (Forall (fun t => val_toString t = "") (q_having q) ->
      (toString o h).1 = (toString o (<[o := OQuery (with_having [] q) c]> h)).1)
  /\ (Forall (fun t => val_toString t = "") (q_qualify q) ->
      (toString o h).1 = (toString o (<[o := OQuery (with_qualify [] q) c]> h)).1).
Proof.
  intros Ho.
  assert (forall q', size (<[o := OQuery q' c]> h) = size h) as Hsize.
  { intros q'. rewrite map_size_insert_Some; [done|]. by rewrite Ho. }
  repeat split; intros Hall; unfold toString; cbn [fst]; rewrite Hsize;
    apply toString_fuel_alike, (alike_insert _ _ _ _ _ Ho);
    intros sub; unfold query_text; simpl;
    by rewrite (and_clause_empty _ _ Hall).
Qed.

(** ** A query nested in itself *)

(** Property X12. A query without common table expressions whose first FROM
    entry is the query itself cannot be printed: the call stack runs out. *)
Theorem X12_self_nested_query_does_not_print h o q c f rest :
  h !! o = Some (OQuery q c) ->
  q_with q = [] -> q_from q = f :: rest -> from_src f = FromQuery o ->
  toString o h = (Throw RangeError, h).
Proof.
  intros Ho Hwith Hfrom Hsrc. unfold toString. f_equal.
  generalize (S (size h)). induction n as [|n IH]; [done|].
  simpl. rewrite Ho. unfold query_text. rewrite Hwith, Hfrom. simpl.
  by rewrite Hsrc, IH.
Qed.

(** ** Clones *)

Lemma hm_mapM_prints (f : oid -> HM oid) :
  (forall o h c h', f o h = (Ok c, h') ->
     h ⊆ h' /\ forall n s, toString_fuel n h o = Ok s -> toString_fuel n h' c = Ok s) ->
  forall l h cs h', hm_mapM f l h = (Ok cs, h') ->
    h ⊆ h' /\ forall n ts, res_mapM (toString_fuel n h) l = Ok ts ->
                           res_mapM (toString_fuel n h') cs = Ok ts.
Proof.
  intros Hf. induction l as [|x l IH]; intros h cs h' Hm.
  - apply ret_ok in Hm as [-> ->]. by split.
  - simpl in Hm. apply bind_ok in Hm as (y & h1 & Hx & Hm).
    apply bind_ok in Hm as (ys & h2 & Hl & [-> ->]%ret_ok).
    destruct (Hf _ _ _ _ Hx) as [Hsub1 Hy]. destruct (IH _ _ _ Hl) as [Hsub2 Hys].
    split; [by etrans|]. intros n ts. simpl.
    destruct (toString_fuel n h x) as [t|] eqn:Ht; [|done]. simpl.
    destruct (res_mapM (toString_fuel n h) l) as [ts'|] eqn:Hts; [|done]. simpl.
    intros [= <-].
    rewrite (toString_fuel_mono n n h1 h2 y t); [|done|done|by apply Hy]. simpl.
    rewrite (Hys n ts'); [done|].
    eapply res_mapM_mono; [|exact Hts]. intros o s. by apply toString_fuel_mono.
Qed.

Lemma clone_fuel_prints fuel :
  forall o h c h', clone_fuel fuel o h = (Ok c, h') ->
    h ⊆ h' /\ forall n s, toString_fuel n h o = Ok s -> toString_fuel n h' c = Ok s.
Proof.
  induction fuel as [|fuel IH]; intros o h c h' Hc; [done|].
  simpl in Hc. apply bind_ok in Hc as (x & h0 & Hx & Hc).
  unfold get_obj in Hx. destruct (h !! o) as [x0|] eqn:Ho; [|done].
  injection Hx as <- <-. destruct x0 as [q cf|s cf].
  - apply alloc_ok in Hc as (-> & Hfresh & ->).
    assert (h ⊆ <[fresh (dom h) := OQuery q None]> h) as Hsub by (by apply insert_subseteq).
    split; [done|]. intros [|n] t; [done|]. simpl. rewrite Ho, lookup_insert_eq.
    apply query_text_mono. intros c' t'. by apply toString_fuel_mono.
  - apply bind_ok in Hc as (members & h1 & Hm & Hc).
    apply alloc_ok in Hc as (-> & Hfresh & ->).
    destruct (hm_mapM_prints _ IH _ _ _ _ Hm) as [Hsub1 Hmembers].
    assert (h1 ⊆ <[fresh (dom h1) := OSetOp
              {| so_op := so_op s; so_queries := members; so_orderby := so_orderby s;
                 so_limit := so_limit s; so_offset := so_offset s |} None]> h1) as Hsub2
      by (by apply insert_subseteq).
    split; [by etrans|]. intros [|n] t; [done|]. simpl. rewrite Ho, lookup_insert_eq.
    unfold setop_text. simpl.
    destruct (res_mapM (toString_fuel n h) (so_queries s)) as [qs|] eqn:Hqs; [|done].
    simpl. intros [= <-].
    erewrite (res_mapM_mono (toString_fuel n h1)); [done| |by apply Hmembers].
    intros c' t'. by apply toString_fuel_mono.
Qed.

(** Property X13. The clone of an object that can be printed prints the same
    text. *)
Theorem X13_clone_prints_the_same_text o h c h' s :
  clone o h = (Ok c, h') ->
  toString o h = (Ok s, h) ->
  toString c h' = (Ok s, h').
Proof.
  unfold clone, toString. intros Hc [= Hs].
  destruct (clone_fuel_prints _ _ _ _ _ Hc) as [Hsub Hprint]. f_equal.
  apply (toString_fuel_mono (S (size h)) _ h' h'); [|done|by apply Hprint].
  apply le_n_S. by apply map_subseteq_size.
Qed.


End PrintFacts.

Section LimitFacts.
Context `{!SqlLib}.

Lemma append_assoc (a b c : string) : (a +:+ b) +:+ c = a +:+ b +:+ c.
Proof.
  induction a as [|x a IH]; [done|].
  change (String x ((a +:+ b) +:+ c) = String x (a +:+ b +:+ c)). by rewrite IH.
Qed.

Lemma join_snoc sep (l : list string) x :
  l <> [] -> join sep (l ++ [x]) = join sep l +:+ sep +:+ x.
Proof.
  induction l as [|y l IH]; [done|]. intros _. destruct l as [|z l].
  - done.
  - change (y +:+ sep +:+ join sep ((z :: l) ++ [x])
            = (y +:+ sep +:+ join sep (z :: l)) +:+ sep +:+ x).
    rewrite IH by done. by rewrite !append_assoc.
Qed.

Lemma join_tail sep (l r : list string) :
  l <> [] -> join sep (l ++ r) = join sep l +:+ String.concat "" (map (fun x => sep +:+ x) r).
Proof.
  revert l. induction r as [|x r IH]; intros l Hl.
  - rewrite app_nil_r. simpl. by rewrite append_empty_r.
  - replace (l ++ x :: r)%list with ((l ++ [x]) ++ r)%list by (by rewrite <- app_assoc).
    rewrite IH by (by destruct l). rewrite join_snoc by done.
    rewrite !concat_parts. simpl. by rewrite !append_assoc.
Qed.

Lemma number_clause_finite kw v :
  String.concat "" (map (fun x => " " +:+ x) (number_clause kw (finite_number v)))
  = tail_text kw v.
Proof.
  unfold tail_text, finite_number. destruct v as [| | |x| |]; try done.
  destruct (negb (is_nan x || is_infinity x)) eqn:Hf; [|done].
  unfold number_clause, is_finite. by rewrite Hf.
Qed.

Lemma tail_parts (W : list string) S F Wh Sa G Hv Wi Q OB NL NO :
  (W ++ S :: F ++ Wh ++ Sa ++ G ++ Hv ++ Wi ++ Q ++ OB ++ NL ++ NO)%list
  = ((W ++ S :: F ++ Wh ++ Sa ++ G ++ Hv ++ Wi ++ Q ++ OB ++ []) ++ NL ++ NO)%list.
Proof. rewrite <- !app_assoc. simpl. by rewrite <- !app_assoc. Qed.

Lemma concat_app (a b : list string) :
  String.concat "" (a ++ b) = String.concat "" a +:+ String.concat "" b.
Proof.
  rewrite !concat_parts. induction a as [|x a IH]; [done|].
  simpl. by rewrite IH, append_assoc.
Qed.

Lemma query_text_tail (sub : oid -> Res string) q vl vo :
  q_limit q = None -> q_offset q = None ->
  query_text sub (with_offset (finite_number vo) (with_limit (finite_number vl) q))
  = res_map (fun t => t +:+ tail_text "LIMIT" vl +:+ tail_text "OFFSET" vo) (query_text sub q).
Proof.
  intros Hl Ho. unfold query_text. simpl. rewrite Hl, Ho.
  destruct (res_mapM _ (q_with q)) as [ctes|]; [|done]. simpl.
  destruct (res_mapM _ (q_from q)) as [rels|]; [|done]. simpl.
  f_equal. rewrite tail_parts, join_tail.
  - by rewrite map_app, concat_app, !number_clause_finite.
  - intros Hnil. apply app_eq_nil in Hnil as [_ Hnil]. discriminate.
Qed.

Lemma toString_fuel_not_yet n n' h o :
  n <= n' -> (forall t, toString_fuel n' h o <> Ok t) -> forall t, toString_fuel n h o <> Ok t.
Proof. intros Hn Hno t Ht. apply (Hno t). by eapply toString_fuel_mono. Qed.

Lemma toString_fuel_elsewhere (h : Heap) o x' n :
  (forall t, toString_fuel n h o <> Ok t) ->
  forall c t, toString_fuel n h c = Ok t -> toString_fuel n (<[o := x']> h) c = Ok t.
Proof.
  induction n as [|n IH]; intros Hno c t; [done|].
  destruct (decide (c = o)) as [->|Hne]; [by intros ?%Hno|].
  simpl. rewrite lookup_insert_ne by done.
  assert (forall t, toString_fuel n h o <> Ok t) as Hno'.
  { apply (toString_fuel_not_yet n (S n)); [lia|done]. }
  destruct (h !! c) as [[q cf|s cf]|]; [| |done].
  - apply query_text_mono. intros c' t'. by apply IH.
  - apply setop_text_mono. intros c' t'. by apply IH.
Qed.

Lemma toString_fuel_tail (h : Heap) o q c q' (suffix : string) :
  h !! o = Some (OQuery q c) ->
  (forall sub, query_text sub q' = res_map (fun t => t +:+ suffix) (query_text sub q)) ->
  forall n t, toString_fuel n h o = Ok t ->
              toString_fuel n (<[o := OQuery q' c]> h) o = Ok (t +:+ suffix).
Proof.
  intros Ho Hq'. induction n as [|n IH]; intros t Ht; [done|].
  destruct (toString_fuel n h o) as [t0|e] eqn:Hn.
  - pose proof (toString_fuel_mono n (S n) h h o t0 ltac:(lia) ltac:(done) Hn) as Ht0.
    rewrite Ht in Ht0. injection Ht0 as <-.
    apply (toString_fuel_mono n (S n) (<[o := OQuery q' c]> h) (<[o := OQuery q' c]> h) o);
      [lia|done|]. by apply IH.
  - simpl in *. rewrite Ho in Ht. rewrite lookup_insert_eq, Hq'.
    erewrite query_text_mono; [done| |exact Ht].
    intros c' t'. apply toString_fuel_elsewhere. intros t1. by rewrite Hn.
Qed.

(** Property X11. On a query that has neither a limit nor an offset and that
    can be printed, [limit] followed by [offset] add their clauses at the very
    end of the text, LIMIT before OFFSET, each only when the value is a finite
    number: for any other value (NaN, an infinity, null, a string) the clause
    is left out. *)
Theorem X11_limit_and_offset_are_printed_last h o q c t vl vo :
  h !! o = Some (OQuery q c) ->
  q_limit q = None -> q_offset q = None ->
  toString o h = (Ok t, h) ->
  exists h',
    (let* _ := limit o vl in offset o vo) h = (Ok o, h')
    /\ toString o h' = (Ok (t +:+ tail_text "LIMIT" vl +:+ tail_text "OFFSET" vo), h').
Proof.
  intros Ho Hl Hoff Ht. eexists. split.
  { unfold bind, limit, offset. rewrite Ho, lookup_insert_eq, insert_insert_eq. reflexivity. }
  unfold toString in *. injection Ht as Ht. f_equal.
  rewrite map_size_insert_Some by (by rewrite Ho).
  apply (toString_fuel_tail h o q c); [done| |done].
  intros sub. by apply query_text_tail.
Qed.

End LimitFacts.

(* ===================================================================== *)
(** * More properties of the bin synthesizer and the analyzer *)
(* ===================================================================== *)

Section BinModeFacts.
Context `{!SqlLib} `{!Scales}.

(** Property X18. The bin modes as the code takes them: ceil and round, in any
    casing, select CEIL and ROUND; floor in any casing, a missing bin mode,
    and every other bin mode whose lower-case form is not the name of a member
    of [Object.prototype] select FLOOR. *)
Theorem X18_bin_modes_in_any_casing :
  (forall s, casing "ceil" s -> bin_fn (Some s) = FnName "CEIL")
  /\ (forall s, casing "round" s -> bin_fn (Some s) = FnName "ROUND")
  /\ (forall s, casing "floor" s -> bin_fn (Some s) = FnName "FLOOR")
  /\ bin_fn None = FnName "FLOOR"
  /\ (forall s, toLowerCase s <> "ceil" -> toLowerCase s <> "round" ->
        inherited (toLowerCase s) = false -> bin_fn (Some s) = FnName "FLOOR").
Proof.
  split; [apply bin_fn_ceil|]. split; [apply bin_fn_round|].
  split; [apply bin_fn_floor|]. split; [apply bin_fn_undefined|apply bin_fn_other].
Qed.

(** Property X19. A scale without a transform yields no bin function, whatever
    else it lacks. A scale with a transform needs a domain, and a range unless
    its type is identity: without them the synthesizer throws a TypeError (and
    with it the analysis of the clause). *)
Theorem X19_binInterval_needs_domain_and_range scale pixelSize bin :
  (st_apply (scaleTransform scale) = None -> binInterval scale pixelSize bin = Ok None)
  /\ (is_Some (st_apply (scaleTransform scale)) ->
      st_domain (scaleTransform scale) = None ->
      binInterval scale pixelSize bin = Throw TypeError)
  /\ (is_Some (st_apply (scaleTransform scale)) ->
      is_Some (st_domain (scaleTransform scale)) ->
      st_type (scaleTransform scale) <> "identity" ->
      st_range (scaleTransform scale) = None ->
      binInterval scale pixelSize bin = Throw TypeError)
  /\ (is_Some (st_apply (scaleTransform scale)) ->
      is_Some (st_domain (scaleTransform scale)) ->
      st_type (scaleTransform scale) = "identity" ->
      exists f, binInterval scale pixelSize bin = Ok (Some f)).
Proof.
  unfold binInterval. repeat split.
  - by intros ->.
  - intros [apply ->] ->. done.
  - intros [apply ->] [domain ->] Hty ->. simpl.
    apply String.eqb_neq in Hty. by rewrite Hty.
  - intros [apply ->] [domain ->] ->. simpl. eauto.
Qed.

End BinModeFacts.

Section AnalyzerFacts.
Context `{!SqlLib} `{!Scales}.

Ltac analyze H :=
  repeat match type of H with
  | context [match ?x with _ => _ end] => destruct x eqn:?; simpl in H
  | context [if ?x then _ else _] => destruct x eqn:?; simpl in H
  | res_bind ?m _ = _ => destruct m eqn:?; simpl in H
  end.

(** Property X15. The analyzer answers in one of two shapes: not indexable (a
    null source, no columns and no predicate generator), or the source of the
    clause together with columns and a predicate generator. When it throws, it
    throws a TypeError. *)
Theorem X15_activeColumns_all_or_nothing cl :
  (forall a, activeColumns cl = Ok a ->
     (a_source a = JNull /\ a_columns a = None /\ a_predicate a = None)
     \/ (a_source a = cl_source cl /\ is_Some (a_columns a) /\ is_Some (a_predicate a)))
  /\ (forall e, activeColumns cl = Throw e -> e = TypeError).
Proof.
  split.
  - intros a Ha. unfold activeColumns in Ha.
    analyze Ha; try discriminate; inversion Ha; subst; simpl; eauto 6.
  - intros e Ha. unfold activeColumns in Ha.
    assert (forall sc ps bin e', binInterval sc ps bin = Throw e' -> e' = TypeError) as Hbin.
    { intros sc ps bin e' Hb. unfold binInterval, present in Hb.
      analyze Hb; try discriminate; by inversion Hb. }
    destruct (cl_meta cl) as [meta|]; [|done].
    destruct (cl_predicate cl ≫= cp_columns) as [cols|]; [|done].
    destruct (String.eqb (m_type meta) "point"); [done|].
    destruct (if String.eqb (m_type meta) "interval" then m_scales meta else None)
      as [scales|]; [|done].
    destruct (res_mapM _ scales) as [bins|e0] eqn:Hbins; simpl in Ha.
    2:{ injection Ha as <-. eapply res_mapM_throw; [|exact Hbins]. intros sc e'. apply Hbin. }
    destruct (all_some bins) as [[|b0 [|b1 fs]]|]; try done.
    all: destruct (present _) as [children|e0] eqn:Hch; simpl in Ha;
      [|injection Ha as <-; unfold present in Hch; by destruct (_ ≫= _); inversion Hch].
    all: destruct (res_mapM _ (imap pair children)) as [entries|e0] eqn:Hent; [done|];
      simpl in Ha; injection Ha as <-;
      eapply res_mapM_throw; [|exact Hent]; intros [i p] e' He;
      simpl in He; unfold call_bin, present in He;
      repeat case_match; simpl in *; congruence.
Qed.

(** ** Which clauses are indexable *)

Lemma binInterval_supported sc ps bin r :
  binInterval sc ps bin = Ok r -> (r = None <-> st_apply (scaleTransform sc) = None).
Proof.
  unfold binInterval. intros Hb.
  analyze Hb; try discriminate; inversion Hb; subst; done.
Qed.

Lemma all_some_Forall {A} (l : list (option A)) :
  is_Some (all_some l) <-> Forall is_Some l.
Proof.
  induction l as [|[x|] l IH]; simpl.
  - split; [constructor|eauto].
  - rewrite Forall_cons, <- IH. split.
    + intros [ys Hys]. split; [eauto|]. destruct (all_some l); [eauto|discriminate].
    + intros [_ [ys Hys]]. rewrite Hys. simpl. eauto.
  - split; [by intros [? ?]|]. intros [[? ?] _]%Forall_cons. discriminate.
Qed.

Lemma res_mapM_Forall2 {A B} (f : A -> Res B) l ys :
  res_mapM f l = Ok ys -> Forall2 (fun x y => f x = Ok y) l ys.
Proof.
  revert ys. induction l as [|x l IH]; intros ys; simpl.
  - intros [= <-]. constructor.
  - destruct (f x) as [y|] eqn:Hx; [|done]. simpl.
    destruct (res_mapM f l) as [ys'|]; [|done]. simpl.
    intros [= <-]. constructor; [done|]. by apply IH.
Qed.

(** Property X16. An analysis that returns reports the clause as indexable
    exactly when the clause has metadata and predicate columns and is either a
    point clause or an interval clause with scales all of which have a
    transform. (Any other clause type, an interval clause without scales and
    an interval clause with a scale of an unsupported type are not indexable.)
    *)
Theorem X16_indexable_clauses cl a :
  activeColumns cl = Ok a ->
  is_Some (a_columns a)
  <-> exists meta cols,
        cl_meta cl = Some meta /\ cl_predicate cl ≫= cp_columns = Some cols
        /\ (m_type meta = "point"
            \/ m_type meta = "interval"
               /\ exists scales,
                    m_scales meta = Some scales
                    /\ Forall (fun sc => is_Some (st_apply (scaleTransform sc))) scales).
Proof.
  intros Ha. unfold activeColumns in Ha.
  destruct (cl_meta cl) as [meta|].
  2:{ injection Ha as <-. simpl. split; [by intros [? ?]|]. by intros (? & ? & ? & _). }
  destruct (cl_predicate cl ≫= cp_columns) as [cols|] eqn:Hcols.
  2:{ injection Ha as <-. simpl. split; [by intros [? ?]|]. by intros (? & ? & _ & ? & _). }
  destruct (String.eqb (m_type meta) "point") eqn:Hpoint.
  { injection Ha as <-. simpl. apply String.eqb_eq in Hpoint.
    split; [|eauto]. intros _. exists meta, cols. auto. }
  apply String.eqb_neq in Hpoint.
  destruct (String.eqb (m_type meta) "interval") eqn:Hint.
  2:{ injection Ha as <-. simpl. apply String.eqb_neq in Hint.
      split; [by intros [? ?]|]. intros (m & c & [= <-] & _ & [?|[? _]]); done. }
  apply String.eqb_eq in Hint.
  destruct (m_scales meta) as [scales|] eqn:Hscales.
  2:{ injection Ha as <-. simpl. split; [by intros [? ?]|].
      intros (m & c & [= <-] & _ & [?|[_ (sc & Hsc & _)]]); [done|].
      rewrite Hscales in Hsc. discriminate. }
  destruct (res_mapM _ scales) as [bins|] eqn:Hbins; [|done]. simpl in Ha.
  assert (is_Some (all_some bins)
          <-> Forall (fun sc => is_Some (st_apply (scaleTransform sc))) scales) as Hall.
  { clear Ha Hscales. rewrite all_some_Forall. apply res_mapM_Forall2 in Hbins.
    induction Hbins as [|sc b scales bins Hb Hrest IH]; [by split; constructor|].
    rewrite !Forall_cons, IH. apply binInterval_supported in Hb.
    rewrite <- !not_eq_None_Some. by rewrite Hb. }
  assert (is_Some (a_columns a) <-> is_Some (all_some bins)) as ->.
  { destruct (all_some bins) as [[|b0 [|b1 fs]]|]; analyze Ha; try discriminate;
      inversion Ha; subst; simpl; split; eauto; by intros [? ?]. }
  rewrite Hall. split.
  - intros Hf. exists meta, cols. split; [done|]. split; [done|]. right. eauto.
  - intros (m & c & [= <-] & _ & [?|[_ (sc & Hsc & Hf)]]); [done|].
    rewrite Hscales in Hsc. by injection Hsc as <-.
Qed.

(** ** The predicate generator without a predicate *)

Lemma generator_without_predicate cl a gen :
  activeColumns cl = Ok a -> a_predicate a = Some gen ->
  exists arg, gen None = Ok arg /\ filter (fun x => val_truthy x = true) (flat [arg]) = [].
Proof.
  intros Ha Hgen. unfold activeColumns in Ha.
  analyze Ha; try discriminate; inversion Ha; subst; simpl in Hgen;
    try discriminate; injection Hgen as <-; eexists; split; reflexivity.
Qed.

End AnalyzerFacts.

Section QueryFacts.
Context `{!SqlLib} `{!Scales} `{!Hash}.

Lemma with_where_same q : with_where (q_where q) q = q.
Proof. by destruct q. Qed.

(** Property X20. For a cube whose active columns come from the analyzer,
    [query] called without a predicate returns a new copy of the select
    template as it is: no WHERE term is added, whether the clause is a
    point clause (whose generator hands the missing predicate on, and
    [where] drops it) or an interval clause (whose generator answers with
    no terms). *)
Theorem X20_query_without_predicate_is_a_plain_copy cl info h qd c :
  activeColumns cl = Ok (ci_active info) ->
  is_Some (a_predicate (ci_active info)) ->
  h !! ci_select info = Some (OQuery qd c) ->
  cube_query info None h = (Ok (fresh (dom h)), <[fresh (dom h) := OQuery qd None]> h).
Proof.
  intros Ha [gen Hgen] Hsel.
  destruct (generator_without_predicate _ _ _ Ha Hgen) as (arg & Harg & Hnone).
  unfold cube_query, bind. rewrite (clone_query _ _ _ _ Hsel).
  unfold lift. rewrite Hgen. unfold present. cbv beta iota. rewrite Harg.
  unfold where_, bind, update_query, ret. rewrite lookup_insert_eq, insert_insert_eq.
  by rewrite Hnone, app_nil_r, with_where_same.
Qed.

End QueryFacts.

(* ===================================================================== *)
(** * More properties of the planner *)
(* ===================================================================== *)

Section IdentifierFacts.
Context `{!SqlLib} `{!Hash}.

Open Scope Z_scope.

Lemma digit_char_code d :
  0 <= d < 16 ->
  nat_of_ascii (digit_char d) = if d <? 10 then (48 + Z.to_nat d)%nat else (87 + Z.to_nat d)%nat.
Proof.
  intros Hd. unfold digit_char.
  destruct (d <? 10) eqn:Hlt; apply nat_ascii_embedding; lia.
Qed.

Lemma digit_value_char d : 0 <= d < 16 -> digit_value (digit_char d) = d.
Proof.
  intros Hd. unfold digit_value. rewrite digit_char_code by done.
  destruct (d <? 10) eqn:Hlt.
  - apply Z.ltb_lt in Hlt.
    assert ((Z.of_nat (48 + Z.to_nat d) <? 58) = true) as -> by (apply Z.ltb_lt; lia). lia.
  - apply Z.ltb_ge in Hlt.
    assert ((Z.of_nat (87 + Z.to_nat d) <? 58) = false) as -> by (apply Z.ltb_ge; lia). lia.
Qed.

Lemma digits_go_value fuel :
  forall n acc,
    0 <= n < 16 ^ Z.of_nat fuel ->
    digits_value 16 (digits_go fuel 16 n acc)
    = n * 16 ^ Z.of_nat (String.length acc) + digits_value 16 acc.
Proof.
  induction fuel as [|fuel IH]; intros n acc Hn.
  { simpl in *. assert (n = 0) as -> by lia. lia. }
  cbn [digits_go].
  assert (0 <= n mod 16 < 16) as Hmod by (apply Z.mod_pos_bound; lia).
  pose proof (Z.div_mod n 16 ltac:(lia)) as Hdiv.
  set (P := 16 ^ Z.of_nat (String.length acc)).
  assert (digits_value 16 (String (digit_char (n mod 16)) acc)
          = (n mod 16) * P + digits_value 16 acc) as Hacc.
  { cbn [digits_value]. by rewrite digit_value_char. }
  destruct (n / 16 =? 0) eqn:Hq.
  - apply Z.eqb_eq in Hq. rewrite Hacc. f_equal. f_equal. lia.
  - apply Z.eqb_neq in Hq. rewrite IH.
    + rewrite Hacc. cbn [String.length]. rewrite Nat2Z.inj_succ, Z.pow_succ_r by lia.
      fold P. lia.
    + rewrite Nat2Z.inj_succ, Z.pow_succ_r in Hn by lia.
      split; [apply Z.div_pos; lia|]. apply Z.div_lt_upper_bound; lia.
Qed.

(** Read back in base 16, the text of a number that is not negative is
    the number. *)
Lemma integer_toString_value n :
  0 <= n -> digits_value 16 (integer_toString 16 n) = n.
Proof.
  intros Hn. unfold integer_toString.
  assert ((n <? 0) = false) as -> by (apply Z.ltb_ge; lia).
  rewrite digits_go_value; [simpl; lia|].
  split; [done|]. rewrite Nat2Z.inj_succ, Z2Nat.id by apply Z.log2_nonneg.
  destruct (decide (n = 0)) as [->|Hne]; [done|].
  pose proof (Z.log2_spec n ltac:(lia)) as [_ Hlt].
  eapply Z.lt_le_trans; [exact Hlt|].
  apply Z.pow_le_mono_l. lia.
Qed.

Lemma append_inj_r (s a b : string) : s +:+ a = s +:+ b -> a = b.
Proof.
  induction s as [|c s IH]; [done|].
  change (String c (s +:+ a) = String c (s +:+ b) -> a = b). intros [= Heq]. by apply IH.
Qed.

(** Property X22. The identifier of a cube reads back as the hash of the
    creation text taken as an unsigned 32-bit integer: no digit is lost. Two
    creation texts therefore get the same identifier, and in one schema the
    same table, exactly when their hashes agree modulo 2^32. *)
Theorem X22_cube_id_keeps_the_hash (a b : string) :
  digits_value 16 (cube_id a) = to_uint32 (fnv_hash a)
  /\ (cube_id a = cube_id b <-> to_uint32 (fnv_hash a) = to_uint32 (fnv_hash b))
  /\ forall schema,
       cube_table schema (cube_id a) = cube_table schema (cube_id b)
       <-> to_uint32 (fnv_hash a) = to_uint32 (fnv_hash b).
Proof.
  assert (forall t, digits_value 16 (cube_id t) = to_uint32 (fnv_hash t)) as Hval.
  { intros t. unfold cube_id. apply integer_toString_value.
    unfold to_uint32. apply Z.mod_pos_bound. lia. }
  assert (cube_id a = cube_id b <-> to_uint32 (fnv_hash a) = to_uint32 (fnv_hash b)) as Hid.
  { split.
    - intros Heq. by rewrite <- !Hval, Heq.
    - unfold cube_id. by intros ->. }
  split; [apply Hval|]. split; [exact Hid|].
  intros schema. rewrite <- Hid. unfold cube_table. split; [|by intros ->].
  intros Heq. apply append_inj_r in Heq. by apply append_inj_r in Heq.
Qed.

(** ** The shape of an identifier *)

Lemma digits_go_chars (P : ascii -> Prop) fuel :
  (forall d, 0 <= d < 16 -> P (digit_char d)) ->
  forall n acc,
    Forall P (list_ascii_of_string acc) ->
    Forall P (list_ascii_of_string (digits_go fuel 16 n acc)).
Proof.
  intros HP. induction fuel as [|fuel IH]; intros n acc Hacc; [done|].
  cbn [digits_go].
  assert (Forall P (list_ascii_of_string (String (digit_char (n mod 16)) acc))) as Hacc'.
  { simpl. constructor; [|done]. apply HP, Z.mod_pos_bound. lia. }
  destruct (n / 16 =? 0); [done|]. by apply IH.
Qed.

Lemma digits_go_length fuel :
  forall n acc (k : nat),
    0 <= n < 16 ^ Z.of_nat (S k) ->
    (String.length acc <= String.length (digits_go fuel 16 n acc) <= String.length acc + S k)%nat
    /\ (fuel <> 0%nat -> (String.length acc < String.length (digits_go fuel 16 n acc))%nat).
Proof.
  induction fuel as [|fuel IH]; intros n acc k Hn.
  { simpl. split; [lia|done]. }
  cbn [digits_go]. destruct (n / 16 =? 0) eqn:Hq.
  { simpl. split; [lia|]. intros _. lia. }
  apply Z.eqb_neq in Hq.
  destruct k as [|k].
  { exfalso. apply Hq. apply Z.div_small. simpl in Hn. lia. }
  destruct (IH (n / 16) (String (digit_char (n mod 16)) acc) k) as [Hlen _].
  { rewrite (Nat2Z.inj_succ (S k)), Z.pow_succ_r in Hn by lia.
    split; [apply Z.div_pos; lia|]. apply Z.div_lt_upper_bound; lia. }
  simpl in Hlen. split; [lia|]. intros _. lia.
Qed.

(** Property X21. The identifier of a cube is made of one to eight characters,
    each a decimal digit or a letter from a to f in lower case. *)
Theorem X21_cube_id_is_short_lowercase_hex (text : string) :
  (1 <= String.length (cube_id text) <= 8)%nat
  /\ Forall (fun c => (48 <= nat_of_ascii c <= 57)%nat \/ (97 <= nat_of_ascii c <= 102)%nat)
            (list_ascii_of_string (cube_id text)).
Proof.
  unfold cube_id, integer_toString, to_uint32.
  pose proof (Z.mod_pos_bound (fnv_hash text) (2 ^ 32) ltac:(lia)) as Hn.
  set (n := fnv_hash text mod 2 ^ 32) in *.
  assert ((n <? 0) = false) as -> by (apply Z.ltb_ge; lia).
  split.
  - destruct (digits_go_length (S (Z.to_nat (Z.log2 n))) n "" 7) as [Hlen Hpos].
    { change (16 ^ Z.of_nat 8) with (2 ^ 32). lia. }
    specialize (Hpos ltac:(done)). simpl in *. lia.
  - apply digits_go_chars; [|constructor].
    intros d Hd. rewrite digit_char_code by done.
    destruct (d <? 10) eqn:Hlt; [apply Z.ltb_lt in Hlt|apply Z.ltb_ge in Hlt]; lia.
Qed.

End IdentifierFacts.

Section PushdownKeeps.

Lemma kept_refl keys x : kept keys x x.
Proof. destruct x; simpl; auto. Qed.

Lemma kept_trans keys x y z : kept keys x y -> kept keys y z -> kept keys x z.
Proof.
  destruct x, y, z; simpl; try done.
  - intros [H1 K1] [H2 K2]. split; [congruence|]. intros it Hit Hk.
    apply K2; [|done]. by apply K1.
  - congruence.
Qed.

Lemma all_kept_refl keys h : all_kept keys h h.
Proof. intros o. destruct (h !! o); [apply kept_refl|done]. Qed.

Lemma all_kept_trans keys h1 h2 h3 :
  all_kept keys h1 h2 -> all_kept keys h2 h3 -> all_kept keys h1 h3.
Proof.
  intros H12 H23 o. specialize (H12 o). specialize (H23 o).
  destruct (h1 !! o), (h2 !! o), (h3 !! o); try done. by eapply kept_trans.
Qed.

Lemma all_kept_insert keys (h : Heap) o x x' :
  h !! o = Some x -> kept keys x x' -> all_kept keys h (<[o := x']> h).
Proof.
  intros Ho Hk o'. destruct (decide (o' = o)) as [->|Hne].
  - by rewrite Ho, lookup_insert_eq.
  - rewrite lookup_insert_ne by done. destruct (h !! o'); [apply kept_refl|done].
Qed.

Lemma all_kept_alter keys (h : Heap) c m :
  all_kept keys h (alter (set_cteFor c) m h).
Proof.
  intros o. rewrite lookup_alter. case_decide as Ho.
  - subst. destruct (h !! o) as [[q c'|s c']|]; simpl; auto.
  - destruct (h !! o); [apply kept_refl|done].
Qed.

Lemma all_kept_propagate keys h o : all_kept keys h (propagate_cteFor h o).
Proof.
  unfold propagate_cteFor.
  destruct (h !! o) as [[q c|s [p|]]|]; try apply all_kept_refl.
  generalize (so_queries s). intros ms.
  assert (forall h', all_kept keys h h' ->
            all_kept keys h (fold_left (fun h' m => alter (set_cteFor (Some p)) m h') ms h'))
    as Hfold.
  { induction ms as [|m ms IH]; intros h' Hh'; [done|]. simpl. apply IH.
    eapply all_kept_trans; [exact Hh'|]. apply all_kept_alter. }
  apply Hfold, all_kept_refl.
Qed.

Lemma all_kept_select cols (h : Heap) o q c :
  h !! o = Some (OQuery q c) ->
  all_kept (map sel_as (flat_map select_items cols)) h
    (<[o := OQuery (with_select (select_list (q_select q) [Arr cols]) q) c]> h).
Proof.
  intros Ho. eapply all_kept_insert; [exact Ho|]. simpl. split; [done|].
  intros it Hit Hk. unfold select_list. apply elem_of_app. left.
  apply list_elem_of_filter. split; [|done].
  simpl. by rewrite app_nil_r.
Qed.

Lemma bind_snd {A B} (m : HM A) (k : A -> HM B) h :
  (bind m k h).2 = match m h with
                   | (Ok a, h1) => (k a h1).2
                   | (Throw _, h1) => h1
                   end.
Proof. unfold bind. by destruct (m h) as [[a|e] h1]. Qed.

Lemma foldM_kept keys (f : gset oid -> SubVal -> HM (gset oid)) :
  (forall memo q h, all_kept keys h (f memo q h).2) ->
  forall subs memo h, all_kept keys h (hm_foldM f memo subs h).2.
Proof.
  intros Hf subs. induction subs as [|q subs IH]; intros memo h.
  - apply all_kept_refl.
  - simpl. rewrite bind_snd. pose proof (Hf memo q h) as Hq.
    destruct (f memo q h) as [[memo1|e] h1]; [|done].
    eapply all_kept_trans; [exact Hq|]. apply IH.
Qed.

Lemma pushdown_kept cols fuel :
  forall memo q h,
    all_kept (map sel_as (flat_map select_items cols)) h (pushdown fuel cols memo q h).2.
Proof.
  set (keys := map sel_as (flat_map select_items cols)).
  induction fuel as [|fuel IH]; intros memo q h; [apply all_kept_refl|].
  simpl. destruct q as [o|name]; [|apply all_kept_refl].
  destruct (decide (o ∈ memo)); [apply all_kept_refl|].
  rewrite bind_snd. unfold get_obj.
  destruct (h !! o) as [x|] eqn:Ho; [|apply all_kept_refl].
  rewrite bind_snd.
  assert (exists h1, (match x with
                      | OQuery qd _ => match q_from qd with
                                       | [] => ret o
                                       | _ :: _ => select o [Arr cols]
                                       end
                      | OSetOp _ _ => ret o
                      end h) = (Ok o, h1) /\ all_kept keys h h1) as (h1 & -> & H1).
  { destruct x as [qd c|s c]; [destruct (q_from qd)|].
    - exists h. split; [done|apply all_kept_refl].
    - eexists. split.
      + unfold select, bind, update_query. rewrite Ho. reflexivity.
      + by apply all_kept_select.
    - exists h. split; [done|apply all_kept_refl]. }
  rewrite bind_snd. unfold subqueries.
  pose proof (all_kept_propagate keys h1 o) as H2.
  destruct (subqueries_of h1 o) as [subs|e].
  - eapply all_kept_trans; [exact H1|]. eapply all_kept_trans; [exact H2|].
    by apply foldM_kept.
  - by eapply all_kept_trans.
Qed.

Lemma subqueryPushdown_kept query cols h :
  all_kept (map sel_as (flat_map select_items cols)) h (subqueryPushdown query cols h).2.
Proof.
  unfold subqueryPushdown.
  pose proof (pushdown_kept cols (S (size h)) ∅ query h) as Hk.
  by destruct (pushdown _ _ _ _ _) as [[memo|e] h'].
Qed.

(** Property X23. Whatever the push-down does, and whether it returns or
    throws, every object is there afterwards as the kind of object it was, and
    a query has kept its WITH, FROM, WHERE, GROUP BY and ORDER BY lists and
    everything else but its SELECT list; of the SELECT list it has kept every
    item whose alias is not the name of a column pushed down. (The [cteFor]
    links may change: the [subqueries] getter of a set operation sets them.)
    *)
Theorem X23_pushdown_changes_select_lists_only query cols h :
  all_kept (map sel_as (flat_map select_items cols)) h (subqueryPushdown query cols h).2.
Proof. apply subqueryPushdown_kept. Qed.

End PushdownKeeps.

Section PushdownReturns.

Lemma closed_same_skeleton h h' : same_skeleton h h' -> closed h -> closed h'.
Proof.
  intros Hs Hc o Ho.
  assert (is_Some (h !! o)) as Ho0.
  { apply elem_of_dom. rewrite (same_skeleton_dom _ _ Hs). by apply elem_of_dom. }
  destruct (Hc o Ho0) as (l & Hl & Hall). exists l.
  rewrite <- (same_skeleton_subqueries h h') by done. split; [done|].
  eapply Forall_impl; [exact Hall|]. simpl. intros s (c & -> & Hc').
  exists c. split; [done|].
  apply elem_of_dom. rewrite <- (same_skeleton_dom _ _ Hs). by apply elem_of_dom.
Qed.

Lemma foldM_no_TypeError cols (f : gset oid -> SubVal -> HM (gset oid)) :
  (forall memo q h memo' h',
     settled h -> f memo q h = (Ok memo', h') ->
     visited cols h memo memo' h' /\ forall o, q = SubObj o -> o ∈ memo') ->
  (forall memo q h e h',
     settled h -> closed h -> (exists c, q = SubObj c /\ is_Some (h !! c)) ->
     f memo q h = (Throw e, h') -> e = RangeError) ->
  forall subs memo h e h',
    settled h -> closed h ->
    Forall (fun s => exists c, s = SubObj c /\ is_Some (h !! c)) subs ->
    hm_foldM f memo subs h = (Throw e, h') -> e = RangeError.
Proof.
  intros Hok Hthrow subs.
  induction subs as [|q subs IH]; intros memo h e h' Hst Hcl Hall; [done|].
  apply Forall_cons in Hall as [Hq Hall].
  simpl. intros [Hf|(memo1 & h1 & Hf & Hrest)]%bind_throw.
  - by eapply Hthrow.
  - destruct (Hok _ _ _ _ _ Hst Hf) as [(Hs & _) _].
    eapply (IH memo1 h1); [by eapply same_skeleton_settled|by eapply closed_same_skeleton|
                           |exact Hrest].
    eapply Forall_impl; [exact Hall|]. simpl. intros s (c & -> & Hc).
    exists c. split; [done|].
    apply elem_of_dom. rewrite <- (same_skeleton_dom _ _ Hs). by apply elem_of_dom.
Qed.

Lemma pushdown_no_TypeError cols fuel :
  forall memo q h e h',
    settled h -> closed h -> (exists c, q = SubObj c /\ is_Some (h !! c)) ->
    pushdown fuel cols memo q h = (Throw e, h') -> e = RangeError.
Proof.
  induction fuel as [|fuel IH]; intros memo q h e h' Hst Hcl (o & -> & [x Ho]) Hp.
  { by injection Hp as <-. }
  simpl in Hp. destruct (decide (o ∈ memo)); [done|].
  unfold bind at 1 in Hp. unfold get_obj in Hp. rewrite Ho in Hp.
  assert (exists h1, (match x with
                      | OQuery qd _ => match q_from qd with
                                       | [] => ret o
                                       | _ :: _ => select o [Arr cols]
                                       end
                      | OSetOp _ _ => ret o
                      end h) = (Ok o, h1) /\ same_skeleton h h1) as (h1 & Hsel & Hs1).
  { destruct x as [qd c|s c]; [destruct (q_from qd)|].
    - by exists h.
    - eexists. split.
      + unfold select, bind, update_query. rewrite Ho. reflexivity.
      + by eapply same_skeleton_insert.
    - by exists h. }
  unfold bind at 1 in Hp. rewrite Hsel in Hp.
  assert (settled h1) as Hst1 by (by eapply same_skeleton_settled).
  assert (closed h1) as Hcl1 by (by eapply closed_same_skeleton).
  unfold bind at 1 in Hp. rewrite subqueries_settled in Hp by done.
  destruct (Hcl1 o) as (subs & Hsubs & Hall).
  { apply elem_of_dom. rewrite <- (same_skeleton_dom _ _ Hs1). apply elem_of_dom. eauto. }
  rewrite Hsubs in Hp.
  eapply (foldM_no_TypeError cols _ (pushdown_visited cols fuel) IH); eauto.
Qed.

(** Property X24. On a store in which every subquery is a live object (and the
    set operations that are common table expressions have handed their owner
    down), the push-down returns, whatever the shape of the subquery graph: an
    object is visited once, so a graph with cycles is no obstacle. *)
Theorem X24_pushdown_returns_on_closed_stores o cols h :
  settled h -> closed h -> is_Some (h !! o) ->
  exists h', subqueryPushdown (SubObj o) cols h = (Ok tt, h').
Proof.
  intros Hst Hcl Ho.
  destruct (subqueryPushdown (SubObj o) cols h) as [[[]|e] h'] eqn:Hp; [eauto|].
  pose proof (subqueryPushdown_no_overflow _ _ _ _ _ Hst Hp) as ->.
  unfold subqueryPushdown in Hp.
  destruct (pushdown _ _ _ _ _) as [[memo|e] h0] eqn:Hpd; [discriminate Hp|].
  injection Hp as -> ->.
  apply pushdown_no_TypeError in Hpd; [discriminate Hpd|done|done|eauto].
Qed.

End PushdownReturns.

Section PlannerFacts.
Context `{!SqlLib} `{!Hash}.

Lemma find_none_all {A} (f : A -> bool) l :
  (forall x, In x l -> f x = false) -> find f l = None.
Proof.
  induction l as [|x l IH]; intros Hf; [done|]. simpl.
  rewrite (Hf x) by (by left). apply IH. intros y Hy. apply Hf. by right.
Qed.

Lemma cte_lookup_inherited ctes k :
  k ∉ map fst ctes -> inherited k = true -> cte_lookup ctes k = Some (SubInherited k).
Proof.
  intros Hk Hi. unfold cte_lookup.
  assert (find (fun '(al, _) => String.eqb al k && negb (String.eqb al "__proto__"))
               (rev ctes) = None) as ->; [|by rewrite Hi].
  apply find_none_all. intros [al q] Hin. apply in_rev in Hin.
  assert (String.eqb al k = false) as ->; [|done].
  apply String.eqb_neq. intros ->. apply Hk.
  apply list_elem_of_In, in_map_iff. by exists (k, q).
Qed.

(** Property X25. A client query that is no common table expression and whose
    first FROM entry is a table named like a member of [Object.prototype]
    (constructor, toString, valueOf, ...), with no common table expression of
    that name, cannot be planned: the lookup of the name among the common
    table expressions finds the inherited member, the planner takes it for the
    first subquery, and the push-down throws a TypeError on it. *)
Theorem X25_planner_throws_on_inherited_table_name
    clientQuery act indexCols schema h q columns f rest k col :
  h !! clientQuery = Some (OQuery q None) ->
  a_columns act = Some columns ->
  q_from q = f :: rest -> from_src f = FromExpr (Ref (Some k) col) ->
  inherited k = true -> k ∉ map fst (q_with q) ->
  exists h', dataCubeInfo clientQuery act indexCols schema h = (Throw TypeError, h').
Proof.
  intros Ho Hcols Hfrom Hsrc Hinh Hk.
  unfold dataCubeInfo, cubePlan. rewrite Hcols. simpl.
  unfold bind at 1. unfold bind at 1. unfold select at 1.
  unfold bind at 1. unfold update_query at 1. rewrite Ho. unfold ret at 1.
  unfold bind at 1. unfold lift at 1.
  unfold bind at 1. unfold groupby at 1.
  unfold bind at 1. unfold update_query at 1. rewrite lookup_insert_eq. unfold ret at 1.
  rewrite insert_insert_eq.
  unfold bind at 1. unfold subqueries at 1.
  unfold subqueries_of, propagate_cteFor. rewrite lookup_insert_eq. simpl.
  rewrite Hfrom. simpl. unfold from_subquery at 1. rewrite Hsrc. simpl.
  rewrite cte_lookup_inherited by done. simpl.
  rewrite (res_mapM_total _ (fun f => match from_src f with
                                      | FromQuery o => [SubObj o]
                                      | FromExpr e =>
                                          match cte_lookup (q_with q) (table_key e) with
                                          | Some s => [s]
                                          | None => []
                                          end
                                      end)).
  2:{ intros x _. unfold from_subquery. by destruct (from_src x). }
  simpl. eexists. reflexivity.
Qed.

End PlannerFacts.

Section PlanTextFacts.
Context `{!SqlLib} `{!Hash}.

(** Property X26. What planning leaves of the client query. The creation text
    of a cube is the text of the client query as the planner leaves it:
    printed again in the store after planning, the client query gives that
    text. The planner has emptied its ORDER BY list and moved the criteria to
    the select template, and has added the names of the active columns (those
    that are not empty) to its GROUP BY list. *)
Theorem X26_plan_text_is_the_client_query clientQuery act indexCols schema h info h' :
  dataCubeInfo clientQuery act indexCols schema h = (Ok info, h') ->
  toString clientQuery h' = (Ok (ci_create info), h')
  /\ exists q0 c0 q c qt columns,
       h !! clientQuery = Some (OQuery q0 c0)
       /\ a_columns act = Some columns
       /\ h' !! clientQuery = Some (OQuery q c)
       /\ q_orderby q = []
       /\ q_groupby q
          = (q_groupby q0
               ++ map asColumn (filter (fun x => val_truthy x = true)
                                       (map VStr (map fst columns))))%list
       /\ h' !! ci_select info = Some (OQuery qt None)
       /\ q_orderby qt
          = map asColumn (filter (fun x => val_truthy x = true) (q_orderby q0)).
Proof.
  unfold dataCubeInfo. intros (p & h1' & Hp & [-> ->]%ret_ok)%bind_ok.
  change (ci_create (new_DataCubeInfo p)) with (p_create p).
  change (ci_select (new_DataCubeInfo p)) with (p_select p).
  apply cubePlan_steps in Hp
    as (columns & ha & hb & subs & hc & order & hd & sel0 & he & hf & hg & hh
        & Hcols & Hsel & Hgrp & Hsubs & Hpush & Hord & Hassign & Hstr & Hss & Hfrom
        & Hgrp2 & Hord2 & -> & _).
  (* the augmented query *)
  apply select_ok in Hsel as (_ & q0 & c0 & Hq0 & ->).
  apply groupby_ok in Hgrp as (_ & qa & ca & Hqa & ->).
  rewrite lookup_insert_eq in Hqa. injection Hqa as <- <-.
  rewrite insert_insert_eq in *.
  set (qb := with_groupby _ _) in *.
  set (hb := <[clientQuery := OQuery qb c0]> h) in *.
  assert (hc = hb) as ->.
  { unfold subqueries in Hsubs. injection Hsubs as _ <-.
    unfold propagate_cteFor, hb. by rewrite lookup_insert_eq. }
  (* the push-down *)
  assert (all_kept (map sel_as (flat_map select_items (base_columns columns))) hb hd) as Hkept.
  { destruct subs as [|subq subs'].
    - apply ret_ok in Hpush as [_ ->]. apply all_kept_refl.
    - pose proof (subqueryPushdown_kept subq (base_columns columns) hb) as Hk.
      by rewrite Hpush in Hk. }
  pose proof (Hkept clientQuery) as Hcq. unfold hb in Hcq at 1.
  rewrite lookup_insert_eq in Hcq.
  destruct (hd !! clientQuery) as [[q1 c1|s1 c1]|] eqn:Hq1; try done.
  destruct Hcq as [Hsame _].
  (* the ORDER BY list *)
  unfold orderby_get, bind, get_obj in Hord. rewrite Hq1 in Hord.
  injection Hord as <-.
  apply orderby_assign_ok in Hassign as (x & Hx & ->).
  rewrite Hq1 in Hx. injection Hx as <-.
  set (he := <[clientQuery := OQuery (with_orderby [] q1) c1]> hd) in *.
  (* the template *)
  unfold static_select in Hss.
  apply bind_ok in Hss as (s & hf0 & (-> & Hfresh & ->)%alloc_ok & Hsel2).
  apply select_ok in Hsel2 as (-> & q3 & c3 & Hl3 & ->).
  rewrite lookup_insert_eq in Hl3. injection Hl3 as <- <-.
  apply from_ok in Hfrom as (_ & q4 & c4 & Hl4 & ->).
  rewrite lookup_insert_eq in Hl4. injection Hl4 as <- <-.
  apply groupby_ok in Hgrp2 as (_ & q5 & c5 & Hl5 & ->).
  rewrite lookup_insert_eq in Hl5. injection Hl5 as <- <-.
  apply orderby_ok in Hord2 as (_ & x6 & Hl6 & ->).
  rewrite lookup_insert_eq in Hl6. injection Hl6 as <-.
  rewrite !insert_insert_eq.
  set (sel0 := fresh (dom he)) in *.
  set (qt := with_orderby _ _).
  assert (he ⊆ <[sel0 := OQuery qt None]> he) as Hsub by (by apply insert_subseteq).
  assert (he !! clientQuery = Some (OQuery (with_orderby [] q1) c1)) as Hcq
    by (unfold he; apply lookup_insert_eq).
  split.
  - unfold toString in *. injection Hstr as Hstr. f_equal.
    apply (toString_fuel_mono (S (size he)) _ he); [|exact Hsub|exact Hstr].
    apply le_n_S. by apply map_subseteq_size.
  - exists q0, c0, (with_orderby [] q1), c1, qt, columns.
    split; [done|]. split; [done|].
    split; [by apply (lookup_weaken _ _ _ _ Hcq Hsub)|].
    split; [done|]. split.
    { change (q_groupby (with_orderby [] q1)) with (q_groupby (with_select [] q1)).
      rewrite <- Hsame. unfold qb. simpl. by rewrite app_nil_r. }
    split; [apply lookup_insert_eq|].
    unfold qt. simpl. unfold orderby_add. simpl. rewrite app_nil_r.
    change (q_orderby q1) with (q_orderby (with_select [] q1)). by rewrite <- Hsame.
Qed.

End PlanTextFacts.

(* ===================================================================== *)
(** * More properties of the indexer *)
(* ===================================================================== *)

Section CacheFacts.
Context `{!SqlLib} `{!Scales} `{!Hash} `{!Host}.

(** ** What one call of [index] costs *)

(** Property X27. A call of [index] never changes the enabled flag or the
    schema, and it leaves the log of the coordinator as it is unless it
    returns a cube for a client that had no entry under the source of the
    clause: then it has stored the cube and submitted one batch, which creates
    the schema and then the table. *)
Theorem X27_index_submits_at_most_one_batch client sel cl st w r st' w' :
  index client sel cl st w = (r, st', w') ->
  _enabled st' = _enabled st /\ _schema st' = _schema st
  /\ (w_log w' = w_log w
      \/ exists info,
           r = Ok (ECube info)
           /\ indexes (entered cl st) !! client = None
           /\ indexes st' !! client = Some (ECube info)
           /\ submitted (_schema st) w w' info).
Proof.
  intros Hi. destruct (index_keeps_flags _ _ _ _ _ _ _ _ Hi) as [He Hs].
  split; [done|]. split; [done|].
  destruct (truthy (_enabled st)) eqn:Hen.
  2:{ rewrite index_disabled in Hi by done. inversion Hi; subst. by left. }
  destruct (truthy (cl_source cl)) eqn:Hsrc.
  2:{ rewrite index_no_source in Hi by done. inversion Hi; subst. by left. }
  apply index_outcomes in Hi; [|done..].
  destruct Hi as [| | | |a e st1 w1 Hcase Hnone Hstored|]; try by left.
  destruct e as [| |info]; simpl in Hstored; [by subst; left..|]. right.
  exists info. split; [done|]. split; [done|]. split.
  - simpl. apply lookup_insert_eq.
  - by rewrite <- (entered_schema cl st).
Qed.

(** ** Entries stay while the source stays *)

(** Property X28. A call of [index] with a clause whose source is that of the
    cached analysis (or on an indexer without one) evicts nothing: every entry
    of the [indexes] map is still there afterwards, unchanged. *)
Theorem X28_index_keeps_entries_of_the_same_source client sel cl st w r st' w' k e :
  source_changed cl st = false ->
  index client sel cl st w = (r, st', w') ->
  indexes st !! k = Some e ->
  indexes st' !! k = Some e.
Proof.
  intros Hch Hi Hk.
  destruct (truthy (_enabled st)) eqn:Hen.
  2:{ rewrite index_disabled in Hi by done. by inversion Hi; subst. }
  destruct (truthy (cl_source cl)) eqn:Hsrc.
  2:{ rewrite index_no_source in Hi by done. by inversion Hi; subst. }
  apply index_outcomes in Hi; [|done..].
  unfold entered in Hi. rewrite Hch in Hi.
  destruct Hi as [| | | |a e' st1 w1 Hcase Hnone Hstored|a e' st1 w1 Hcase Hnone Hlog];
    try done.
  - simpl. destruct (decide (k = client)) as [->|Hne]; [congruence|].
    rewrite lookup_insert_ne by done.
    by destruct Hcase as [(_ & _ & ->)|(_ & _ & _ & ->)].
  - by destruct Hcase as [(_ & _ & ->)|(_ & _ & _ & ->)].
Qed.

(** ** The cubes of the cache *)

Lemma build_cube_info client sel src act ic schema w info w' :
  build_cube client sel src act ic schema w = (Ok info, w') ->
  ci_table info = cube_table schema (cube_id (ci_create info))
  /\ ci_skip info = false /\ ci_active info = act.
Proof.
  unfold build_cube.
  destruct (bind _ _ _) as [[i|e] h] eqn:Hb; simpl; [|done].
  intros [= <- <-]. simpl.
  apply bind_ok in Hb as (q & h1 & _ & Hd).
  unfold dataCubeInfo in Hd. apply bind_ok in Hd as (p & h2 & Hp & [-> ->]%ret_ok).
  apply cubePlan_steps in Hp
    as (? & ? & ? & ? & ? & ? & ? & ? & ? & ? & ? & ? & _ & _ & _ & _ & _ & _ & _
        & _ & _ & _ & _ & _ & _ & Hid & Ht & Hact).
  simpl. by rewrite Ht, Hid.
Qed.

(** The cube [index] has built and stored for a client without an entry
    comes from [build_cube] with the analysis that is cached
    afterwards. *)
Lemma index_builds client sel cl st w info st' w' :
  truthy (_enabled st) = true -> truthy (cl_source cl) = true ->
  index client sel cl st w = (Ok (ECube info), st', w') ->
  indexes (entered cl st) !! client = None ->
  exists a ic,
    active st' = Some a
    /\ build_cube client sel (cl_source cl) a ic (_schema st) w = (Ok info, w').
Proof.
  intros He Hs. unfold index, entered, source_changed. rewrite He, Hs. simpl.
  assert (forall a st2,
    active st2 = Some a ->
    match indexColumns client with
    | Some indexCols =>
        if selection_skip sel client cl
        then (Ok ESkip, set_index client ESkip st2, w)
        else
          let (r0, w'0) :=
            build_cube client sel (cl_source cl) a indexCols (_schema st) w in
          match r0 with
          | Ok info => (Ok (ECube info), set_index client (ECube info) st2, w'0)
          | Throw e0 => (Throw e0, st2, w'0)
          end
    | None => (Ok ENull, set_index client ENull st2, w)
    end = (Ok (ECube info), st', w') ->
    exists a ic,
      active st' = Some a
      /\ build_cube client sel (cl_source cl) a ic (_schema st) w = (Ok info, w')) as Hstore.
  { intros a st2 Ha. destruct (indexColumns client) as [ic|]; [|done].
    destruct (selection_skip sel client cl); [done|].
    destruct (build_cube _ _ _ _ _ _ _) as [[i|e] w1] eqn:Hb; [|done].
    intros [= <- <- <-]. exists a, ic. by split. }
  destruct (active st) as [a|] eqn:Hact.
  - destruct (strict_eq (a_source a) (cl_source cl)) eqn:Hsrc; simpl.
    + rewrite Hact. destruct (strict_eq (a_source a) JNull); [done|].
      intros Hi Hnone. rewrite Hnone in Hi. by apply (Hstore a st).
    + destruct (activeColumns cl) as [a'|e]; simpl; [|done].
      destruct (strict_eq (a_source a') JNull); [done|].
      rewrite lookup_empty. intros Hi _. by apply (Hstore a' (assign_active a' (clear st))).
  - simpl. rewrite ?Hact.
    destruct (activeColumns cl) as [a'|e]; simpl; [|done].
    destruct (strict_eq (a_source a') JNull); [done|].
    intros Hi Hnone. rewrite Hnone in Hi. by apply (Hstore a' (assign_active a' st)).
Qed.

Lemma cube_in_order_later st w st' w' rest info :
  _schema st' = _schema st -> active st' = active st ->
  w_log w' = (w_log w ++ rest)%list ->
  cube_in_order st w info -> cube_in_order st' w' info.
Proof.
  intros Hs Ha Hlog (Ht & Hskip & Hact & n & Hn & Hb).
  unfold cube_in_order. rewrite Hs, Ha, Hlog.
  repeat split; try done. exists n. split; [done|].
  by apply lookup_app_l_Some.
Qed.

Lemma cache_in_order_no_active st w st' w' :
  cache_in_order st w -> active st = None -> indexes st' = indexes st ->
  cache_in_order st' w'.
Proof.
  intros Hc Ha Hi client info Hl. rewrite Hi in Hl.
  destruct (Hc _ _ Hl) as (_ & _ & Hact & _). congruence.
Qed.

Lemma cache_in_order_empty st w : indexes st = ∅ -> cache_in_order st w.
Proof. intros Hi client info. by rewrite Hi, lookup_empty. Qed.

Lemma cache_in_order_entered cl st w : cache_in_order st w -> cache_in_order (entered cl st) w.
Proof.
  unfold entered. destruct (source_changed cl st); [|done].
  intros _. by apply cache_in_order_empty.
Qed.

Lemma step_cache_in_order c st w st' w' :
  cache_in_order st w -> step c (st, w) = (st', w') -> cache_in_order st' w'.
Proof.
  intros Hc. destruct c as [client sel cl| |v|s|]; simpl.
  - destruct (index client sel cl st w) as [[r st1] w1] eqn:Hi.
    intros [= <- <-].
    destruct (truthy (_enabled st)) eqn:Hen.
    2:{ rewrite index_disabled in Hi by done. by inversion Hi; subst. }
    destruct (truthy (cl_source cl)) eqn:Hsrc.
    2:{ rewrite index_no_source in Hi by done. by inversion Hi; subst. }
    pose proof Hi as Hout. apply index_outcomes in Hout; [|done..].
    pose proof (cache_in_order_entered cl _ _ Hc) as Hc0.
    pose proof (entered_schema cl st) as Hschema.
    destruct Hout as [a e Ha Hs Hl|e Ha Hac|a Ha Hac Hn|a e Ha Hac Hs Hl
                      |a e st2 w2 Hcase Hnone Hstored|a e st2 w2 Hcase Hnone Hlog].
    + done.
    + done.
    + by eapply cache_in_order_no_active.
    + by eapply cache_in_order_no_active.
    + assert (active st2 = Some a /\ _schema st2 = _schema (entered cl st)
              /\ indexes st2 = indexes (entered cl st)
              /\ (active (entered cl st) = None \/ st2 = entered cl st))
        as (Ha2 & Hs2 & Hi2 & Hold).
      { destruct Hcase as [(Ha & _ & ->)|(Ha & _ & _ & ->)]; simpl; auto. }
      assert (exists rest, w_log w2 = (w_log w ++ rest)%list) as [rest Hrest].
      { destruct e as [| |info]; simpl in Hstored.
        - subst. exists []. by rewrite app_nil_r.
        - subst. exists []. by rewrite app_nil_r.
        - destruct Hstored as [-> _]. eauto. }
      intros k info. simpl. destruct (decide (k = client)) as [->|Hne].
      * rewrite lookup_insert_eq. intros [= ->].
        destruct (index_builds _ _ _ _ _ _ _ _ Hen Hsrc Hi Hnone) as (a' & ic & Ha' & Hb).
        simpl in Ha'. rewrite Ha2 in Ha'. injection Ha' as <-.
        destruct (build_cube_info _ _ _ _ _ _ _ _ _ Hb) as (Ht & Hskip & Hact).
        apply build_cube_submitted in Hb as [Hlog Hres].
        unfold cube_in_order. simpl. rewrite Hs2, Hschema, Ha2, Hact.
        repeat split; try done. eexists. split; [exact Hres|].
        rewrite Hlog. by apply list_lookup_middle.
      * rewrite lookup_insert_ne by done. rewrite Hi2. intros Hl.
        destruct Hold as [Hnoact| ->].
        { destruct (Hc0 _ _ Hl) as (_ & _ & Hact & _). congruence. }
        eapply cube_in_order_later; [| |exact Hrest|by eapply Hc0]; done.
    + destruct Hcase as [(Ha & _ & ->)|(Ha & _ & _ & ->)].
      * intros k info Hl.
        eapply (cube_in_order_later (entered cl st) w _ _ []); [done|done| |by eapply Hc0].
        by rewrite app_nil_r.
      * by eapply cache_in_order_no_active.
  - intros [= <- <-]. by apply cache_in_order_empty.
  - intros [= <- <-]. unfold set_enabled.
    destruct (strict_eq _ _); simpl; [done|].
    destruct (truthy v); simpl; [done|by apply cache_in_order_empty].
  - intros [= <- <-]. unfold set_schema.
    destruct (String.eqb _ _); simpl; [done|by apply cache_in_order_empty].
  - intros [= <- <-]. by apply cache_in_order_empty.
Qed.

(** Property X30. In every state the indexer reaches from its constructor
    through [index], [clear], the two setters and [dropIndexTables], every
    cube of the cache is in order: its table is the cube table of the current
    schema for its creation text (so no cube survives a change of the schema),
    it is no skip, its active columns are the cached analysis, and its result
    is the promise of a batch in the log of the coordinator that creates the
    current schema and then the table. *)
Theorem X30_cached_cubes_are_in_order schema enabled calls w0 :
  cache_in_order (run calls (new_indexer schema enabled, w0)).1
                 (run calls (new_indexer schema enabled, w0)).2.
Proof.
  assert (forall calls st w, cache_in_order st w ->
            cache_in_order (run calls (st, w)).1 (run calls (st, w)).2) as Hrun.
  { clear calls. induction calls as [|c calls IH]; intros st w Hc; [done|].
    rewrite run_cons. destruct (step c (st, w)) as [st1 w1] eqn:Hstep.
    apply IH. by eapply step_cache_in_order. }
  apply Hrun. by apply cache_in_order_empty.
Qed.

End CacheFacts.

Section ThrowFacts.
Context `{!SqlLib} `{!Scales} `{!Hash} `{!Host}.

(** Property X29. A call of [index] that throws (the analysis of the clause or
    the building of the cube threw) stores no entry and submits nothing: the
    [indexes] map is the one the call has entered with, the log of the
    coordinator, the enabled flag and the schema are as they were. What may
    stay behind is the analysis of the clause, cached before the cube was
    built. *)
Theorem X29_index_that_throws_stores_nothing client sel cl st w e st' w' :
  index client sel cl st w = (Throw e, st', w') ->
  indexes st' = indexes (entered cl st)
  /\ w_log w' = w_log w
  /\ _enabled st' = _enabled st /\ _schema st' = _schema st
  /\ (active st' = active (entered cl st)
      \/ exists a, activeColumns cl = Ok a /\ active st' = Some a).
Proof.
  intros Hi. destruct (index_keeps_flags _ _ _ _ _ _ _ _ Hi) as [He Hs].
  destruct (truthy (_enabled st)) eqn:Hen.
  2:{ by rewrite index_disabled in Hi by done. }
  destruct (truthy (cl_source cl)) eqn:Hsrc.
  2:{ by rewrite index_no_source in Hi by done. }
  apply index_outcomes in Hi; [|done..].
  inversion Hi; subst.
  - repeat split; try done. by left.
  - match goal with
    | Hc : _ \/ _ |- _ => destruct Hc as [(Ha & _ & ->)|(Ha & Hac & _ & ->)]
    end.
    + repeat split; try done. by left.
    + repeat split; try done. right. eauto.
Qed.

End ThrowFacts.

(* ===================================================================== *)
(** * The properties at concrete inputs *)
(* ===================================================================== *)

Section DemoExtras.
Import Demo.

Lemma X3_witness :
  exists q',
    select 0 [One (AStr "b"); One (AStr "c")] demo_store
    = (Ok 0, <[0 := OQuery q' None]> demo_store)
    /\ NoDup (map sel_as (q_select q')).
Proof.
  apply (X3_select_keeps_aliases_distinct 0 (One (AStr "b")) [One (AStr "c")]
           demo_store demo_two_columns None).
  - reflexivity.
  - apply (bool_decide_unpack _). vm_compute. reflexivity.
  - apply (bool_decide_unpack _). vm_compute. reflexivity.
Defined.

Lemma X4_witness :
  select 0 [One (AObj [("a", VUndefined)])] demo_store
  = (Ok 0, <[0 := OQuery (with_select
                            (filter (fun x => sel_as x <> Some (unquote "a"))
                                    (q_select demo_two_columns)) demo_two_columns)
                         None]> demo_store)
  /\ filter (fun x => sel_as x <> Some (unquote "a")) (q_select demo_two_columns)
     = [column_item "b"].
Proof.
  split.
  - apply (X4_select_null_removes_the_column 0 "a" demo_store demo_two_columns None).
    reflexivity.
  - vm_compute. reflexivity.
Defined.

Lemma X6_witness :
  reset_where 0 [] demo_store
  = (Ok (Got []), <[0 := OQuery (with_where [] demo_two_columns) None]> demo_store).
Proof.
  destruct (X6_reset_discards_earlier_calls 0 demo_store) as (_ & _ & _ & _ & Hnone).
  destruct (Hnone demo_two_columns None) as (_ & _ & Hw & _); [reflexivity|exact Hw].
Defined.


Lemma X8_witness : child demo_ctes 0 2.
Proof.
  apply (X8_from_name_resolves_to_last_cte demo_ctes 0 demo_cte_query [("t", 1)] "t" 2 []
           table_t None).
  - reflexivity.
  - reflexivity.
  - discriminate.
  - apply not_elem_of_nil.
  - apply elem_of_cons. by left.
  - reflexivity.
Defined.

Lemma X9_witness :
  (subqueries 0 demo_setop).2 !! 1 = set_cteFor (Some 3) <$> demo_setop !! 1
  /\ set_cteFor (Some 3) <$> demo_setop !! 1 = Some (OQuery demo_two_columns (Some 3)).
Proof.
  split; [|reflexivity].
  destruct (X9_setop_getter_hands_the_owner_down demo_setop 0 demo_members 3)
    as (_ & Hm & _); [reflexivity|].
  apply Hm. apply elem_of_cons. by left.
Defined.

Lemma X10_witness :
  (toString 0 demo_blank).1
  = (toString 0 (<[0 := OQuery (with_where [] demo_blank_where) None]> demo_blank)).1.
Proof.
  apply (X10_empty_terms_are_not_printed demo_blank 0 demo_blank_where None).
  - reflexivity.
  - repeat constructor.
Defined.

Lemma X11_witness :
  exists h',
    (let* _ := limit 0 (JNum 10) in offset 0 (JStr "x")) demo_store = (Ok 0, h')
    /\ toString 0 h'
       = (Ok (demo_text +:+ tail_text "LIMIT" (JNum 10) +:+ tail_text "OFFSET" (JStr "x")),
          h').
Proof.
  apply (X11_limit_and_offset_are_printed_last demo_store 0 demo_two_columns None).
  - reflexivity.
  - reflexivity.
  - reflexivity.
  - vm_compute. reflexivity.
Defined.

Lemma X12_witness : toString 0 demo_self = (Throw RangeError, demo_self).
Proof.
  apply (X12_self_nested_query_does_not_print demo_self 0 demo_self_query None
           (from_query 0) []); reflexivity.
Defined.

Lemma X13_witness :
  clone 0 demo_setop = (Ok demo_clone_id, demo_clone.2)
  /\ demo_clone_id <> 0
  /\ toString demo_clone_id demo_clone.2 = (Ok demo_setop_text, demo_clone.2).
Proof.
  assert (clone 0 demo_setop = (Ok demo_clone_id, demo_clone.2)) as Hc
    by (vm_compute; reflexivity).
  split; [exact Hc|]. split; [vm_compute; discriminate|].
  apply (X13_clone_prints_the_same_text 0 demo_setop); [exact Hc|].
  vm_compute. reflexivity.
Defined.


Lemma X15_witness :
  (a_source demo_active = JNull /\ a_columns demo_active = None
   /\ a_predicate demo_active = None)
  \/ (a_source demo_active = cl_source (point_clause (JStr "S"))
      /\ is_Some (a_columns demo_active) /\ is_Some (a_predicate demo_active)).
Proof.
  apply (proj1 (X15_activeColumns_all_or_nothing (point_clause (JStr "S")))).
  vm_compute. reflexivity.
Defined.

Lemma X16_witness :
  activeColumns (interval_over log_scale (JStr "S")) = Ok no_active
  /\ ~ Forall (fun sc => is_Some (st_apply (scaleTransform sc))) [log_scale].
Proof.
  assert (activeColumns (interval_over log_scale (JStr "S")) = Ok no_active) as Ha
    by (vm_compute; reflexivity).
  split; [exact Ha|]. intros Hall.
  destruct (proj2 (X16_indexable_clauses _ _ Ha)) as [cols Hcols]; [|discriminate Hcols].
  eexists _, _. split; [reflexivity|]. split; [reflexivity|].
  right. split; [reflexivity|]. eexists. split; [reflexivity|exact Hall].
Defined.

Lemma X18_witness : bin_fn (Some "CeIl") = FnName "CEIL".
Proof.
  apply (proj1 X18_bin_modes_in_any_casing).
  apply (casing_upper "c" "eil" "eIl"); [vm_compute; lia|].
  apply casing_same.
  apply (casing_upper "i" "l" "l"); [vm_compute; lia|].
  apply casing_same, casing_nil.
Defined.

Lemma X19_witness :
  binInterval bare_scale 1 None = Throw TypeError
  /\ binInterval log_scale 1 None = Ok None.
Proof.
  destruct (X19_binInterval_needs_domain_and_range bare_scale 1%float None)
    as (_ & Hdomain & _).
  destruct (X19_binInterval_needs_domain_and_range log_scale 1%float None)
    as (Hnone & _).
  split; [apply Hdomain|apply Hnone]; [by eexists|reflexivity|reflexivity].
Defined.

Lemma X20_witness :
  cube_query demo_info4 None demo_heap4'
  = (Ok (fresh (dom demo_heap4')),
     <[fresh (dom demo_heap4') := OQuery demo_template None]> demo_heap4').
Proof.
  pose (gen := fun x : option ClausePred =>
          Ok (One (match x with Some p => VExpr (cp_expr p) | None => VUndefined end)
              : Arg Val)).
  apply (X20_query_without_predicate_is_a_plain_copy (point_clause (JStr "S")) demo_info4
           demo_heap4' demo_template None).
  - vm_compute. reflexivity.
  - exists gen. vm_compute. reflexivity.
  - vm_compute. reflexivity.
Defined.

Lemma demo_cycle_settled : settled demo_cycle.
Proof.
  intros o x. revert o x. apply map_Forall_to_list.
  let l := eval vm_compute in (map_to_list demo_cycle) in
  change (map_to_list demo_cycle) with l.
  repeat constructor.
Qed.

Lemma demo_cycle_closed : closed demo_cycle.
Proof.
  intros o [x Hx]. revert o x Hx. apply map_Forall_to_list.
  let l := eval vm_compute in (map_to_list demo_cycle) in
  change (map_to_list demo_cycle) with l.
  repeat constructor; simpl;
    (eexists; split; [vm_compute; reflexivity|]; repeat constructor;
     eexists; split; [reflexivity|]; eexists; vm_compute; reflexivity).
Qed.

Lemma X24_witness :
  child demo_cycle 0 1 /\ child demo_cycle 1 0
  /\ exists h', subqueryPushdown (SubObj 0) [AStr "x"] demo_cycle = (Ok tt, h').
Proof.
  split; [|split].
  - exists [SubObj 1]. split; [reflexivity|]. apply elem_of_cons. by left.
  - exists [SubObj 0]. split; [reflexivity|]. apply elem_of_cons. by left.
  - apply (X24_pushdown_returns_on_closed_stores 0 [AStr "x"] demo_cycle).
    + exact demo_cycle_settled.
    + exact demo_cycle_closed.
    + by eexists.
Defined.

Lemma X25_witness :
  exists h', dataCubeInfo 0 demo_active demo_cols "mosaic" demo_proto = (Throw TypeError, h').
Proof.
  apply (X25_planner_throws_on_inherited_table_name 0 demo_active demo_cols "mosaic"
           demo_proto demo_proto_query [("category", VExpr (Ref None (Some "category")))]
           {| from_as := Some "toString";
              from_src := FromExpr (Ref (Some "toString") None) |} [] "toString" None).
  - reflexivity.
  - vm_compute. reflexivity.
  - reflexivity.
  - reflexivity.
  - reflexivity.
  - apply not_elem_of_nil.
Defined.

Lemma X26_witness :
  toString demo_q4 demo_heap4' = (Ok (ci_create demo_info4), demo_heap4').
Proof.
  apply (X26_plan_text_is_the_client_query demo_q4 demo_active demo_cols "mosaic"
           demo_heap4 demo_info4 demo_heap4').
  exact demo_cube4_ok.
Defined.

Lemma X27_witness :
  w_log demo_world = w_log world0
  \/ exists info,
       Ok demo_entry = Ok (ECube info)
       /\ indexes (entered (point_clause (JStr "S")) (new_indexer None None)) !! 1 = None
       /\ indexes demo_state !! 1 = Some (ECube info)
       /\ submitted (_schema (new_indexer None None)) world0 demo_world info.
Proof.
  apply (X27_index_submits_at_most_one_batch 1 sel0 (point_clause (JStr "S"))
           (new_indexer None None) world0 (Ok demo_entry) demo_state demo_world).
  vm_compute. reflexivity.
Defined.

Lemma X28_witness :
  indexes demo_state !! 1 = Some demo_entry
  /\ indexes demo_second.1.2 !! 1 = Some demo_entry.
Proof.
  assert (indexes demo_state !! 1 = Some demo_entry) as Hentry
    by (vm_compute; reflexivity).
  split; [exact Hentry|].
  apply (X28_index_keeps_entries_of_the_same_source 2 sel0 (point_clause (JStr "S"))
           demo_state demo_world demo_second.1.1 demo_second.1.2 demo_second.2 1 demo_entry).
  - vm_compute. reflexivity.
  - unfold demo_second. by destruct (index _ _ _ _ _) as [[? ?] ?].
  - exact Hentry.
Defined.

Lemma X29_witness :
  demo_failed = (Throw TypeError, demo_failed.1.2, demo_failed.2)
  /\ indexes demo_failed.1.2
     = indexes (entered (interval_over bare_scale (JStr "T")) demo_state)
  /\ w_log demo_failed.2 = w_log demo_world.
Proof.
  assert (demo_failed = (Throw TypeError, demo_failed.1.2, demo_failed.2)) as Hf
    by (vm_compute; reflexivity).
  split; [exact Hf|].
  destruct (X29_index_that_throws_stores_nothing 1 sel0 (interval_over bare_scale (JStr "T"))
              demo_state demo_world TypeError demo_failed.1.2 demo_failed.2 Hf)
    as (Hi & Hl & _).
  by split.
Defined.

End DemoExtras.
